(** * WhatsApp chat viewer: transcript parser, storage engine and store service

    A shallow embedding of [src/lib/parser.ts] (class [WhatsAppParser]),
    [src/lib/database.ts] (class [DatabaseService]) and [src/lib/stores.ts]
    (class [StoreService], in its two revisions), followed by the properties
    the specification states about them.

    Conventions of the embedding:
    - a JavaScript string is the list of its UTF-16 code units ([str]);
    - a [Date] is its time value in milliseconds since the epoch, or
      [InvalidDate] when that value is NaN;
    - a regular expression is a term of [regex], run by a backtracking
      matcher that enumerates the matches in the priority order of
      ECMAScript;
    - an IndexedDB object store is a finite map from primary key to record,
      an index read is the selection of the records in key range, sorted by
      index key and then by primary key;
    - an [await]ed call that can fail is a value of [outcome];
    - a reading of the clock ([new Date()]) is an explicit argument. *)

From Stdlib Require Import ZArith NArith List Ascii String Floats Lia Bool.
From stdpp Require Import base decidable option list gmap sorting pretty.
Import ListNotations.

Set Default Proof Using "Type".
Set Warnings "-abstract-large-number".
Local Open Scope nat_scope.

(* ===================================================================== *)
(** * Definitions *)
(* ===================================================================== *)

(** ** JavaScript strings *)

Module Js.

Definition char := N.
Definition str := list char.

(** Code units of a literal written with 8-bit characters. *)
Definition js (s : string) : str :=
  map N_of_ascii (list_ascii_of_string s).

Definition ch (a : ascii) : char := N_of_ascii a.

Definition LF : char := 10%N.
Definition CR : char := 13%N.

(** ECMAScript [LineTerminator]: LF, CR, LS, PS. *)
Definition is_line_terminator (c : char) : bool :=
  (c =? 10)%N || (c =? 13)%N || (c =? 8232)%N || (c =? 8233)%N.

(** ECMAScript [WhiteSpace] together with [LineTerminator]: the set that
    [String.prototype.trim] strips and that [\s] matches. *)
Definition is_space (c : char) : bool :=
  (c =? 9)%N || (c =? 11)%N || (c =? 12)%N || (c =? 32)%N || (c =? 160)%N
  || (c =? 5760)%N || ((8192 <=? c)%N && (c <=? 8202)%N)
  || (c =? 8239)%N || (c =? 8287)%N || (c =? 12288)%N || (c =? 65279)%N
  || is_line_terminator c.

Definition is_digit (c : char) : bool := (48 <=? c)%N && (c <=? 57)%N.

(** ASCII upper-casing; code units outside [a-z] are left alone.  Under
    the [i] flag (without [u]) a pattern letter of ASCII matches exactly
    its two ASCII case variants. *)
Definition upper (c : char) : char :=
  if (97 <=? c)%N && (c <=? 122)%N then (c - 32)%N else c.

Fixpoint trimStart (s : str) : str :=
  match s with
  | c :: s' => if is_space c then trimStart s' else s
  | [] => []
  end.

(** [s.trim()] *)
Definition trim (s : str) : str := rev (trimStart (rev (trimStart s))).

(** [s.split(d)] for a one-character separator. *)
Fixpoint split (d : char) (s : str) : list str :=
  match s with
  | [] => [[]]
  | c :: s' =>
      if (c =? d)%N then [] :: split d s'
      else match split d s' with
           | h :: t => (c :: h) :: t
           | [] => [[c]]
           end
  end.

(** [parts.join(sep)] *)
Fixpoint join (sep : str) (parts : list str) : str :=
  match parts with
  | [] => []
  | [p] => p
  | p :: ps => p ++ sep ++ join sep ps
  end.

(** Decimal rendering of a non-negative integer, as a template literal
    or string concatenation renders it. *)
Definition dec (n : nat) : str := js (pretty n).

(** [parseInt(s, 10)]: leading white space, an optional sign, then the
    longest run of decimal digits; [None] is NaN. *)
Fixpoint digits_value (acc : Z) (s : str) : Z :=
  match s with
  | c :: s' => if is_digit c then digits_value (10 * acc + (Z.of_N c - 48)) s' else acc
  | [] => acc
  end.

Definition unsigned_value (s : str) : option Z :=
  match s with
  | c :: _ => if is_digit c then Some (digits_value 0 s) else None
  | [] => None
  end.

Definition parseInt (s : str) : option Z :=
  match trimStart s with
  | c :: s' =>
      if (c =? 45)%N then Z.opp <$> unsigned_value s'
      else if (c =? 43)%N then unsigned_value s'
      else unsigned_value (c :: s')
  | [] => None
  end.

(** A [Date]: a time value, or the invalid date. *)
Inductive Date := Time (ms : Z) | InvalidDate.

(** Days from the epoch to the first day of month [m] (0 to 11) of the
    year [y] of the Gregorian calendar. *)
Definition days_to_month (y m : Z) : Z :=
  let y' := if (m <? 2)%Z then (y - 1)%Z else y in
  let era := (y' / 400)%Z in
  let yoe := (y' - era * 400)%Z in
  let mp := if (m <? 2)%Z then (m + 10)%Z else (m - 2)%Z in
  let doy := ((153 * mp + 2) / 5)%Z in
  let doe := (yoe * 365 + yoe / 4 - yoe / 100 + doy)%Z in
  (era * 146097 + doe - 719468)%Z.

(** [new Date(year, monthIndex, day, hours, minutes)] on a host whose
    time zone is UTC: fields out of range carry over, a year from 0 to 99
    counts from 1900, a time value out of range is the invalid date. *)
Definition utc_time (year monthIndex day hours minutes : Z) : Date :=
  let y := if ((0 <=? year) && (year <=? 99))%Z then (1900 + year)%Z else year in
  let days := (days_to_month (y + monthIndex / 12) (monthIndex mod 12) + day - 1)%Z in
  let t := (days * 86400000 + hours * 3600000 + minutes * 60000)%Z in
  if (Z.abs t <=? 8640000000000000)%Z then Time t else InvalidDate.

(** [a < b] on dates compares time values; NaN compares false. *)
Definition date_ltb (a b : Date) : bool :=
  match a, b with
  | Time x, Time y => (x <? y)%Z
  | _, _ => false
  end.

End Js.

(** ** Regular expressions *)

Module Regex.
Import Js.

(** One-character matchers. *)
Inductive cclass :=
| Dot                      (* .  : any code unit but a line terminator *)
| Digit                    (* \d *)
| Space                    (* \s *)
| Lit (c : char)           (* a literal character *)
| LitI (c : char)          (* a literal character under the i flag *)
| OneOf (cs : list char)   (* [...]  *)
| NoneOf (cs : list char). (* [^...] *)

Definition cmatch (k : cclass) (c : char) : bool :=
  match k with
  | Dot => negb (is_line_terminator c)
  | Digit => is_digit c
  | Space => is_space c
  | Lit x => (c =? x)%N
  | LitI x => (upper c =? upper x)%N
  | OneOf cs => existsb (N.eqb c) cs
  | NoneOf cs => negb (existsb (N.eqb c) cs)
  end.

(** The fragment of the pattern language the sources use.  Quantifiers
    are applied to one-character matchers only; capture groups are not
    nested and do not occur under an alternative, so they close in the
    order in which they open. *)
Inductive regex :=
| Eps
| Chr (k : cclass)
| Rep (k : cclass) (lo : nat) (hi : option nat) (greedy : bool)
| Seq (r1 r2 : regex)
| Alt (r1 r2 : regex)
| Group (r : regex)
| End.                     (* $ without the m flag *)

(** Matcher state: the input still to read and the groups closed so far. *)
Definition mstate : Type := str * list str.

Definition hi_allows (hi : option nat) : bool :=
  match hi with Some 0 => false | _ => true end.

Definition hi_pred (hi : option nat) : option nat :=
  match hi with Some n => Some (pred n) | None => None end.

(** The inputs left after [k{lo,hi}], in backtracking order: a greedy
    quantifier tries one more repetition before stopping, a lazy one
    stops before trying more. *)
Fixpoint rep (k : cclass) (greedy : bool) (lo : nat) (hi : option nat)
    (s : str) {struct s} : list str :=
  let stop := match lo with 0 => [s] | S _ => [] end in
  let more :=
    match s with
    | c :: s' =>
        if cmatch k c && hi_allows hi
        then rep k greedy (pred lo) (hi_pred hi) s'
        else []
    | [] => []
    end in
  if greedy then more ++ stop else stop ++ more.

(** All the ways [r] matches a prefix of the input, most preferred first. *)
Fixpoint run (r : regex) (st : mstate) : list mstate :=
  match r with
  | Eps => [st]
  | Chr k =>
      match st.1 with
      | c :: s' => if cmatch k c then [(s', st.2)] else []
      | [] => []
      end
  | Rep k lo hi greedy => map (fun s' => (s', st.2)) (rep k greedy lo hi st.1)
  | Seq r1 r2 => flat_map (run r2) (run r1 st)
  | Alt r1 r2 => run r1 st ++ run r2 st
  | Group r =>
      map (fun st' : mstate =>
             (st'.1, st'.2 ++ [firstn (length st.1 - length st'.1) st.1]))
          (run r st)
  | End => match st.1 with [] => [st] | _ :: _ => [] end
  end.

(** [s.match(/^r/)]: the groups of the first match from the start. *)
Definition exec_start (r : regex) (s : str) : option (list str) :=
  match run r (s, []) with
  | st :: _ => Some st.2
  | [] => None
  end.

(** [s.match(/r/)] for a pattern that is not anchored: the first start
    position from which the pattern matches wins. *)
Fixpoint search (r : regex) (s : str) : option (list str) :=
  match exec_start r s with
  | Some g => Some g
  | None => match s with
            | _ :: s' => search r s'
            | [] => None
            end
  end.

(** [/r/.test(s)] *)
Definition test_start (r : regex) (s : str) : bool := bool_decide (is_Some (exec_start r s)).
Definition test (r : regex) (s : str) : bool := bool_decide (is_Some (search r s)).

(** [s.replace(/^r/, '')]: the input without the matched prefix. *)
Definition strip_start (r : regex) (s : str) : str :=
  match run r (s, []) with
  | st :: _ => st.1
  | [] => s
  end.

(** Pattern builders. *)
Definition rseq (rs : list regex) : regex := foldr Seq Eps rs.
Definition lit (s : string) : regex := rseq (map (fun c => Chr (Lit c)) (js s)).
Definition liti (s : string) : regex := rseq (map (fun c => Chr (LitI c)) (js s)).
Definition digits (lo hi : nat) : regex := Rep Digit lo (Some hi) true.

End Regex.

(** ** The transcript parser ([WhatsAppParser]) *)

Module Parser.
Import Js Regex.

Record ParsedMessage := {
  timestamp : Date;
  sender : str;
  content : str
}.

Record DateRange := { range_start : Date; range_end : Date }.

Record ChatMetadata := {
  name : str;
  participants : list str;
  messageCount : nat;
  dateRange : DateRange
}.

(** The part the two line patterns have in common,
    [^(\d{1,2}\/\d{1,2}\/\d{2,4}),\s(\d{1,2}:\d{2})\s-\s].
    (In these comments a star is kept apart from a closing parenthesis
    by a blank that the pattern does not have.) *)
Definition stamp : list regex :=
  [ Group (rseq [digits 1 2; lit "/"; digits 1 2; lit "/"; digits 2 4]);
    lit ","; Chr Space;
    Group (rseq [digits 1 2; lit ":"; digits 2 2]);
    Chr Space; lit "-"; Chr Space ].

(** [/^(\d{1,2}\/\d{1,2}\/\d{2,4}),\s(\d{1,2}:\d{2})\s-\s(.+?):\s(.* )$/] *)
Definition MESSAGE_REGEX : regex :=
  rseq (stamp ++ [ Group (Rep Dot 1 None false); lit ":"; Chr Space;
                  Group (Rep Dot 0 None true); End ]).

(** [/^(\d{1,2}\/\d{1,2}\/\d{2,4}),\s(\d{1,2}:\d{2})\s-\s(.* )$/] *)
Definition SYSTEM_MESSAGE_REGEX : regex :=
  rseq (stamp ++ [ Group (Rep Dot 0 None true); End ]).

(** [/^~\s/] *)
Definition TILDE_PREFIX : regex := rseq [lit "~"; Chr Space].

(** [/added|created|changed.*subject|group/i] *)
Definition groupNamePattern : regex :=
  Alt (liti "added")
    (Alt (liti "created")
       (Alt (rseq [liti "changed"; Rep Dot 0 None true; liti "subject"])
          (liti "group"))).

(** The double and the single quotation mark. *)
Definition quotes : list char := [34%N; 39%N].

(** [/subject.*?[q]([^q]+)[q]/i], where [q] stands for the two quotation
    marks of the class in the source. *)
Definition subjectPattern : regex :=
  rseq [ liti "subject"; Rep Dot 0 None false;
        Chr (OneOf quotes);
        Group (Rep (NoneOf quotes) 1 None true);
        Chr (OneOf quotes) ].

Definition nonblank (line : str) : Prop := trim line ≠ [].

#[global] Instance nonblank_dec line : Decision (nonblank line).
Proof. unfold nonblank. apply _. Defined.

(** [content.split('\n').filter(line => line.trim())] *)
Definition nonblank_lines (text : str) : list str :=
  filter nonblank (split LF text).

Section WithLocalTime.

(** [new Date(year, monthIndex, day, hours, minutes)]: the instant the
    host's time zone gives to these calendar fields. *)
Variable local_time : Z -> Z -> Z -> Z -> Z -> Date.

Definition parseDateTime (dateStr timeStr : str) : Date :=
  match parseInt <$> split (ch "/") dateStr,
        parseInt <$> split (ch ":") timeStr with
  | Some month :: Some day :: Some year :: _,
    Some hours :: Some minutes :: _ =>
      let fullYear :=
        if (year <? 100)%Z
        then (if (50 <? year)%Z then 1900 + year else 2000 + year)%Z
        else year in
      local_time fullYear (month - 1)%Z day hours minutes
  | _, _ => InvalidDate
  end.

(** The variables of the loop of [parse]. *)
Record pstate := {
  messages : list ParsedMessage;
  participantSet : list str;      (* a [Set], in insertion order *)
  currentMessage : option ParsedMessage
}.

Definition init : pstate :=
  {| messages := []; participantSet := []; currentMessage := None |}.

(** [set.add(x)] *)
Definition set_add (x : str) (l : list str) : list str :=
  if bool_decide (x ∈ l) then l else l ++ [x].

(** [if (currentMessage) messages.push(currentMessage)] *)
Definition flush (st : pstate) : list ParsedMessage :=
  match currentMessage st with
  | Some m => messages st ++ [m]
  | None => messages st
  end.

(** The branch taken when [MESSAGE_REGEX] matched with groups [g]. *)
Definition on_message (st : pstate) (g : list str) : pstate :=
  let date := nth 0 g [] in
  let time := nth 1 g [] in
  let sender := nth 2 g [] in
  let content := nth 3 g [] in
  let cleanSender := trim (strip_start TILDE_PREFIX sender) in
  {| messages := flush st;
     participantSet := set_add cleanSender (participantSet st);
     currentMessage :=
       Some {| timestamp := parseDateTime date time;
               sender := cleanSender;
               content := trim content |} |}.

(** The branch taken when only [SYSTEM_MESSAGE_REGEX] matched. *)
Definition on_system (st : pstate) (g : list str) : pstate :=
  let date := nth 0 g [] in
  let time := nth 1 g [] in
  let content := nth 2 g [] in
  {| messages :=
       flush st ++ [ {| timestamp := parseDateTime date time;
                        sender := js "System";
                        content := trim content |} ];
     participantSet := participantSet st;
     currentMessage := None |}.

(** The branch taken when neither pattern matched. *)
Definition on_other (st : pstate) (line : str) : pstate :=
  match currentMessage st with
  | Some m =>
      if bool_decide (nonblank line)
      then {| messages := messages st;
              participantSet := participantSet st;
              currentMessage :=
                Some {| timestamp := timestamp m;
                        sender := sender m;
                        content := content m ++ [LF] ++ trim line |} |}
      else st
  | None => st
  end.

(** The body of [for (const line of lines)]. *)
Definition parse_line (st : pstate) (line : str) : pstate :=
  let messageMatch := exec_start MESSAGE_REGEX line in
  let systemMatch := exec_start SYSTEM_MESSAGE_REGEX line in
  match messageMatch with
  | Some g => on_message st g
  | None =>
      match systemMatch with
      | Some g => on_system st g
      | None => on_other st line
      end
  end.

(** The scan of the first messages of a group chat for a subject. *)
Fixpoint find_subject (ms : list ParsedMessage) : option str :=
  match ms with
  | [] => None
  | m :: ms' =>
      if test groupNamePattern (content m)
      then match search subjectPattern (content m) with
           | Some g => Some (nth 0 g [])
           | None => find_subject ms'
           end
      else find_subject ms'
  end.

Definition generateChatName (participants : list str)
    (messages : list ParsedMessage) : str :=
  match participants with
  | [] => js "Unknown Chat"
  | [p] => p ++ js " (Self Chat)"
  | [_; _] => join (js " & ") participants
  | _ =>
      match find_subject (firstn 10 messages) with
      | Some subject => subject
      | None =>
          if length participants <=? 4
          then join (js ", ") participants
          else join (js ", ") (firstn 3 participants) ++ js " and "
               ++ dec (length participants - 3) ++ js " others"
      end
  end.

(** [parse(chatContent)]; [now_start] and [now_end] are the two clock
    readings taken when no message was found. *)
Definition parse (now_start now_end : Z) (chatContent : str)
    : list ParsedMessage * ChatMetadata :=
  let lines := nonblank_lines chatContent in
  let st := fold_left parse_line lines init in
  let messages := flush st in
  let participants := filter (λ p, p ≠ js "System") (participantSet st) in
  let chatName := generateChatName participants messages in
  (messages,
   {| name := chatName;
      participants := participants;
      messageCount := length messages;
      dateRange :=
        {| range_start := match messages with
                          | m :: _ => timestamp m
                          | [] => Time now_start
                          end;
           range_end := match last messages with
                        | Some m => timestamp m
                        | None => Time now_end
                        end |} |}).

(** The state of the loop of [parse] after the lines [ls]. *)
Definition after_lines (ls : list str) : pstate :=
  fold_left parse_line ls init.

End WithLocalTime.

(** *** Validation *)

Record Validation := { isValid : bool; errors : list str }.

(** The double nearest to a small count. *)
Definition float_of_nat (n : nat) : float :=
  PrimFloat.of_uint63 (Uint63.of_Z (Z.of_nat n)).

(** [Math.round(x)] for [0 <= x < 101]: the number of half-integers
    [n + 0.5] that are not above [x] (ties go up). *)
Definition round_percent (x : float) : nat :=
  length (List.filter (fun n => PrimFloat.leb (float_of_nat n + 0.5)%float x)
            (seq 0 101)).

Definition matches_grammar (line : str) : bool :=
  test_start MESSAGE_REGEX line || test_start SYSTEM_MESSAGE_REGEX line.

(** The lines the loop of [validate] looks at: the first 50 of the
    non-blank lines, each tested again for being non-blank. *)
Definition sample (lines : list str) : list str :=
  filter nonblank (firstn (Nat.min 50 (length lines)) lines).

Definition validMessageCount (lines : list str) : nat :=
  length (List.filter matches_grammar (sample lines)).

Definition totalNonEmptyLines (lines : list str) : nat :=
  length (sample lines).

Definition validRatio (lines : list str) : float :=
  (float_of_nat (validMessageCount lines)
   / float_of_nat (totalNonEmptyLines lines))%float.

(** The double that the literal [0.3] denotes. *)
Definition threshold : float := 0x1.3333333333333p-2%float.

Definition ratio_errors (lines : list str) : list str :=
  if PrimFloat.ltb (validRatio lines) threshold
  then [ js "Content does not appear to be a WhatsApp chat export";
         js "Only " ++ dec (round_percent (validRatio lines * 100)%float)
           ++ js "% of lines match expected format" ]
  else [].

Definition format_errors (lines : list str) : list str :=
  if validMessageCount lines =? 0
  then [ js "No valid message format found";
         js "Expected format: " ++ [34%N]
           ++ js "MM/DD/YY, HH:MM - Sender: Message" ++ [34%N] ]
  else [].

Definition validate (content : str) : Validation :=
  if bool_decide (content = [] \/ length (trim content) = 0)
  then {| isValid := false; errors := [js "Content is empty"] |}
  else
    let lines := nonblank_lines content in
    if length lines =? 0
    then {| isValid := false; errors := [js "No valid lines found"] |}
    else
      let errors := ratio_errors lines ++ format_errors lines in
      {| isValid := length errors =? 0; errors := errors |}.

(** The comparison of doubles in [validate] against the comparison of
    the exact fraction with three tenths, for every pair of counts that a
    sample of at most 50 lines can give. *)
Definition ratio_table_ok : bool :=
  forallb (fun t =>
    forallb (fun v =>
      Bool.eqb (PrimFloat.ltb (float_of_nat v / float_of_nat t)%float threshold)
               (10 * v <? 3 * t))
      (seq 0 (S t)))
    (seq 1 50).

End Parser.

(** ** The storage engine ([DatabaseService]) *)

Module Database.
Import Js.

(** The values of the three object stores. *)
Module Chat.
Record t := {
  id : str;
  name : str;
  participants : list str;
  createdAt : Date;
  lastMessageAt : Date;
  messageCount : nat;
  rawContent : str
}.
End Chat.

Module Message.
Record t := {
  id : str;
  chatId : str;
  timestamp : Date;
  sender : str;
  content : str;
  messageIndex : nat
}.
End Message.

Module Bookmark.
Record t := {
  id : str;
  messageId : str;
  chatId : str;
  createdAt : Date;
  note : option str
}.
End Bookmark.

(** The database: each object store maps a primary key to its record.
    All three stores have key path [id], so [put] files a record under
    its own [id]. *)
Record DB := {
  chats : gmap str Chat.t;
  messages : gmap str Message.t;
  bookmarks : gmap str Bookmark.t
}.

Definition empty : DB := {| chats := ∅; messages := ∅; bookmarks := ∅ |}.

Definition put_chat (c : Chat.t) (db : DB) : DB :=
  {| chats := <[Chat.id c := c]> (chats db);
     messages := messages db; bookmarks := bookmarks db |}.

Definition put_message (m : Message.t) (db : DB) : DB :=
  {| chats := chats db;
     messages := <[Message.id m := m]> (messages db);
     bookmarks := bookmarks db |}.

Definition put_bookmark (b : Bookmark.t) (db : DB) : DB :=
  {| chats := chats db; messages := messages db;
     bookmarks := <[Bookmark.id b := b]> (bookmarks db) |}.

Definition delete_chat (k : str) (db : DB) : DB :=
  {| chats := delete k (chats db);
     messages := messages db; bookmarks := bookmarks db |}.

Definition delete_message (db : DB) (k : str) : DB :=
  {| chats := chats db; messages := delete k (messages db);
     bookmarks := bookmarks db |}.

Definition delete_bookmark (db : DB) (k : str) : DB :=
  {| chats := chats db; messages := messages db;
     bookmarks := delete k (bookmarks db) |}.

(** *** Key order and index reads *)

(** IndexedDB orders string keys by code unit. *)
Fixpoint str_leb (a b : str) : bool :=
  match a, b with
  | [], _ => true
  | _ :: _, [] => false
  | x :: a', y :: b' =>
      if (x <? y)%N then true
      else if (x =? y)%N then str_leb a' b'
      else false
  end.

(** Entries of equal index key come in the order of their primary keys. *)
Definition by_primary_key {V} (p q : str * V) : Prop :=
  str_leb p.1 q.1 = true.

(** Order of the index [by-chat-index] inside one chat: by
    [messageIndex], then by primary key. *)
Definition by_index_then_key (p q : str * Message.t) : Prop :=
  Message.messageIndex p.2 < Message.messageIndex q.2
  ∨ (Message.messageIndex p.2 = Message.messageIndex q.2
     ∧ str_leb p.1 q.1 = true).

#[global] Instance by_primary_key_dec {V} (p q : str * V) :
  Decision (by_primary_key p q).
Proof. unfold by_primary_key. apply _. Defined.

#[global] Instance by_index_then_key_dec p q : Decision (by_index_then_key p q).
Proof. unfold by_index_then_key. apply _. Defined.

(** The entries of the index [by-chat] of the message store under the
    key [chatId], in cursor order. *)
Definition messages_by_chat (db : DB) (chatId : str)
    : list (str * Message.t) :=
  merge_sort by_primary_key
    (filter (λ p, Message.chatId p.2 = chatId) (map_to_list (messages db))).

(** The entries of the index [by-chat] of the bookmark store. *)
Definition bookmarks_by_chat (db : DB) (chatId : str)
    : list (str * Bookmark.t) :=
  merge_sort by_primary_key
    (filter (λ p, Bookmark.chatId p.2 = chatId) (map_to_list (bookmarks db))).

(** The entries of [by-chat-index] in the key range
    [IDBKeyRange.bound([chatId, offset], [chatId, Infinity])]. *)
Definition messages_by_chat_index (db : DB) (chatId : str) (offset : nat)
    : list (str * Message.t) :=
  merge_sort by_index_then_key
    (filter (λ p, Message.chatId p.2 = chatId
                  ∧ offset ≤ Message.messageIndex p.2)
       (map_to_list (messages db))).

(** *** Operations *)

(** The template literal that joins the chat id and the position with
    a hyphen. *)
Definition message_key (id : str) (i : nat) : str := id ++ js "-" ++ dec i.

(** The record [storeChat] writes for the message at position [i]. *)
Definition message_record (id : str) (i : nat)
    (message : Parser.ParsedMessage) : Message.t :=
  {| Message.id := message_key id i;
     Message.chatId := id;
     Message.timestamp := Parser.timestamp message;
     Message.sender := Parser.sender message;
     Message.content := Parser.content message;
     Message.messageIndex := i |}.

(** [for (let i = 0; i < messages.length; i++) messageStore.put(...)],
    from position [i] on. *)
Fixpoint put_messages (id : str) (i : nat)
    (rest : list Parser.ParsedMessage) (db : DB) : DB :=
  match rest with
  | [] => db
  | message :: rest' =>
      put_messages id (S i) rest' (put_message (message_record id i message) db)
  end.

(** The chat record of [storeChat]; [now_created] and [now_last] are
    the readings of the clock for [createdAt] and for the
    [lastMessageAt] of an empty chat. *)
Definition chat_record (now_created now_last : Z) (id name : str)
    (participants : list str) (messages : list Parser.ParsedMessage)
    (rawContent : str) : Chat.t :=
  {| Chat.id := id;
     Chat.name := name;
     Chat.participants := participants;
     Chat.createdAt := Time now_created;
     Chat.lastMessageAt :=
       match last messages with
       | Some m => Parser.timestamp m
       | None => Time now_last
       end;
     Chat.messageCount := length messages;
     Chat.rawContent := rawContent |}.

(** [storeChat]: the state after the transaction has committed. *)
Definition storeChat (now_created now_last : Z) (id name : str)
    (participants : list str) (messages : list Parser.ParsedMessage)
    (rawContent : str) (db : DB) : DB :=
  let chat :=
    chat_record now_created now_last id name participants messages rawContent in
  put_messages id 0 messages (put_chat chat db).

Definition MAX_ITERATIONS : nat := 10000.

(** [while (cursor && count < limit && iterations < MAX_ITERATIONS)]:
    [cursor] is the list of the entries from the cursor's position on. *)
Fixpoint cursor_loop (limit : nat) (cursor : list (str * Message.t))
    (count iterations : nat) (messages : list Message.t) : list Message.t :=
  match cursor with
  | [] => messages
  | entry :: next =>
      if (count <? limit) && (iterations <? MAX_ITERATIONS)
      then cursor_loop limit next (S count) (S iterations) (messages ++ [entry.2])
      else messages
  end.

(** [getMessages(chatId, limit, offset)] for integral [limit] and
    [offset] that are not negative. *)
Definition getMessages (db : DB) (chatId : str) (limit offset : nat)
    : list Message.t :=
  cursor_loop limit (messages_by_chat_index db chatId offset) 0 0 [].

(** [getAllFromIndex('messages', 'by-chat', chatId)] *)
Definition getAllMessagesForChat (db : DB) (chatId : str) : list Message.t :=
  (messages_by_chat db chatId).*2.

(** [getAllFromIndex('bookmarks', 'by-chat', chatId)] *)
Definition getBookmarksForChat (db : DB) (chatId : str) : list Bookmark.t :=
  (bookmarks_by_chat db chatId).*2.

Definition getChat (db : DB) (chatId : str) : option Chat.t :=
  chats db !! chatId.

(** [deleteChat]: the state after the transaction has committed.  The
    key lists are read inside the transaction, after the writes that
    precede them. *)
Definition deleteChat (db : DB) (chatId : str) : DB :=
  let db1 := delete_chat chatId db in
  let messageKeys := (messages_by_chat db1 chatId).*1 in
  let db2 := foldl delete_message db1 messageKeys in
  let bookmarkKeys := (bookmarks_by_chat db2 chatId).*1 in
  foldl delete_bookmark db2 bookmarkKeys.

(** *** Vocabulary of the properties *)

(** The message records a chat owns, in no particular order. *)
Definition chat_messages (db : DB) (chatId : str) : list Message.t :=
  (filter (λ p, Message.chatId p.2 = chatId) (map_to_list (messages db))).*2.

(** The bookmark records that point into a chat. *)
Definition chat_bookmarks (db : DB) (chatId : str) : list Bookmark.t :=
  (filter (λ p, Bookmark.chatId p.2 = chatId) (map_to_list (bookmarks db))).*2.

(** The [messageIndex] of every record is its position in the list. *)
Definition dense (recs : list Message.t) : Prop :=
  ∀ i m, recs !! i = Some m → Message.messageIndex m = i.

(** No message record of the chat is in the store. *)
Definition fresh (db : DB) (chatId : str) : Prop :=
  ∀ k m, messages db !! k = Some m → Message.chatId m ≠ chatId.

(** The records [storeChat] writes for a message list, in input order. *)
Definition message_records (id : str) (msgs : list Parser.ParsedMessage)
    : list Message.t :=
  imap (message_record id) msgs.

(** The entries of a chat after [storeChat] on a fresh chat id. *)
Definition stored_entries (id : str) (msgs : list Parser.ParsedMessage)
    : list (str * Message.t) :=
  imap (λ i msg, (message_key id i, message_record id i msg)) msgs.

(** Records whose [messageIndex] counts up from [k]. *)
Definition dense_from (k : nat) (recs : list Message.t) : Prop :=
  ∀ i m, recs !! i = Some m → Message.messageIndex m = k + i.

Definition index_le (a b : Message.t) : Prop :=
  Message.messageIndex a ≤ Message.messageIndex b.

End Database.

(** ** The store service ([StoreService]) *)

Module Store.
Import Js Database.

(** The settlement of an awaited promise. *)
Inductive outcome (A : Type) :=
| Resolved (a : A)
| Rejected (error : str).
Arguments Resolved {A} a.
Arguments Rejected {A} error.

Record AppState := {
  currentChatId : option str;
  isLoading : bool;
  searchQuery : str;
  showBookmarks : bool;
  isMobile : bool;
  isInitialized : bool
}.

(** The private fields of the service and the writable stores of the
    module.  The class exists in two revisions: [stores.ts], and a later
    one that adds [circuitBreaker] (a map from operation name to failure
    count and time of the last failure); the first revision has no such
    field and leaves it alone here. *)
Record State := {
  messageCache : gmap str (list Message.t);
  bookmarkCache : gmap str bool;
  loadingStates : gset str;
  circuitBreaker : gmap str (nat * Z);
  chats : list Chat.t;
  messages : list Message.t;
  bookmarks : list Bookmark.t;
  appState : AppState
}.

Definition initial : State :=
  {| messageCache := ∅; bookmarkCache := ∅; loadingStates := ∅;
     circuitBreaker := ∅; chats := []; messages := []; bookmarks := [];
     appState := {| currentChatId := None; isLoading := false;
                    searchQuery := []; showBookmarks := false;
                    isMobile := false; isInitialized := false |} |}.

(** Field updates. *)
Definition set_messageCache (f : gmap str (list Message.t) → gmap str (list Message.t))
    (s : State) : State :=
  {| messageCache := f (messageCache s); bookmarkCache := bookmarkCache s;
     loadingStates := loadingStates s; circuitBreaker := circuitBreaker s;
     chats := chats s; messages := messages s; bookmarks := bookmarks s;
     appState := appState s |}.

Definition set_loadingStates (f : gset str → gset str) (s : State) : State :=
  {| messageCache := messageCache s; bookmarkCache := bookmarkCache s;
     loadingStates := f (loadingStates s); circuitBreaker := circuitBreaker s;
     chats := chats s; messages := messages s; bookmarks := bookmarks s;
     appState := appState s |}.

Definition set_circuitBreaker (f : gmap str (nat * Z) → gmap str (nat * Z))
    (s : State) : State :=
  {| messageCache := messageCache s; bookmarkCache := bookmarkCache s;
     loadingStates := loadingStates s; circuitBreaker := f (circuitBreaker s);
     chats := chats s; messages := messages s; bookmarks := bookmarks s;
     appState := appState s |}.

(** [messages.set(l)] *)
Definition set_messages (l : list Message.t) (s : State) : State :=
  {| messageCache := messageCache s; bookmarkCache := bookmarkCache s;
     loadingStates := loadingStates s; circuitBreaker := circuitBreaker s;
     chats := chats s; messages := l; bookmarks := bookmarks s;
     appState := appState s |}.

(** [appState.update(f)] *)
Definition update_appState (f : AppState → AppState) (s : State) : State :=
  {| messageCache := messageCache s; bookmarkCache := bookmarkCache s;
     loadingStates := loadingStates s; circuitBreaker := circuitBreaker s;
     chats := chats s; messages := messages s; bookmarks := bookmarks s;
     appState := f (appState s) |}.

Definition with_isLoading (b : bool) (a : AppState) : AppState :=
  {| currentChatId := currentChatId a; isLoading := b;
     searchQuery := searchQuery a; showBookmarks := showBookmarks a;
     isMobile := isMobile a; isInitialized := isInitialized a |}.

Definition with_currentChatId (c : option str) (a : AppState) : AppState :=
  {| currentChatId := c; isLoading := isLoading a;
     searchQuery := searchQuery a; showBookmarks := showBookmarks a;
     isMobile := isMobile a; isInitialized := isInitialized a |}.

(** *** First revision ([stores.ts]) *)

(** [loadMessages(chatId, forceRefresh)].  [fetch] is the settlement of
    [Promise.race([dbService.getAllMessagesForChat(chatId), timeout])]:
    a rejection is a storage error or the ten-second timeout.  The state
    is the one the method leaves when nothing else runs while it waits. *)
Definition loadMessages (chatId : str) (forceRefresh : bool)
    (fetch : outcome (list Message.t)) (s : State) : State * outcome unit :=
  if bool_decide (chatId ∈ loadingStates s) then (s, Resolved ())
  else
    match (if forceRefresh then None else messageCache s !! chatId) with
    | Some cachedMessages => (set_messages cachedMessages s, Resolved ())
    | None =>
        (* try *)
        let s1 := update_appState (with_isLoading true)
                    (set_loadingStates (λ l, l ∪ {[chatId]}) s) in
        let s2 :=
          match fetch with
          | Resolved messageList =>
              set_messages messageList
                (set_messageCache (λ c, <[chatId := messageList]> c) s1)
          | Rejected _ =>
              (* catch: the error is logged, the cache entry cleared *)
              set_messageCache (λ c, delete chatId c) s1
          end in
        (* finally *)
        let s3 := update_appState (with_isLoading false)
                    (set_loadingStates (λ l, l ∖ {[chatId]}) s2) in
        (s3, Resolved ())
    end.

(** [switchToChat(chatId)] *)
Definition switchToChat (chatId : str) (fetch : outcome (list Message.t))
    (s : State) : State * outcome unit :=
  let s1 := update_appState (with_currentChatId (Some chatId)) s in
  loadMessages chatId false fetch s1.

(** *** Second revision (with the circuit breaker) *)

Definition MAX_FAILURES : nat := 3.
Definition CIRCUIT_BREAKER_TIMEOUT : Z := 30000.

(** [isCircuitBreakerOpen(operation)]; [now] is [Date.now()]. *)
Definition isCircuitBreakerOpen (now : Z) (operation : str) (s : State)
    : State * bool :=
  match circuitBreaker s !! operation with
  | None => (s, false)
  | Some (failures, lastFailure) =>
      if MAX_FAILURES <=? failures
      then if (now - lastFailure <? CIRCUIT_BREAKER_TIMEOUT)%Z
           then (s, true)
           else (set_circuitBreaker (λ m, delete operation m) s, false)
      else (s, false)
  end.

Definition recordFailure (now : Z) (operation : str) (s : State) : State :=
  let breaker := default (0, 0%Z) (circuitBreaker s !! operation) in
  set_circuitBreaker (λ m, <[operation := (S breaker.1, now)]> m) s.

Definition recordSuccess (operation : str) (s : State) : State :=
  set_circuitBreaker (λ m, delete operation m) s.

(** [loadMessages] of the second revision; [now_check] and [now_fail]
    are the readings of [Date.now()] in [isCircuitBreakerOpen] and in
    [recordFailure], the timeout is eight seconds.  A resolved storage
    call yields an array, so the [Array.isArray] test passes. *)
Definition loadMessages_cb (now_check now_fail : Z) (chatId : str)
    (forceRefresh : bool) (fetch : outcome (list Message.t)) (s : State)
    : State * outcome unit :=
  let operation := js "loadMessages-" ++ chatId in
  let (s0, open) := isCircuitBreakerOpen now_check operation s in
  if open
  then (s0, Rejected (js "Circuit breaker is open for loading messages. Please wait and try again."))
  else if bool_decide (chatId ∈ loadingStates s0) then (s0, Resolved ())
  else
    match (if forceRefresh then None else messageCache s0 !! chatId) with
    | Some cachedMessages =>
        (recordSuccess operation (set_messages cachedMessages s0), Resolved ())
    | None =>
        (* try *)
        let s1 := update_appState (with_isLoading true)
                    (set_loadingStates (λ l, l ∪ {[chatId]}) s0) in
        let finally (s2 : State) : State :=
          update_appState (with_isLoading false)
            (set_loadingStates (λ l, l ∖ {[chatId]}) s2) in
        match fetch with
        | Resolved messageList =>
            (finally
               (recordSuccess operation
                  (set_messages messageList
                     (set_messageCache (λ c, <[chatId := messageList]> c) s1))),
             Resolved ())
        | Rejected error =>
            (* catch: record, clear, publish the empty list, rethrow *)
            (finally
               (set_messages []
                  (set_messageCache (λ c, delete chatId c)
                     (recordFailure now_fail operation s1))),
             Rejected error)
        end
    end.

(** [switchToChat] of the second revision.  Its ten-second timer
    cannot fire before [loadMessages] has settled (that one gives up
    after eight seconds), so the race is decided by [loadMessages]. *)
Definition switchToChat_cb (now_check now_fail : Z) (chatId : str)
    (fetch : outcome (list Message.t)) (s : State) : State * outcome unit :=
  let currentState := appState s in
  if bool_decide (currentChatId currentState = Some chatId)
     && negb (isLoading currentState)
  then (s, Resolved ())
  else
    let switchOperation := js "switchToChat-" ++ chatId in
    if bool_decide (switchOperation ∈ loadingStates s) then (s, Resolved ())
    else
      (* try *)
      let s1 := update_appState (with_currentChatId (Some chatId))
                  (set_loadingStates (λ l, l ∪ {[switchOperation]}) s) in
      let (s2, r) := loadMessages_cb now_check now_fail chatId false fetch s1 in
      let finally (s3 : State) : State :=
        set_loadingStates (λ l, l ∖ {[switchOperation]}) s3 in
      match r with
      | Resolved _ => (finally s2, Resolved ())
      | Rejected error =>
          (* catch: reset the selection, rethrow *)
          (finally
             (update_appState
                (λ a, with_isLoading false (with_currentChatId None a)) s2),
           Rejected error)
      end.

(** *** Statistics (the same in both revisions) *)

(** A value of the tally object: a count, or the text that [+ 1] makes
    of a value that is not a number. *)
Inductive stat := Count (n : nat) | Text (s : str).

Record ChatStats := {
  messageCount : nat;
  participantStats : gmap str stat;
  dateRange : Date * Date;            (* start, end *)
  averageMessagesPerDay : float
}.

(** The variables of the loop of [getChatStats]. *)
Record tally := {
  stats : gmap str stat;
  startDate : Date;
  endDate : Date
}.

(** The Number that holds a time value.  The time value of a valid
    date is an integer of magnitude at most 8.64e15, which a double holds
    exactly. *)
Definition float_of_time (ms : Z) : float :=
  if (ms <? 0)%Z
  then (- PrimFloat.of_uint63 (Uint63.of_Z (- ms)))%float
  else PrimFloat.of_uint63 (Uint63.of_Z ms).

(** [date.getTime()]: NaN for the invalid date. *)
Definition getTime (d : Date) : float :=
  match d with Time ms => float_of_time ms | InvalidDate => nan end.

(** [Math.max(a, b)]: NaN when an argument is NaN; of the two zeros the
    positive one is the larger. *)
Definition Math_max (a b : float) : float :=
  if PrimFloat.is_nan a || PrimFloat.is_nan b then nan
  else if PrimFloat.ltb a b then b
  else if PrimFloat.ltb b a then a
  else if PrimFloat.get_sign a then b else a.

Section WithPrototype.

(** [participantStats] is a plain object, so a read of a key that it
    does not own finds the property of that name that [Object.prototype]
    provides ([constructor], [toString], ...), when there is one.
    Every such property is a function or an object, hence truthy, and
    [+ 1] turns it into a text: [inherited key] is that text without the
    final [1] (for a method the source text of the function, which the
    host chooses); it is [None] when [Object.prototype] has no property
    [key]. *)
Variable inherited : str → option str.

(** [(participantStats[key] || 0) + 1] *)
Definition bump (stats : gmap str stat) (key : str) : stat :=
  match stats !! key with
  | Some (Count n) => Count (n + 1)
  | Some (Text s) => if bool_decide (s = []) then Count 1 else Text (s ++ js "1")
  | None =>
      match inherited key with
      | Some text => Text (text ++ js "1")
      | None => Count 1
      end
  end.

(** The body of [for (const message of messageList)].  The assignment
    makes or updates a property of the object itself, except under the
    key [__proto__]: that one reaches the setter of [Object.prototype],
    which ignores a value that is a number or a string. *)
Definition tally_message (t : tally) (message : Message.t) : tally :=
  let key := Message.sender message in
  {| stats := if bool_decide (key = js "__proto__") then stats t
              else <[key := bump (stats t) key]> (stats t);
     startDate := if date_ltb (Message.timestamp message) (startDate t)
                  then Message.timestamp message else startDate t;
     endDate := if date_ltb (endDate t) (Message.timestamp message)
                then Message.timestamp message else endDate t |}.

(** [getChatStats(chatId)]; [fetch] is the settlement of
    [dbService.getAllMessagesForChat(chatId)], [now] the reading of the
    clock.  The arithmetic after the loop is that of doubles. *)
Definition getChatStats (now : Z) (fetch : outcome (list Message.t))
    : outcome ChatStats :=
  match fetch with
  | Rejected error => Rejected error
  | Resolved messageList =>
      let t := foldl tally_message
                 {| stats := ∅; startDate := Time now; endDate := Time 0 |}
                 messageList in
      let daysDiff :=
        Math_max 1 ((getTime (endDate t) - getTime (startDate t))
                    / (1000 * 60 * 60 * 24))%float in
      Resolved
        {| messageCount := length messageList;
           participantStats := stats t;
           dateRange := (startDate t, endDate t);
           averageMessagesPerDay :=
             (Parser.float_of_nat (length messageList) / daysDiff)%float |}
  end.

End WithPrototype.

End Store.

(** ** Data of the scenarios *)

Module Examples.
Import Js.

(** The transcript of the first scenario: two lines, the second sender
    marked. *)
Definition two_line_chat : str :=
  js "2/24/24, 21:56 - Alice: Hello there!" ++ [LF]
  ++ js "2/24/24, 21:59 - ~ Bob: Hi! How are you?".

(** A message followed by a line without a time stamp. *)
Definition first_line : str := js "2/24/24, 21:56 - Alice: Hello there!".
Definition loose_line : str := js "second line".
Definition wrapped_chat : str := first_line ++ [LF] ++ loose_line.

(** The text of the third scenario. *)
Definition junk : str := js "random unrelated text" ++ [LF] ++ js "more junk".

(** An attributed line whose colon is followed by a carriage return. *)
Definition cr_line : str := js "1/1/24, 10:00 - A:" ++ [CR].

Definition hello : Parser.ParsedMessage :=
  {| Parser.timestamp := Time 1708811760000;
     Parser.sender := js "Alice";
     Parser.content := js "Hello there!" |}.

(** A store with the chat "c" of three messages. *)
Definition three_messages : Database.DB :=
  Database.storeChat 0 0 (js "c") (js "chat") [] [hello; hello; hello] []
    Database.empty.

(** The same store with a chat "d" of one message and a bookmark on a
    message of each chat. *)
Definition two_chats : Database.DB :=
  Database.put_bookmark
    {| Database.Bookmark.id := js "bookmark-2";
       Database.Bookmark.messageId := js "d-0";
       Database.Bookmark.chatId := js "d";
       Database.Bookmark.createdAt := Time 2;
       Database.Bookmark.note := None |}
    (Database.put_bookmark
       {| Database.Bookmark.id := js "bookmark-1";
          Database.Bookmark.messageId := js "c-1";
          Database.Bookmark.chatId := js "c";
          Database.Bookmark.createdAt := Time 1;
          Database.Bookmark.note := None |}
       (Database.storeChat 0 0 (js "d") (js "other") [] [hello] []
          three_messages)).

(** The state of the service in which the chat "c" is selected and
    nothing of it is cached (what a failed load leaves in the first
    revision). *)
Definition selected_uncached : Store.State :=
  Store.update_appState (Store.with_currentChatId (Some (js "c"))) Store.initial.

(** The state in which a stale list is cached for the chat "c". *)
Definition stale_cache : Store.State :=
  Store.set_messageCache
    (λ c, <[js "c" := [Database.message_record (js "c") 0 hello]]> c)
    Store.initial.

End Examples.

(** ** The rest of the storage engine ([DatabaseService]) *)

Module Storage.
Import Js Database.

(** Decimal rendering of an integer ([Date.now()] in a template
    literal). *)
Definition dec_int (z : Z) : str := js (pretty z).

(** *** Indexes keyed by a date *)

(** The time value of a valid date.  An invalid date is not a valid
    key: a record whose key path holds one is left out of the index. *)
Definition time_of (d : Date) : Z :=
  match d with Time ms => ms | InvalidDate => 0 end.

Definition has_time (d : Date) : Prop := d ≠ InvalidDate.

#[global] Instance has_time_dec d : Decision (has_time d).
Proof. unfold has_time. destruct d; [left|right]; [discriminate|tauto]. Defined.

(** Order of an index on a date field: by time value, then by primary
    key. *)
Definition by_time_then_key {V} (time : V → Date) (p q : str * V) : Prop :=
  (time_of (time p.2) < time_of (time q.2))%Z
  ∨ (time_of (time p.2) = time_of (time q.2) ∧ str_leb p.1 q.1 = true).

#[global] Instance by_time_then_key_dec {V} (time : V → Date) p q :
  Decision (by_time_then_key time p q).
Proof. unfold by_time_then_key. apply _. Defined.

(** The entries of the index [by-lastMessage] of the chat store. *)
Definition chats_by_lastMessage (db : DB) : list (str * Chat.t) :=
  merge_sort (by_time_then_key Chat.lastMessageAt)
    (filter (λ p, has_time (Chat.lastMessageAt p.2)) (map_to_list (chats db))).

(** [getAllChats()]: the index read ascending, then reversed. *)
Definition getAllChats (db : DB) : list Chat.t :=
  reverse (chats_by_lastMessage db).*2.

(** The entries of the index [by-createdAt] of the bookmark store. *)
Definition bookmarks_by_createdAt (db : DB) : list (str * Bookmark.t) :=
  merge_sort (by_time_then_key Bookmark.createdAt)
    (filter (λ p, has_time (Bookmark.createdAt p.2)) (map_to_list (bookmarks db))).

(** [getAllBookmarks()] *)
Definition getAllBookmarks (db : DB) : list Bookmark.t :=
  reverse (bookmarks_by_createdAt db).*2.

(** *** Bookmarks *)

(** The id of a new bookmark: [now] is [Date.now()], [random] the nine
    characters (at most) cut from [Math.random().toString(36)]. *)
Definition bookmark_id (now : Z) (random : str) : str :=
  js "bookmark-" ++ dec_int now ++ js "-" ++ random.

(** [addBookmark(messageId, chatId, note)]: the store after the write and
    the id returned; [now_created] is the reading of the clock for
    [createdAt]. *)
Definition addBookmark (now now_created : Z) (random : str)
    (messageId chatId : str) (note : option str) (db : DB) : DB * str :=
  let bookmarkId := bookmark_id now random in
  let bookmark :=
    {| Bookmark.id := bookmarkId;
       Bookmark.messageId := messageId;
       Bookmark.chatId := chatId;
       Bookmark.createdAt := Time now_created;
       Bookmark.note := note |} in
  (put_bookmark bookmark db, bookmarkId).

(** [removeBookmark(bookmarkId)] *)
Definition removeBookmark (db : DB) (bookmarkId : str) : DB :=
  delete_bookmark db bookmarkId.

(** The entries of the index [by-messageId] under one key. *)
Definition bookmarks_by_message (db : DB) (messageId : str)
    : list (str * Bookmark.t) :=
  merge_sort by_primary_key
    (filter (λ p, Bookmark.messageId p.2 = messageId) (map_to_list (bookmarks db))).

(** [getBookmarkByMessageId(messageId)]: [getFromIndex] gives the first
    entry under the key, [None] is [undefined]. *)
Definition getBookmarkByMessageId (db : DB) (messageId : str)
    : option Bookmark.t :=
  head (bookmarks_by_message db messageId).*2.

(** [isMessageBookmarked(messageId)] *)
Definition isMessageBookmarked (db : DB) (messageId : str) : bool :=
  bool_decide (is_Some (getBookmarkByMessageId db messageId)).

(** The first revision of the two lookups walks a cursor over the whole
    bookmark store, in the order of the primary keys. *)
Definition all_bookmarks (db : DB) : list (str * Bookmark.t) :=
  merge_sort by_primary_key (map_to_list (bookmarks db)).

Fixpoint scan_bookmarks (cursor : list (str * Bookmark.t)) (messageId : str)
    : option Bookmark.t :=
  match cursor with
  | [] => None
  | entry :: next =>
      if bool_decide (Bookmark.messageId entry.2 = messageId)
      then Some entry.2
      else scan_bookmarks next messageId
  end.

Definition getBookmarkByMessageId_v1 (db : DB) (messageId : str)
    : option Bookmark.t :=
  scan_bookmarks (all_bookmarks db) messageId.

Definition isMessageBookmarked_v1 (db : DB) (messageId : str) : bool :=
  bool_decide (is_Some (scan_bookmarks (all_bookmarks db) messageId)).

(** *** Pagination in the first revision *)

(** [getMessages] of the first revision reads the key range
    [IDBKeyRange.bound([chatId, offset], [chatId, offset + limit - 1])] to
    its end.  With [limit = 0] the lower bound is above the upper one and
    [bound] throws its [DataError] (the text of the error is the
    browser's; its name stands for it here). *)
Definition getMessages_v1 (db : DB) (chatId : str) (limit offset : nat)
    : Store.outcome (list Message.t) :=
  if limit =? 0 then Store.Rejected (js "DataError")
  else
    Store.Resolved
      (merge_sort by_index_then_key
         (filter (λ p, Message.chatId p.2 = chatId
                       ∧ offset ≤ Message.messageIndex p.2
                       ∧ Message.messageIndex p.2 ≤ offset + limit - 1)
            (map_to_list (messages db)))).*2.

(** *** Search *)

(** [s.startsWith(p)] and [s.includes(needle)] on code units. *)
Fixpoint starts_with (s p : str) : bool :=
  match p, s with
  | [], _ => true
  | _ :: _, [] => false
  | x :: p', y :: s' => (x =? y)%N && starts_with s' p'
  end.

Fixpoint includes (s needle : str) : bool :=
  starts_with s needle
  || match s with
     | [] => false
     | _ :: s' => includes s' needle
     end.

(** The whole message store, in cursor order. *)
Definition all_messages (db : DB) : list (str * Message.t) :=
  merge_sort by_primary_key (map_to_list (messages db)).

(** [chatId ? index by-chat, only(chatId) : the store]: an absent
    argument and the empty string both count as no chat. *)
Definition search_scope (db : DB) (chatId : option str)
    : list (str * Message.t) :=
  match chatId with
  | Some c => if bool_decide (c = []) then all_messages db
              else messages_by_chat db c
  | None => all_messages db
  end.

Section WithLowerCase.

(** [String.prototype.toLowerCase], the case mapping of the host. *)
Variable toLowerCase : str → str.

(** The test of a record against the lower-cased query. *)
Definition matches_query (lowerQuery : str) (content sender : str) : bool :=
  includes (toLowerCase content) lowerQuery
  || includes (toLowerCase sender) lowerQuery.

(** [searchMessages(query, chatId)] *)
Definition searchMessages (db : DB) (query : str) (chatId : option str)
    : list Message.t :=
  let lowerQuery := toLowerCase query in
  List.filter (fun m => matches_query lowerQuery (Message.content m) (Message.sender m))
    (search_scope db chatId).*2.

End WithLowerCase.

(** *** Vocabulary of the properties *)

(** Every message record is filed under the key that [storeChat] gives
    to its chat and position. *)
Definition well_keyed (db : DB) : Prop :=
  ∀ k m, messages db !! k = Some m →
    k = message_key (Message.chatId m) (Message.messageIndex m)
    ∧ Message.id m = k.

(** [x] comes before [y] in [l]. *)
Definition precedes {A} (l : list A) (x y : A) : Prop :=
  ∃ i j, i < j ∧ l !! i = Some x ∧ l !! j = Some y.

End Storage.

(** ** Vocabulary of the properties of the parser *)

Module ParserTerms.
Import Js Parser.

(** The senders of the messages found so far, the open one last. *)
Definition senders (st : pstate) : list str := sender <$> flush st.

(** The invariant of the loop of [parse] that ties the participant set
    to the senders. *)
Definition participants_ok (st : pstate) : Prop :=
  NoDup (participantSet st)
  ∧ (∀ p, p ∈ participantSet st → p ∈ senders st)
  ∧ (∀ s, s ∈ senders st → s = js "System" ∨ s ∈ participantSet st).

(** Two states of the loop of [parse] that differ by the text [ins],
    which the second has after [base] in the content of one message: the
    message that is open, or the one at position [k] of the list.
    Everything else is the same. *)
Definition inserted (k : nat) (ts : Date) (sd base ins : str)
    (st' st : pstate) : Prop :=
  participantSet st = participantSet st'
  ∧ ((∃ tail,
        currentMessage st'
        = Some {| timestamp := ts; sender := sd; content := base ++ tail |}
        ∧ currentMessage st
          = Some {| timestamp := ts; sender := sd;
                    content := base ++ ins ++ tail |}
        ∧ messages st = messages st'
        ∧ length (messages st') = k)
     ∨ (∃ tail,
          messages st' !! k
          = Some {| timestamp := ts; sender := sd; content := base ++ tail |}
          ∧ messages st
            = <[k := {| timestamp := ts; sender := sd;
                        content := base ++ ins ++ tail |}]> (messages st')
          ∧ currentMessage st = currentMessage st')).

(** [n] written with [width] digits at least, zeros in front:
    [String(n).padStart(width, "0")]. *)
Definition numeral (width n : nat) : str :=
  replicate (width - length (dec n)) (ch "0") ++ dec n.

End ParserTerms.

(** ** The rest of the store service ([StoreService], first revision) *)

Module Service.
Import Js Store.

(** Field updates. *)
Definition set_chats (l : list Database.Chat.t) (s : State) : State :=
  {| messageCache := messageCache s; bookmarkCache := bookmarkCache s;
     loadingStates := loadingStates s; circuitBreaker := circuitBreaker s;
     chats := l; messages := messages s; bookmarks := bookmarks s;
     appState := appState s |}.

Definition set_bookmarks (l : list Database.Bookmark.t) (s : State) : State :=
  {| messageCache := messageCache s; bookmarkCache := bookmarkCache s;
     loadingStates := loadingStates s; circuitBreaker := circuitBreaker s;
     chats := chats s; messages := messages s; bookmarks := l;
     appState := appState s |}.

Definition set_bookmarkCache (f : gmap str bool → gmap str bool) (s : State)
    : State :=
  {| messageCache := messageCache s; bookmarkCache := f (bookmarkCache s);
     loadingStates := loadingStates s; circuitBreaker := circuitBreaker s;
     chats := chats s; messages := messages s; bookmarks := bookmarks s;
     appState := appState s |}.

Definition with_searchQuery (q : str) (a : AppState) : AppState :=
  {| currentChatId := currentChatId a; isLoading := isLoading a;
     searchQuery := q; showBookmarks := showBookmarks a;
     isMobile := isMobile a; isInitialized := isInitialized a |}.

(** [loadChats()]; [fetch] is the settlement of [dbService.getAllChats()].
    A failure is logged and the list kept. *)
Definition loadChats (fetch : outcome (list Database.Chat.t)) (s : State)
    : State :=
  let s1 := update_appState (with_isLoading true) s in
  let s2 := match fetch with
            | Resolved chatList => set_chats chatList s1
            | Rejected _ => s1
            end in
  update_appState (with_isLoading false) s2.

(** The bookmark cache after [clear()] and one [set(messageId, true)] for
    every bookmark of the list. *)
Definition cache_of (bookmarkList : list Database.Bookmark.t) : gmap str bool :=
  foldl (λ cache b, <[Database.Bookmark.messageId b := true]> cache) ∅
    bookmarkList.

(** [loadBookmarks()]; [fetch] is the settlement of
    [dbService.getAllBookmarks()]. *)
Definition loadBookmarks (fetch : outcome (list Database.Bookmark.t))
    (s : State) : State :=
  match fetch with
  | Resolved bookmarkList =>
      set_bookmarkCache (λ _, cache_of bookmarkList)
        (set_bookmarks bookmarkList s)
  | Rejected _ => s
  end.

(** [toggleBookmark(messageId, chatId, note)]; [existing], [written] and
    [reload] are the settlements of the lookup by message, of the removal
    or the addition, and of the listing inside [loadBookmarks]. *)
Definition toggleBookmark (messageId : str)
    (existing : outcome (option Database.Bookmark.t))
    (written : outcome unit)
    (reload : outcome (list Database.Bookmark.t))
    (s : State) : State * outcome unit :=
  match existing with
  | Rejected error => (s, Rejected error)
  | Resolved existingBookmark =>
      match written with
      | Rejected error => (s, Rejected error)
      | Resolved _ =>
          let s1 :=
            set_bookmarkCache
              (λ c, <[messageId := match existingBookmark with
                                   | Some _ => false
                                   | None => true
                                   end]> c) s in
          (loadBookmarks reload s1, Resolved ())
      end
  end.

(** [isMessageBookmarked(messageId)]; [lookup] is the settlement of the
    storage query, which is made on a cache miss only. *)
Definition isMessageBookmarked (messageId : str) (lookup : outcome bool)
    (s : State) : State * outcome bool :=
  match bookmarkCache s !! messageId with
  | Some cached => (s, Resolved cached)
  | None =>
      match lookup with
      | Resolved isBookmarked =>
          (set_bookmarkCache (λ c, <[messageId := isBookmarked]> c) s,
           Resolved isBookmarked)
      | Rejected error => (s, Rejected error)
      end
  end.

(** [deleteChat(chatId)]; [deleted] is the settlement of
    [dbService.deleteChat], the other two those of the listings inside
    [loadChats] and [loadBookmarks]. *)
Definition deleteChat (chatId : str) (deleted : outcome unit)
    (chatList : outcome (list Database.Chat.t))
    (bookmarkList : outcome (list Database.Bookmark.t))
    (s : State) : State * outcome unit :=
  let s1 := update_appState (with_isLoading true) s in
  match deleted with
  | Rejected error => (update_appState (with_isLoading false) s1, Rejected error)
  | Resolved _ =>
      let s2 := set_bookmarkCache (λ _, ∅)
                  (set_messageCache (λ c, delete chatId c) s1) in
      let s3 :=
        if bool_decide (currentChatId (appState s2) = Some chatId)
        then set_messages [] (update_appState (with_currentChatId None) s2)
        else s2 in
      let s4 := loadChats chatList s3 in
      let s5 := loadBookmarks bookmarkList s4 in
      (update_appState (with_isLoading false) s5, Resolved ())
  end.

(** The id of a new chat: [now] is [Date.now()], [random] the characters
    cut from [Math.random().toString(36)]. *)
Definition chat_id (now : Z) (random : str) : str :=
  js "chat-" ++ Storage.dec_int now ++ js "-" ++ random.

(** [addChat(name, participants, parsedMessages, rawContent)]; [stored],
    [chatList] and [fetch] are the settlements of [dbService.storeChat],
    of the listing inside [loadChats] and of the fetch inside
    [loadMessages]. *)
Definition addChat (now : Z) (random : str) (stored : outcome unit)
    (chatList : outcome (list Database.Chat.t))
    (fetch : outcome (list Database.Message.t))
    (s : State) : State * outcome str :=
  let s1 := update_appState (with_isLoading true) s in
  let chatId := chat_id now random in
  match stored with
  | Rejected error => (update_appState (with_isLoading false) s1, Rejected error)
  | Resolved _ =>
      let s2 := loadChats chatList s1 in
      let (s3, switched) := switchToChat chatId fetch s2 in
      (update_appState (with_isLoading false) s3,
       match switched with
       | Resolved _ => Resolved chatId
       | Rejected error => Rejected error
       end)
  end.

(** [exportChat(chatId)]; [fetch] is the settlement of
    [dbService.getChat(chatId)]. *)
Definition exportChat (fetch : outcome (option Database.Chat.t)) : outcome str :=
  match fetch with
  | Rejected error => Rejected error
  | Resolved None => Rejected (js "Chat not found")
  | Resolved (Some chat) => Resolved (Database.Chat.rawContent chat)
  end.

(** [searchMessages(query, chatId)]: a failed search is an empty
    result. *)
Definition searchMessages (fetch : outcome (list Database.Message.t))
    : list Database.Message.t :=
  match fetch with
  | Resolved results => results
  | Rejected _ => []
  end.

Definition setSearchQuery (query : str) (s : State) : State :=
  update_appState (with_searchQuery query) s.

Definition clearCurrentChat (s : State) : State :=
  set_messages [] (update_appState (with_currentChatId None) s).

(** [emergencyReset()] of the second revision; [innerWidth] is
    [window.innerWidth].  The lists of chats and of bookmarks are not
    reset. *)
Definition emergencyReset (innerWidth : Z) (s : State) : State :=
  {| messageCache := ∅; bookmarkCache := ∅; loadingStates := ∅;
     circuitBreaker := ∅;
     chats := chats s; messages := []; bookmarks := bookmarks s;
     appState := {| currentChatId := None; isLoading := false;
                    searchQuery := []; showBookmarks := false;
                    isMobile := (innerWidth <? 768)%Z;
                    isInitialized := true |} |}.

(** *** Derived stores *)

(** A chat id that is [null] or the empty string counts as none. *)
Definition selected (s : State) : option str :=
  match currentChatId (appState s) with
  | Some c => if bool_decide (c = []) then None else Some c
  | None => None
  end.

(** [currentChat] *)
Definition currentChat (s : State) : option Database.Chat.t :=
  match selected s with
  | Some c => List.find (λ chat, bool_decide (Database.Chat.id chat = c)) (chats s)
  | None => None
  end.

(** [currentChatBookmarks] *)
Definition currentChatBookmarks (s : State) : list Database.Bookmark.t :=
  match selected s with
  | Some c => filter (λ b, Database.Bookmark.chatId b = c) (bookmarks s)
  | None => []
  end.

Section WithLowerCase.

Variable toLowerCase : str → str.

(** [filteredMessages] *)
Definition filteredMessages (s : State) : list Database.Message.t :=
  if bool_decide (searchQuery (appState s) = []) then messages s
  else
    let query := toLowerCase (searchQuery (appState s)) in
    List.filter
      (fun message =>
         Storage.includes (toLowerCase (Database.Message.content message)) query
         || Storage.includes (toLowerCase (Database.Message.sender message)) query)
      (messages s).

End WithLowerCase.

End Service.

(** ** The service on top of the storage engine *)

Module Session.
Import Js.

(** The storage and the state of the service. *)
Record World := {
  db : Database.DB;
  service : Store.State
}.

(** [storeService.addChat] when every storage call succeeds. *)
Definition addChat (now now_created now_last : Z) (random : str)
    (name : str) (participants : list str)
    (parsedMessages : list Parser.ParsedMessage) (rawContent : str)
    (w : World) : World * Store.outcome str :=
  let chatId := Service.chat_id now random in
  let db' := Database.storeChat now_created now_last chatId name participants
               parsedMessages rawContent (db w) in
  let r := Service.addChat now random (Store.Resolved ())
             (Store.Resolved (Storage.getAllChats db'))
             (Store.Resolved (Database.getAllMessagesForChat db' chatId))
             (service w) in
  ({| db := db'; service := r.1 |}, r.2).

(** The storage after the write of [toggleBookmark]. *)
Definition toggled (now now_created : Z) (random : str)
    (messageId chatId : str) (note : option str) (d : Database.DB)
    : Database.DB :=
  match Storage.getBookmarkByMessageId d messageId with
  | Some existingBookmark =>
      Storage.removeBookmark d (Database.Bookmark.id existingBookmark)
  | None =>
      (Storage.addBookmark now now_created random messageId chatId note d).1
  end.

(** [storeService.toggleBookmark] when every storage call succeeds. *)
Definition toggleBookmark (now now_created : Z) (random : str)
    (messageId chatId : str) (note : option str) (w : World) : World :=
  let db' := toggled now now_created random messageId chatId note (db w) in
  {| db := db';
     service :=
       (Service.toggleBookmark messageId
          (Store.Resolved (Storage.getBookmarkByMessageId (db w) messageId))
          (Store.Resolved ())
          (Store.Resolved (Storage.getAllBookmarks db'))
          (service w)).1 |}.

(** [storeService.isMessageBookmarked] when the storage call succeeds. *)
Definition isMessageBookmarked (messageId : str) (w : World)
    : World * Store.outcome bool :=
  let r := Service.isMessageBookmarked messageId
             (Store.Resolved (Storage.isMessageBookmarked (db w) messageId))
             (service w) in
  ({| db := db w; service := r.1 |}, r.2).

(** [storeService.deleteChat] when every storage call succeeds. *)
Definition deleteChat (chatId : str) (w : World) : World :=
  let db' := Database.deleteChat (db w) chatId in
  {| db := db';
     service :=
       (Service.deleteChat chatId (Store.Resolved ())
          (Store.Resolved (Storage.getAllChats db'))
          (Store.Resolved (Storage.getAllBookmarks db'))
          (service w)).1 |}.

(** [storeService.exportChat] when the storage call succeeds. *)
Definition exportChat (chatId : str) (w : World) : Store.outcome str :=
  Service.exportChat (Store.Resolved (Database.getChat (db w) chatId)).

(** *** Vocabulary of the properties *)

(** Every bookmark is filed under its own id, and no message has two
    bookmarks. *)
Definition single_bookmarks (d : Database.DB) : Prop :=
  (∀ k b, Database.bookmarks d !! k = Some b → Database.Bookmark.id b = k)
  ∧ (∀ k1 b1 k2 b2,
       Database.bookmarks d !! k1 = Some b1 →
       Database.bookmarks d !! k2 = Some b2 →
       Database.Bookmark.messageId b1 = Database.Bookmark.messageId b2 →
       k1 = k2).

(** Every chat is filed under its own id. *)
Definition chats_keyed (d : Database.DB) : Prop :=
  ∀ k c, Database.chats d !! k = Some c → Database.Chat.id c = k.

(** What the bookmark cache holds is what the storage would answer. *)
Definition coherent (w : World) : Prop :=
  ∀ m v, Store.bookmarkCache (service w) !! m = Some v →
    v = Storage.isMessageBookmarked (db w) m.

End Session.

(** ** Further data of the scenarios *)

Module MoreExamples.
Import Js Examples.

(** A chat long enough for two-digit message indexes. *)
Definition eleven_messages : list Parser.ParsedMessage := replicate 11 hello.

(** The case mapping of the host on text that is ASCII. *)
Definition ascii_lowercase (s : str) : str :=
  (λ c, if (65 <=? c)%N && (c <=? 90)%N then (c + 32)%N else c) <$> s.

(** The chat "c" stored, listed and selected. *)
Definition listed_c : Session.World :=
  {| Session.db := three_messages;
     Session.service :=
       Service.loadChats (Store.Resolved (Storage.getAllChats three_messages))
         selected_uncached |}.

(** The service after three loads of the chat "c" in a row that failed,
    at 1000, 2000 and 3000 milliseconds. *)
Definition failed_load (at_ms : Z) (s : Store.State) : Store.State :=
  (Store.loadMessages_cb at_ms at_ms (js "c") false
     (Store.Rejected (js "timeout")) s).1.

Definition tripped : Store.State :=
  failed_load 3000 (failed_load 2000 (failed_load 1000 Store.initial)).

(** Nothing stored, nothing loaded. *)
Definition first_run : Session.World :=
  {| Session.db := Database.empty; Session.service := Store.initial |}.

(** A message followed by a line without a time stamp that has blanks
    around it. *)
Definition padded_line : str := js "  second line  ".
Definition padded_chat : str := first_line ++ [LF] ++ padded_line.

(** A message, a line of blanks, and a line without a time stamp. *)
Definition blank_line : str := js "   ".
Definition gapped_chat : str :=
  first_line ++ [LF] ++ blank_line ++ [LF] ++ loose_line.

(** One line in four that matches a pattern. *)
Definition quarter_chat : str :=
  first_line ++ [LF] ++ js "a" ++ [LF] ++ js "b" ++ [LF] ++ js "c".

(** The properties that a plain object inherits in V8, with the text
    each turns into under [+ 1]. *)
Definition native (name : string) : str :=
  js "function " ++ js name ++ js "() { [native code] }".

Definition v8_inherited (key : str) : option str :=
  if bool_decide (key = js "constructor") then Some (native "Object")
  else if bool_decide (key = js "__proto__") then Some (js "[object Object]")
  else native <$>
       List.find (λ name, bool_decide (js name = key))
         [ "hasOwnProperty"; "isPrototypeOf"; "propertyIsEnumerable";
           "toLocaleString"; "toString"; "valueOf";
           "__defineGetter__"; "__defineSetter__";
           "__lookupGetter__"; "__lookupSetter__" ]%string.

(** The service with the messages of the chat "c" on display. *)
Definition showing_c : Store.State :=
  Store.set_messages (Database.getAllMessagesForChat three_messages (js "c"))
    selected_uncached.

End MoreExamples.

(* ===================================================================== *)
(** * Properties *)
(* ===================================================================== *)

(** ** The regular-expression matcher *)

Section RegexFacts.
Import Js Regex.

(** A pattern is said to match a line when [exec_start] finds a match. *)
Lemma exec_start_is_Some r s : is_Some (exec_start r s) ↔ run r (s, []) ≠ [].
Proof.
  unfold exec_start. destruct (run r (s, [])); split; intros H;
    try done; try (by destruct H); eauto.
Qed.

Lemma flat_map_nonempty {A B} (f : A → list B) (l : list A) :
  flat_map f l ≠ [] ↔ ∃ x, x ∈ l ∧ f x ≠ [].
Proof.
  induction l as [|a l IH]; simpl.
  - split; [done | intros (x & Hx & _); by apply elem_of_nil in Hx].
  - split.
    + intros H. destruct (f a) eqn:E.
      * simpl in H. apply IH in H as (x & Hx & Hfx).
        exists x. split; [by right | done].
      * exists a. split; [by left | by rewrite E].
    + intros (x & Hx & Hfx) Happ. apply app_eq_nil in Happ as [Ha Hl].
      apply elem_of_cons in Hx as [->|Hx]; [done|].
      apply (proj2 IH); [|done]. eauto.
Qed.

Lemma flat_map_flat_map {A B C} (f : A → list B) (g : B → list C) l :
  flat_map g (flat_map f l) = flat_map (λ x, flat_map g (f x)) l.
Proof.
  induction l as [|a l IH]; simpl; [done|].
  by rewrite flat_map_app, IH.
Qed.

(** A sequence of patterns runs its front part, then its back part. *)
Lemma run_rseq_app front back st :
  run (rseq (front ++ back)) st
  = flat_map (run (rseq back)) (run (rseq front) st).
Proof.
  revert st. induction front as [|r front IH]; intros st; simpl.
  - by rewrite app_nil_r.
  - rewrite flat_map_flat_map. apply flat_map_ext. intros st'. apply IH.
Qed.

(** What a quantifier leaves is a suffix of what it was given. *)
Lemma rep_suffix k greedy lo hi s s' :
  s' ∈ rep k greedy lo hi s → s' `suffix_of` s.
Proof.
  revert lo hi. induction s as [|c s IH]; intros lo hi; simpl.
  - destruct greedy, lo; simpl; intros H;
      repeat (apply elem_of_cons in H as [->|H]; [done|]);
      by apply elem_of_nil in H.
  - intros H.
    assert (s' ∈ (match lo with 0 => [c :: s] | S _ => [] end)
            ∨ s' ∈ (if cmatch k c && hi_allows hi
                    then rep k greedy (pred lo) (hi_pred hi) s else [])) as [H1|H1].
    { destruct greedy; apply elem_of_app in H; tauto. }
    + destruct lo; [|by apply elem_of_nil in H1].
      apply list_elem_of_singleton in H1 as ->. done.
    + destruct (cmatch k c && hi_allows hi); [|by apply elem_of_nil in H1].
      apply suffix_cons_r. eauto.
Qed.

(** What a pattern leaves is a suffix of what it was given. *)
Lemma run_suffix r st st' : st' ∈ run r st → st'.1 `suffix_of` st.1.
Proof.
  revert st st'. induction r as [|k|k lo hi g|r1 IH1 r2 IH2|r1 IH1 r2 IH2|r IH|];
    intros st st'; simpl.
  - intros ->%list_elem_of_singleton. done.
  - destruct st as [[|c s] caps]; simpl; [by intros ?%elem_of_nil|].
    destruct (cmatch k c); [|by intros ?%elem_of_nil].
    intros ->%list_elem_of_singleton. simpl. by apply suffix_cons_r.
  - intros (s' & -> & Hs')%list_elem_of_fmap. simpl. eauto using rep_suffix.
  - intros H%list_elem_of_In%in_flat_map. destruct H as (st1 & H1 & H2).
    apply list_elem_of_In in H1, H2.
    etrans; [by apply IH2 | by apply IH1].
  - intros [H|H]%elem_of_app; eauto.
  - intros (st1 & -> & H1)%list_elem_of_fmap. simpl. eauto.
  - destruct st as [[|c s] caps]; simpl; [|by intros ?%elem_of_nil].
    intros ->%list_elem_of_singleton. done.
Qed.

(** A greedy [.*] can read a whole input that has no line terminator. *)
Lemma rep_dot_all s :
  Forall (λ c, is_line_terminator c = false) s →
  [] ∈ rep Dot true 0 None s.
Proof.
  induction 1 as [|c s Hc Hs IH]; simpl.
  - by left.
  - rewrite Hc. simpl. apply elem_of_app. by left.
Qed.

End RegexFacts.

(** ** The transcript parser *)

Section ParserFacts.
Import Js Regex Parser Examples.

Variable local_time : Z -> Z -> Z -> Z -> Z -> Date.

(** C1.  Parsing the two-line transcript gives exactly two messages, in
    order: Alice's "Hello there!" and Bob's "Hi! How are you?", the marker
    before Bob's name removed; the participants are Alice and Bob and the
    chat is named "Alice & Bob" (the rule for two participants). *)
Theorem parse_two_line_chat (now_start now_end : Z) :
  parse local_time now_start now_end two_line_chat
  = ( [ {| timestamp := local_time 2024 1 24 21 56;
           sender := js "Alice"; content := js "Hello there!" |};
        {| timestamp := local_time 2024 1 24 21 59;
           sender := js "Bob"; content := js "Hi! How are you?" |} ],
      {| name := js "Alice & Bob";
         participants := [js "Alice"; js "Bob"];
         messageCount := 2;
         dateRange := {| range_start := local_time 2024 1 24 21 56;
                         range_end := local_time 2024 1 24 21 59 |} |} ).
Proof. vm_compute. reflexivity. Qed.

(** The name of a chat with two participants joins them with an
    ampersand, whatever the messages are. *)
Lemma generateChatName_two a b ms :
  generateChatName [a; b] ms = a ++ js " & " ++ b.
Proof. reflexivity. Qed.

(** What the loop does with a line that matches neither pattern. *)
Lemma parse_line_other st line :
  exec_start MESSAGE_REGEX line = None →
  exec_start SYSTEM_MESSAGE_REGEX line = None →
  parse_line local_time st line = on_other st line.
Proof. intros H1 H2. unfold parse_line. by rewrite H1, H2. Qed.

Lemma nonblank_lines_nonblank text line :
  line ∈ nonblank_lines text → nonblank line.
Proof. unfold nonblank_lines. by intros [? _]%list_elem_of_filter. Qed.

(** The only part of the text that [parse] uses is the list of its
    non-blank lines. *)
Lemma parse_same_lines now_start now_end text text' :
  nonblank_lines text = nonblank_lines text' →
  parse local_time now_start now_end text
  = parse local_time now_start now_end text'.
Proof. unfold parse. by intros ->. Qed.

Lemma insert_at_end {A} (l : list A) (x y : A) :
  (l ++ [y]) !! length l = Some y
  ∧ l ++ [x] = <[length l := x]> (l ++ [y]).
Proof.
  split.
  - rewrite lookup_app_r by lia. by rewrite Nat.sub_diag.
  - rewrite insert_app_r_alt by lia. by rewrite Nat.sub_diag.
Qed.

Lemma insert_before_end {A} (l : list A) (k : nat) (y x z : A) :
  l !! k = Some y → <[k := x]> l ++ [z] = <[k := x]> (l ++ [z]).
Proof.
  intros H. pose proof (lookup_lt_Some _ _ _ H) as Hk. by rewrite insert_app_l.
Qed.

(** The list that is flushed from two states that differ by an inserted
    text differs by that text in one message. *)
Lemma inserted_flush k ts sd base ins st' st :
  ParserTerms.inserted k ts sd base ins st' st →
  ∃ tail,
    flush st' !! k
    = Some {| timestamp := ts; sender := sd; content := base ++ tail |}
    ∧ flush st
      = <[k := {| timestamp := ts; sender := sd;
                  content := base ++ ins ++ tail |}]> (flush st').
Proof.
  intros [_ [(tail & H' & H & Hm & <-)|(tail & Hk & Hm & Hc)]];
    exists tail; unfold flush.
  - rewrite H', H, Hm. apply insert_at_end.
  - rewrite Hc, Hm. destruct (currentMessage st'); [|done].
    split; [by apply lookup_app_l_Some|by eapply insert_before_end].
Qed.

(** One more line keeps the two states in that relation. *)
Lemma inserted_step k ts sd base ins st' st line :
  ParserTerms.inserted k ts sd base ins st' st →
  ParserTerms.inserted k ts sd base ins
    (parse_line local_time st' line) (parse_line local_time st line).
Proof.
  intros Hrel.
  destruct (inserted_flush _ _ _ _ _ _ _ Hrel) as (tail0 & Hf' & Hf).
  destruct Hrel as [Hp Hrel]. unfold parse_line.
  destruct (exec_start MESSAGE_REGEX line) as [g|].
  { split; [simpl; by rewrite Hp|]. right. exists tail0. simpl. done. }
  destruct (exec_start SYSTEM_MESSAGE_REGEX line) as [g|].
  { split; [done|]. right. exists tail0. simpl. split; [|split; [|done]].
    - by apply lookup_app_l_Some.
    - rewrite Hf. by eapply insert_before_end. }
  unfold on_other.
  destruct Hrel as [(tail & H' & H & Hm & Hk)|(tail & Hk & Hm & Hc)].
  - rewrite H', H. case_bool_decide.
    + split; [done|]. left. exists (tail ++ [LF] ++ trim line). simpl.
      by rewrite <- !app_assoc.
    + split; [done|]. left. exists tail. done.
  - rewrite Hc. destruct (currentMessage st') as [m|] eqn:E.
    + case_bool_decide.
      * split; [done|]. right. exists tail. done.
      * split; [done|]. right. exists tail. by rewrite E.
    + split; [done|]. right. exists tail. by rewrite E.
Qed.

Lemma inserted_fold k ts sd base ins lines st' st :
  ParserTerms.inserted k ts sd base ins st' st →
  ParserTerms.inserted k ts sd base ins
    (fold_left (parse_line local_time) lines st')
    (fold_left (parse_line local_time) lines st).
Proof.
  revert st' st. induction lines as [|l lines IH]; intros st' st H; [done|].
  simpl. by apply IH, inserted_step.
Qed.

(** The ends of a message list that has one message replaced by one of
    the same time stamp. *)
Lemma same_range (d : Date) (k : nat) (x y : ParsedMessage) l :
  l !! k = Some y → timestamp x = timestamp y →
  match <[k := x]> l with m :: _ => timestamp m | [] => d end
  = match l with m :: _ => timestamp m | [] => d end
  ∧ match last (<[k := x]> l) with Some m => timestamp m | None => d end
    = match last l with Some m => timestamp m | None => d end.
Proof.
  intros Hk Ht. split.
  - destruct l as [|m l]; [done|]. destruct k; [|done].
    simpl in Hk. injection Hk as ->. done.
  - assert (H : timestamp <$> last (<[k := x]> l) = timestamp <$> last l).
    { rewrite <- !fmap_last, list_fmap_insert, Ht. f_equal.
      apply list_insert_id. by rewrite list_lookup_fmap, Hk. }
    destruct (last (<[k := x]> l)), (last l); simpl in H; congruence.
Qed.

(** C5.  What [parse] does with a line that matches neither pattern, in
    terms of its result: [text] has the line between the lines [before]
    and [rest], [text'] is a text with the same non-blank lines except
    that one (the empty text, when there is no other).  When the line is
    blank, or no message is open when it is read, the line is dropped:
    both texts parse to the same result.  When a message is open and the
    line is not blank, the two results differ in that one message, which
    with the line has a line feed and the trimmed line after the content
    it had when the line was read, followed by what the later lines add
    to it in both texts; the participants, the count and the date range
    are the same.  ([parse] itself is a total function of the text.) *)
Theorem parse_unrecognized_line (now_start now_end : Z) (text text' : str)
    (before rest : list str) (line : str) :
  split LF text = before ++ line :: rest →
  nonblank_lines text' = filter nonblank (before ++ rest) →
  exec_start MESSAGE_REGEX line = None →
  exec_start SYSTEM_MESSAGE_REGEX line = None →
  let st := after_lines local_time (filter nonblank before) in
  let result := parse local_time now_start now_end text in
  let result' := parse local_time now_start now_end text' in
  match currentMessage st with
  | Some m =>
      if bool_decide (nonblank line)
      then ∃ tail,
             result'.1 !! length (messages st)
             = Some {| timestamp := timestamp m; sender := sender m;
                       content := content m ++ tail |}
             ∧ result.1
               = <[length (messages st) :=
                     {| timestamp := timestamp m; sender := sender m;
                        content := content m ++ [LF] ++ trim line ++ tail |}]>
                   result'.1
             ∧ participants result.2 = participants result'.2
             ∧ messageCount result.2 = messageCount result'.2
             ∧ dateRange result.2 = dateRange result'.2
      else result = result'
  | None => result = result'
  end.
Proof.
  intros Htext Htext' HM HS st result result'.
  assert (Hlines : nonblank_lines text
                   = filter nonblank before
                     ++ filter nonblank [line] ++ filter nonblank rest).
  { unfold nonblank_lines. rewrite Htext.
    by rewrite filter_app, (filter_app _ [line] rest). }
  assert (Hlines' : nonblank_lines text'
                    = filter nonblank before ++ filter nonblank rest).
  { by rewrite Htext', filter_app. }
  assert (Hblank : ¬ nonblank line → result = result').
  { intros Hb. apply parse_same_lines. rewrite Hlines, Hlines'.
    by rewrite filter_cons_False, filter_nil by done. }
  assert (Hloop : nonblank line →
            after_lines local_time (nonblank_lines text)
            = fold_left (parse_line local_time) (filter nonblank rest)
                (on_other st line)).
  { intros Hn. rewrite Hlines.
    rewrite filter_cons_True, filter_nil by done.
    unfold after_lines. rewrite !fold_left_app. simpl.
    fold (after_lines local_time (filter nonblank before)). fold st.
    by rewrite parse_line_other. }
  assert (Hloop' : after_lines local_time (nonblank_lines text')
                   = fold_left (parse_line local_time) (filter nonblank rest) st).
  { rewrite Hlines'. unfold after_lines. by rewrite fold_left_app. }
  destruct (currentMessage st) as [m|] eqn:Hcur.
  - case_bool_decide as Hn; [|by apply Hblank].
    assert (Hrel : ParserTerms.inserted (length (messages st)) (timestamp m)
                     (sender m) (content m) ([LF] ++ trim line)
                     st (on_other st line)).
    { unfold on_other. rewrite Hcur, bool_decide_eq_true_2 by done.
      split; [done|]. left. exists []. simpl.
      rewrite !app_nil_r. split; [by destruct m|]. done. }
    apply (inserted_fold _ _ _ _ _ (filter nonblank rest)) in Hrel.
    rewrite <- Hloop, <- Hloop' in Hrel by done.
    destruct (inserted_flush _ _ _ _ _ _ _ Hrel) as (tail & Hk & Hins).
    destruct Hrel as [Hp _].
    exists tail. unfold result, result', parse. cbn [fst snd].
    fold (after_lines local_time (nonblank_lines text)).
    fold (after_lines local_time (nonblank_lines text')).
    rewrite <- !app_assoc in Hins.
    split; [exact Hk|]. split; [exact Hins|].
    cbn [participants messageCount dateRange].
    split; [by rewrite Hp|]. split; [by rewrite Hins, length_insert|].
    rewrite Hins.
    destruct (same_range (Time now_start) _ _ _ _ Hk
                (eq_refl : timestamp
                   {| timestamp := timestamp m; sender := sender m;
                      content := content m ++ [LF] ++ trim line ++ tail |}
                 = timestamp
                     {| timestamp := timestamp m; sender := sender m;
                        content := content m ++ tail |})) as [-> _].
    destruct (same_range (Time now_end) _ _ _ _ Hk
                (eq_refl : timestamp
                   {| timestamp := timestamp m; sender := sender m;
                      content := content m ++ [LF] ++ trim line ++ tail |}
                 = timestamp
                     {| timestamp := timestamp m; sender := sender m;
                        content := content m ++ tail |})) as [_ ->].
    done.
  - destruct (decide (nonblank line)) as [Hn|Hn]; [|by apply Hblank].
    unfold result, result', parse.
    fold (after_lines local_time (nonblank_lines text)).
    fold (after_lines local_time (nonblank_lines text')).
    rewrite Hloop, Hloop' by done.
    unfold on_other. by rewrite Hcur.
Qed.

End ParserFacts.

Section ValidateFacts.
Import Js Regex Parser.

Lemma ratio_table : ratio_table_ok = true.
Proof. vm_compute. reflexivity. Qed.

Lemma ratio_below_threshold v t :
  1 ≤ t ≤ 50 → v ≤ t →
  PrimFloat.ltb (float_of_nat v / float_of_nat t)%float threshold
  = (10 * v <? 3 * t).
Proof.
  intros Ht Hv. pose proof ratio_table as H. unfold ratio_table_ok in H.
  rewrite forallb_forall in H. specialize (H t).
  rewrite forallb_forall in H.
  apply Bool.eqb_prop, H; apply in_seq; lia.
Qed.

Lemma filter_length_bound {A} (f : A → bool) l :
  length (List.filter f l) ≤ length l.
Proof. induction l as [|a l IH]; simpl; [lia|]. destruct (f a); simpl; lia. Qed.

Lemma filter_all {A} (P : A → Prop) `{∀ x, Decision (P x)} l :
  Forall P l → filter P l = l.
Proof.
  induction 1 as [|a l Ha Hl IH]; [done|].
  rewrite filter_cons_True by done. by rewrite IH.
Qed.

(** The sample is the first 50 non-blank lines (all of them when there
    are fewer). *)
Lemma sample_nonblank_lines text :
  sample (nonblank_lines text) = firstn 50 (nonblank_lines text).
Proof.
  unfold sample.
  assert (Forall nonblank (nonblank_lines text)) as Hall.
  { apply Forall_forall. intros l. apply nonblank_lines_nonblank. }
  rewrite filter_all by (by apply Forall_take).
  destruct (Nat.le_ge_cases 50 (length (nonblank_lines text))).
  - by rewrite Nat.min_l.
  - rewrite Nat.min_r by done. by rewrite !firstn_all2 by lia.
Qed.

Lemma totalNonEmptyLines_eq text :
  totalNonEmptyLines (nonblank_lines text)
  = Nat.min 50 (length (nonblank_lines text)).
Proof.
  unfold totalNonEmptyLines. rewrite sample_nonblank_lines.
  rewrite length_firstn. lia.
Qed.

Lemma validMessageCount_le lines :
  validMessageCount lines ≤ totalNonEmptyLines lines.
Proof. apply filter_length_bound. Qed.

Lemma trim_nil_iff content :
  (content = [] ∨ length (trim content) = 0) ↔ trim content = [].
Proof.
  split.
  - intros [->|H]; [done|]. by destruct (trim content).
  - intros ->. by right.
Qed.

(** The percentage in the error text of [validate] against the exact
    fraction rounded half up, for every pair of counts of a sample of at
    most 50 lines whose fraction is below three tenths. *)
Lemma percent_table :
  forallb (fun t =>
    forallb (fun v =>
      negb (10 * v <? 3 * t)
      || (round_percent (float_of_nat v / float_of_nat t * 100)%float
          =? (200 * v + t) / (2 * t)))
      (seq 0 (S t)))
    (seq 1 50)
  = true.
Proof. vm_compute. reflexivity. Qed.

Lemma percent_rounded v t :
  1 ≤ t ≤ 50 → v ≤ t → 10 * v < 3 * t →
  round_percent (float_of_nat v / float_of_nat t * 100)%float
  = (200 * v + t) / (2 * t).
Proof.
  intros Ht Hv Hlow.
  assert (Hin1 : In t (seq 1 50)) by (apply in_seq; lia).
  assert (Hin2 : In v (seq 0 (S t))) by (apply in_seq; lia).
  pose proof (proj1 (forallb_forall _ _) percent_table t Hin1) as H1.
  pose proof (proj1 (forallb_forall _ _) H1 v Hin2) as H2.
  apply orb_true_iff in H2 as [H2|H2].
  - rewrite (proj2 (Nat.ltb_lt _ _) Hlow) in H2. discriminate H2.
  - exact (proj1 (Nat.eqb_eq _ _) H2).
Qed.

(** White space and the two trimming functions. *)
Lemma trimStart_nil s :
  trimStart s = [] ↔ Forall (λ c, is_space c = true) s.
Proof.
  induction s as [|c s IH]; simpl; [done|].
  destruct (is_space c) eqn:E.
  - rewrite IH. split; [by constructor|]. by intros [_ ?]%Forall_cons.
  - split; [done|]. intros [? _]%Forall_cons. congruence.
Qed.

Lemma trimStart_head s c r : trimStart s = c :: r → is_space c = false.
Proof.
  induction s as [|c' s IH]; simpl; [done|].
  destruct (is_space c') eqn:E; [done|]. by intros [= <- _].
Qed.

Lemma trim_nil s : trim s = [] ↔ Forall (λ c, is_space c = true) s.
Proof.
  unfold trim. rewrite <- trimStart_nil. split.
  - intros H. apply (f_equal (@rev _)) in H. rewrite rev_involutive in H.
    simpl in H. apply trimStart_nil in H.
    apply Forall_rev in H. rewrite rev_involutive in H.
    destruct (trimStart s) as [|c r] eqn:E; [done|].
    apply trimStart_head in E. apply Forall_cons in H as [H _]. congruence.
  - by intros ->.
Qed.

(** A character that is not white space is in one of the pieces that
    [split] cuts at a white-space separator. *)
Lemma split_keeps d s :
  is_space d = true →
  Exists (λ c, is_space c = false) s →
  Exists (Exists (λ c, is_space c = false)) (split d s).
Proof.
  intros Hd. induction s as [|c s IH]; intros H; [by apply Exists_nil in H|].
  simpl. destruct (N.eqb_spec c d) as [->|Hne].
  - apply Exists_cons in H as [H|H]; [congruence|].
    apply Exists_cons. right. by apply IH.
  - destruct (split d s) as [|h t] eqn:E.
    + apply Exists_cons in H as [H|H].
      * apply Exists_cons. left. apply Exists_cons. by left.
      * by apply IH, Exists_nil in H.
    + apply Exists_cons in H as [H|H].
      * apply Exists_cons. left. apply Exists_cons. by left.
      * apply IH, Exists_cons in H as [H|H].
        -- apply Exists_cons. left. apply Exists_cons. by right.
        -- apply Exists_cons. by right.
Qed.

(** A text that is not blank has a line that is not blank: the branch
    [No valid lines found] of [validate] is never taken. *)
Lemma nonblank_lines_nonempty content :
  trim content ≠ [] → nonblank_lines content ≠ [].
Proof.
  intros Hne Hnil.
  assert (Hex : Exists (λ c, is_space c = false) content).
  { rewrite trim_nil in Hne. apply not_Forall_Exists in Hne; [|apply _].
    eapply Exists_impl; [exact Hne|]. intros c Hc. simpl in Hc.
    by destruct (is_space c). }
  apply (split_keeps LF) in Hex; [|done].
  apply Exists_exists in Hex as (piece & Hin & Hpiece).
  assert (Hnb : nonblank piece).
  { unfold nonblank. rewrite trim_nil. intros Hall.
    apply Exists_exists in Hpiece as (c & Hc & Hs).
    rewrite Forall_forall in Hall. specialize (Hall c Hc). congruence. }
  assert (Hmem : piece ∈ nonblank_lines content).
  { unfold nonblank_lines. by apply list_elem_of_filter. }
  rewrite Hnil in Hmem. by apply elem_of_nil in Hmem.
Qed.

Lemma filter_length_bool {A} (f : A → bool) (P : A → Prop)
    `{∀ x, Decision (P x)} (l : list A) :
  (∀ x, f x = true ↔ P x) →
  length (List.filter f l) = length (filter P l).
Proof.
  intros Hf. induction l as [|x l IH]; [done|]. simpl.
  destruct (decide (P x)) as [Hx|Hx].
  - rewrite filter_cons_True by done. rewrite (proj2 (Hf x) Hx). simpl. lia.
  - rewrite filter_cons_False by done.
    destruct (f x) eqn:E; [by apply Hf in E|]. done.
Qed.

Lemma matches_grammar_iff line :
  matches_grammar line = true
  ↔ is_Some (exec_start MESSAGE_REGEX line)
    ∨ is_Some (exec_start SYSTEM_MESSAGE_REGEX line).
Proof.
  unfold matches_grammar, test_start.
  by rewrite orb_true_iff, !bool_decide_eq_true.
Qed.

(** C6.  [validate] rejects a text that is empty after trimming with the
    one entry [Content is empty].  For any other text let the sample be
    the first 50 non-blank lines (all of them when there are fewer), [t]
    its length and [v] the number of its lines that [MESSAGE_REGEX] or
    [SYSTEM_MESSAGE_REGEX] matches.  The sample is not empty; the verdict
    is positive exactly when [v / t] is at least three tenths and [v] is
    at least one; and the error list is made of two independent parts:
    when the fraction is below three tenths, the two entries of the
    ratio, with the percentage [100 v / t] rounded half up; then, when
    no line matches, the two entries of the format. *)
Theorem validate_verdict (content : str) :
  let sampled := take 50 (nonblank_lines content) in
  let t := length sampled in
  let v := length (filter (λ line,
                             is_Some (exec_start MESSAGE_REGEX line)
                             ∨ is_Some (exec_start SYSTEM_MESSAGE_REGEX line))
                     sampled) in
  (trim content = [] →
     validate content
     = {| isValid := false; errors := [js "Content is empty"] |})
  ∧ (trim content ≠ [] →
       1 ≤ t ∧ v ≤ t
       ∧ (isValid (validate content) = true ↔ 3 * t ≤ 10 * v ∧ 1 ≤ v)
       ∧ errors (validate content)
         = (if 10 * v <? 3 * t
            then [ js "Content does not appear to be a WhatsApp chat export";
                   js "Only " ++ dec ((200 * v + t) / (2 * t))
                   ++ js "% of lines match expected format" ]
            else [])
           ++ (if v =? 0
               then [ js "No valid message format found";
                      js "Expected format: " ++ [34%N]
                      ++ js "MM/DD/YY, HH:MM - Sender: Message" ++ [34%N] ]
               else [])).
Proof.
  intros sampled t v. split.
  - intros Hempty. unfold validate.
    by rewrite bool_decide_eq_true_2 by (by apply trim_nil_iff).
  - intros Hne. set (lines := nonblank_lines content).
    assert (Hlines : lines ≠ []) by (by apply nonblank_lines_nonempty).
    assert (Hsample : sample lines = sampled) by apply sample_nonblank_lines.
    assert (Ht : totalNonEmptyLines lines = t).
    { unfold totalNonEmptyLines. by rewrite Hsample. }
    assert (Hv : validMessageCount lines = v).
    { unfold validMessageCount. rewrite Hsample.
      apply filter_length_bool, matches_grammar_iff. }
    assert (Hvt : v ≤ t).
    { rewrite <- Hv, <- Ht. apply validMessageCount_le. }
    assert (Hlen : length lines ≠ 0).
    { intros E. by apply length_zero_iff_nil in E. }
    assert (Ht1 : 1 ≤ t ≤ 50).
    { unfold t, sampled. rewrite length_take. fold lines. lia. }
    assert (Hratio : PrimFloat.ltb (validRatio lines) threshold
                     = (10 * v <? 3 * t)).
    { unfold validRatio. rewrite Hv, Ht. by apply ratio_below_threshold. }
    assert (Herr : errors (validate content)
                   = ratio_errors lines ++ format_errors lines
                   ∧ isValid (validate content)
                     = (length (ratio_errors lines ++ format_errors lines) =? 0)).
    { unfold validate.
      rewrite bool_decide_eq_false_2 by (by rewrite trim_nil_iff).
      fold lines. by rewrite (proj2 (Nat.eqb_neq _ _) Hlen). }
    destruct Herr as [Herr Hvalid].
    assert (Hr : ratio_errors lines
                 = if 10 * v <? 3 * t
                   then [ js "Content does not appear to be a WhatsApp chat export";
                          js "Only " ++ dec ((200 * v + t) / (2 * t))
                          ++ js "% of lines match expected format" ]
                   else []).
    { unfold ratio_errors. rewrite Hratio.
      destruct (Nat.ltb_spec (10 * v) (3 * t)) as [Hlow|]; [|done].
      unfold validRatio. rewrite Hv, Ht. by rewrite percent_rounded. }
    assert (Hf : format_errors lines
                 = if v =? 0
                   then [ js "No valid message format found";
                          js "Expected format: " ++ [34%N]
                          ++ js "MM/DD/YY, HH:MM - Sender: Message" ++ [34%N] ]
                   else []).
    { unfold format_errors. by rewrite Hv. }
    split; [lia|]. split; [done|]. split.
    + rewrite Hvalid, Hr, Hf.
      destruct (Nat.ltb_spec (10 * v) (3 * t));
        destruct (Nat.eqb_spec v 0); simpl; split; try done; lia.
    + by rewrite Herr, Hr, Hf.
Qed.

End ValidateFacts.

Section GrammarFacts.
Import Js Regex Parser.

Variable local_time : Z -> Z -> Z -> Z -> Z -> Date.

(** Once the common part has matched, the system pattern accepts any
    rest that is free of line terminators. *)
Lemma system_tail_matches st :
  Forall (λ c, is_line_terminator c = false) st.1 →
  run (rseq [Group (Rep Dot 0 None true); End]) st ≠ [].
Proof.
  intros Hdot. destruct st as [s caps]. simpl in *.
  apply flat_map_nonempty.
  exists ([], caps ++ [firstn (length s - 0) s]). split.
  - apply list_elem_of_fmap. exists ([], caps). split; [done|].
    apply list_elem_of_fmap. exists []. split; [done|]. by apply rep_dot_all.
  - done.
Qed.

Lemma system_matches_after_stamp line st :
  Forall (λ c, is_line_terminator c = false) line →
  st ∈ run (rseq stamp) (line, []) →
  is_Some (exec_start SYSTEM_MESSAGE_REGEX line).
Proof.
  intros Hdot Hst. apply exec_start_is_Some.
  unfold SYSTEM_MESSAGE_REGEX. rewrite run_rseq_app.
  apply flat_map_nonempty. exists st. split; [exact Hst|].
  apply system_tail_matches.
  apply run_suffix in Hst as [pre Hpre]. simpl in Hpre. rewrite Hpre in Hdot.
  by apply Forall_app in Hdot as [_ ?].
Qed.

(** C9 (as amended).  A line without line terminators (a line of the
    transcript never holds a line feed, so this excludes the carriage
    return and the two Unicode separators) that matches the attributed
    pattern matches the system pattern too.  And a line that matches the
    attributed pattern is handled as an attributed message whatever the
    system pattern says: the attributed pattern is consulted first. *)
Theorem attributed_line_matches_system :
  (∀ line,
      Forall (λ c, is_line_terminator c = false) line →
      is_Some (exec_start MESSAGE_REGEX line) →
      is_Some (exec_start SYSTEM_MESSAGE_REGEX line))
  ∧ (∀ st line g,
        exec_start MESSAGE_REGEX line = Some g →
        parse_line local_time st line = on_message local_time st g).
Proof.
  split.
  - intros line Hdot HM.
    apply exec_start_is_Some in HM. unfold MESSAGE_REGEX in HM.
    rewrite run_rseq_app in HM.
    apply flat_map_nonempty in HM as (st & Hst & _).
    by apply (system_matches_after_stamp line st).
  - intros st line g HM. unfold parse_line. by rewrite HM.
Qed.

End GrammarFacts.

Import Examples.

(** C9, counterexample.  The line "1/1/24, 10:00 - A:" followed by a
    carriage return matches the attributed pattern (the carriage return is
    the white space after the colon, the content is empty) and does not
    match the system pattern (whose last group cannot read a carriage
    return): not every attributed line is a system line. *)
Lemma attributed_line_rejected_by_system :
  ¬ ∀ line : Js.str,
      is_Some (Regex.exec_start Parser.MESSAGE_REGEX line) →
      is_Some (Regex.exec_start Parser.SYSTEM_MESSAGE_REGEX line).
Proof.
  intros H. specialize (H cr_line).
  assert (HM : Regex.exec_start Parser.MESSAGE_REGEX cr_line
               = Some [Js.js "1/1/24"; Js.js "10:00"; Js.js "A"; []]).
  { vm_compute. reflexivity. }
  assert (HS : Regex.exec_start Parser.SYSTEM_MESSAGE_REGEX cr_line = None).
  { vm_compute. reflexivity. }
  rewrite HM, HS in H. destruct H as [g Hg]; [by eexists|]. discriminate.
Qed.

(** ** The storage engine *)

Section KeyOrder.
Import Js Database.

Lemma str_leb_total a b : str_leb a b = true ∨ str_leb b a = true.
Proof.
  revert b. induction a as [|x a IH]; intros [|y b]; simpl; auto.
  destruct (N.ltb_spec x y), (N.ltb_spec y x), (N.eqb_spec x y), (N.eqb_spec y x);
    auto; lia.
Qed.

Lemma str_leb_trans a b c :
  str_leb a b = true → str_leb b c = true → str_leb a c = true.
Proof.
  revert b c. induction a as [|x a IH]; intros [|y b] [|z c]; simpl; auto;
    try discriminate.
  destruct (N.ltb_spec x y), (N.ltb_spec y z), (N.ltb_spec x z),
    (N.eqb_spec x y), (N.eqb_spec y z), (N.eqb_spec x z);
    try discriminate; try lia; eauto.
Qed.

#[global] Instance by_primary_key_total {V} : Total (@by_primary_key V).
Proof. intros p q. apply str_leb_total. Qed.

#[global] Instance by_index_then_key_total : Total by_index_then_key.
Proof.
  intros p q. unfold by_index_then_key.
  destruct (lt_eq_lt_dec (Message.messageIndex p.2) (Message.messageIndex q.2))
    as [[Hlt|Heq]|Hgt]; [by left; left| |by right; left].
  destruct (str_leb_total p.1 q.1); [left|right]; right; by split.
Qed.

Lemma str_leb_antisym a b :
  str_leb a b = true → str_leb b a = true → a = b.
Proof.
  revert b. induction a as [|x a IH]; intros [|y b]; simpl; try done.
  destruct (N.ltb_spec x y), (N.ltb_spec y x), (N.eqb_spec x y), (N.eqb_spec y x);
    try discriminate; try lia.
  intros. subst. f_equal. auto.
Qed.

#[global] Instance by_primary_key_trans {V} : Transitive (@by_primary_key V).
Proof. intros p q r. apply str_leb_trans. Qed.

(** Two selections from one store with the same entries are read in
    the same order. *)
Lemma sorted_by_key_unique {V} (store : gmap str V) (l1 l2 : list (str * V)) :
  l1 ≡ₚ l2 → (∀ p, p ∈ l1 → store !! p.1 = Some p.2) →
  merge_sort by_primary_key l1 = merge_sort by_primary_key l2.
Proof.
  intros Hperm Hstore.
  apply (Sorted_unique_strong by_primary_key).
  - intros [k1 v1] [k2 v2] H1 H2 Hle Hge.
    rewrite merge_sort_Permutation in H1, H2. rewrite <- Hperm in H2.
    apply Hstore in H1, H2. simpl in *.
    assert (k1 = k2) as -> by (by apply str_leb_antisym). congruence.
  - apply Sorted_merge_sort, _.
  - apply Sorted_merge_sort, _.
  - by rewrite !merge_sort_Permutation.
Qed.

(** An index read returns the entries in key range, each once. *)
Lemma messages_by_chat_perm db chatId :
  messages_by_chat db chatId
  ≡ₚ filter (λ p, Message.chatId p.2 = chatId) (map_to_list (messages db)).
Proof. apply merge_sort_Permutation. Qed.

Lemma bookmarks_by_chat_perm db chatId :
  bookmarks_by_chat db chatId
  ≡ₚ filter (λ p, Bookmark.chatId p.2 = chatId) (map_to_list (bookmarks db)).
Proof. apply merge_sort_Permutation. Qed.

Lemma elem_of_messages_by_chat db chatId k m :
  (k, m) ∈ messages_by_chat db chatId
  ↔ messages db !! k = Some m ∧ Message.chatId m = chatId.
Proof.
  rewrite messages_by_chat_perm, list_elem_of_filter, elem_of_map_to_list.
  simpl. tauto.
Qed.

Lemma elem_of_bookmarks_by_chat db chatId k b :
  (k, b) ∈ bookmarks_by_chat db chatId
  ↔ bookmarks db !! k = Some b ∧ Bookmark.chatId b = chatId.
Proof.
  rewrite bookmarks_by_chat_perm, list_elem_of_filter, elem_of_map_to_list.
  simpl. tauto.
Qed.

Lemma getAllMessagesForChat_perm db chatId :
  getAllMessagesForChat db chatId ≡ₚ chat_messages db chatId.
Proof.
  unfold getAllMessagesForChat, chat_messages. by rewrite messages_by_chat_perm.
Qed.

Lemma getBookmarksForChat_perm db chatId :
  getBookmarksForChat db chatId ≡ₚ chat_bookmarks db chatId.
Proof.
  unfold getBookmarksForChat, chat_bookmarks. by rewrite bookmarks_by_chat_perm.
Qed.

Lemma elem_of_chat_messages db chatId m :
  m ∈ chat_messages db chatId
  ↔ ∃ k, messages db !! k = Some m ∧ Message.chatId m = chatId.
Proof.
  unfold chat_messages. rewrite list_elem_of_fmap. split.
  - intros ([k m'] & -> & H). apply list_elem_of_filter in H as [H1 H2].
    apply elem_of_map_to_list in H2. eauto.
  - intros (k & H1 & H2). exists (k, m). split; [done|].
    apply list_elem_of_filter. split; [done|]. by apply elem_of_map_to_list.
Qed.

Lemma elem_of_chat_bookmarks db chatId b :
  b ∈ chat_bookmarks db chatId
  ↔ ∃ k, bookmarks db !! k = Some b ∧ Bookmark.chatId b = chatId.
Proof.
  unfold chat_bookmarks. rewrite list_elem_of_fmap. split.
  - intros ([k b'] & -> & H). apply list_elem_of_filter in H as [H1 H2].
    apply elem_of_map_to_list in H2. eauto.
  - intros (k & H1 & H2). exists (k, b). split; [done|].
    apply list_elem_of_filter. split; [done|]. by apply elem_of_map_to_list.
Qed.

End KeyOrder.

Section DeleteChatFacts.
Import Js Database.

Lemma foldl_delete_message_chats db ks :
  chats (foldl delete_message db ks) = chats db.
Proof. revert db. induction ks as [|k ks IH]; intros db; simpl; [done|]. by rewrite IH. Qed.

Lemma foldl_delete_message_bookmarks db ks :
  bookmarks (foldl delete_message db ks) = bookmarks db.
Proof. revert db. induction ks as [|k ks IH]; intros db; simpl; [done|]. by rewrite IH. Qed.

Lemma foldl_delete_bookmark_chats db ks :
  chats (foldl delete_bookmark db ks) = chats db.
Proof. revert db. induction ks as [|k ks IH]; intros db; simpl; [done|]. by rewrite IH. Qed.

Lemma foldl_delete_bookmark_messages db ks :
  messages (foldl delete_bookmark db ks) = messages db.
Proof. revert db. induction ks as [|k ks IH]; intros db; simpl; [done|]. by rewrite IH. Qed.

(** Deleting a list of keys removes exactly those keys. *)
Lemma foldl_delete_message_lookup db ks k :
  messages (foldl delete_message db ks) !! k
  = if bool_decide (k ∈ ks) then None else messages db !! k.
Proof.
  revert db. induction ks as [|k' ks IH]; intros db; simpl; [done|].
  rewrite IH. simpl.
  destruct (decide (k = k')) as [->|Hne].
  - rewrite lookup_delete_eq.
    rewrite (bool_decide_eq_true_2 (_ ∈ _ :: _)) by (by left).
    by destruct (bool_decide _).
  - rewrite lookup_delete_ne by done.
    destruct (decide (k ∈ ks)) as [Hin|Hnin].
    + rewrite !bool_decide_eq_true_2; [done|by right|done].
    + rewrite !bool_decide_eq_false_2; [done| |done].
      intros [?|?]%elem_of_cons; done.
Qed.

Lemma foldl_delete_bookmark_lookup db ks k :
  bookmarks (foldl delete_bookmark db ks) !! k
  = if bool_decide (k ∈ ks) then None else bookmarks db !! k.
Proof.
  revert db. induction ks as [|k' ks IH]; intros db; simpl; [done|].
  rewrite IH. simpl.
  destruct (decide (k = k')) as [->|Hne].
  - rewrite lookup_delete_eq.
    rewrite (bool_decide_eq_true_2 (_ ∈ _ :: _)) by (by left).
    by destruct (bool_decide _).
  - rewrite lookup_delete_ne by done.
    destruct (decide (k ∈ ks)) as [Hin|Hnin].
    + rewrite !bool_decide_eq_true_2; [done|by right|done].
    + rewrite !bool_decide_eq_false_2; [done| |done].
      intros [?|?]%elem_of_cons; done.
Qed.

(** The message store after [deleteChat]: the records of the chat are
    gone, every other record is where it was. *)
Lemma deleteChat_messages db chatId k m :
  messages (deleteChat db chatId) !! k = Some m
  ↔ messages db !! k = Some m ∧ Message.chatId m ≠ chatId.
Proof.
  unfold deleteChat. rewrite foldl_delete_bookmark_messages.
  rewrite foldl_delete_message_lookup.
  set (db1 := delete_chat chatId db).
  change (messages db1) with (messages db).
  destruct (decide (k ∈ (messages_by_chat db1 chatId).*1)) as [Hin|Hnin].
  - rewrite bool_decide_eq_true_2 by done.
    apply list_elem_of_fmap in Hin as ([k' m'] & -> & Hin).
    apply elem_of_messages_by_chat in Hin as [Hk Hc]. simpl in *.
    change (messages db1) with (messages db) in Hk.
    split; [done|]. intros [Hm Hne]. congruence.
  - rewrite bool_decide_eq_false_2 by done. split; [|tauto].
    intros Hm. split; [done|]. intros Hc. apply Hnin.
    apply list_elem_of_fmap. exists (k, m). split; [done|].
    by apply elem_of_messages_by_chat.
Qed.

Lemma deleteChat_bookmarks db chatId k b :
  bookmarks (deleteChat db chatId) !! k = Some b
  ↔ bookmarks db !! k = Some b ∧ Bookmark.chatId b ≠ chatId.
Proof.
  unfold deleteChat. rewrite foldl_delete_bookmark_lookup.
  set (db2 := foldl delete_message _ _).
  assert (Hb : bookmarks db2 = bookmarks db).
  { unfold db2. by rewrite foldl_delete_message_bookmarks. }
  destruct (decide (k ∈ (bookmarks_by_chat db2 chatId).*1)) as [Hin|Hnin].
  - rewrite bool_decide_eq_true_2 by done.
    apply list_elem_of_fmap in Hin as ([k' b'] & -> & Hin).
    apply elem_of_bookmarks_by_chat in Hin as [Hk Hc]. simpl in *.
    rewrite Hb in Hk. split; [done|]. intros [Hm Hne]. congruence.
  - rewrite bool_decide_eq_false_2 by done. rewrite Hb. split; [|tauto].
    intros Hm. split; [done|]. intros Hc. apply Hnin.
    apply list_elem_of_fmap. exists (k, b). split; [done|].
    apply elem_of_bookmarks_by_chat. by rewrite Hb.
Qed.

Lemma deleteChat_chats db chatId :
  chats (deleteChat db chatId) = delete chatId (chats db).
Proof.
  unfold deleteChat.
  by rewrite foldl_delete_bookmark_chats, foldl_delete_message_chats.
Qed.

Lemma nil_of_no_element {A} (l : list A) : (∀ x, x ∉ l) → l = [].
Proof. destruct l as [|a l]; [done|]. intros H. destruct (H a). by left. Qed.

(** C3.  After [deleteChat id] no message record and no bookmark record
    with that chat id is left in the stores, so [getAllMessagesForChat id]
    and [getBookmarksForChat id] return the empty list, and the chat
    record is gone; the records of every other chat, in all three
    stores, are exactly the ones that were there before. *)
Theorem deleteChat_cascade (db : DB) (id : str) :
  let db' := deleteChat db id in
  getAllMessagesForChat db' id = []
  ∧ getBookmarksForChat db' id = []
  ∧ (∀ k m, messages db' !! k = Some m → Message.chatId m ≠ id)
  ∧ (∀ k b, bookmarks db' !! k = Some b → Bookmark.chatId b ≠ id)
  ∧ getChat db' id = None
  ∧ (∀ other, other ≠ id →
       getChat db' other = getChat db other
       ∧ (∀ k m, Message.chatId m = other →
            messages db' !! k = Some m ↔ messages db !! k = Some m)
       ∧ (∀ k b, Bookmark.chatId b = other →
            bookmarks db' !! k = Some b ↔ bookmarks db !! k = Some b)
       ∧ getAllMessagesForChat db' other = getAllMessagesForChat db other
       ∧ getBookmarksForChat db' other = getBookmarksForChat db other).
Proof.
  intros db'.
  assert (Hm : ∀ k m, messages db' !! k = Some m → Message.chatId m ≠ id).
  { intros k m H. by apply deleteChat_messages in H as [_ ?]. }
  assert (Hb : ∀ k b, bookmarks db' !! k = Some b → Bookmark.chatId b ≠ id).
  { intros k b H. by apply deleteChat_bookmarks in H as [_ ?]. }
  split; [|split; [|split; [done|split; [done|split]]]].
  - unfold getAllMessagesForChat.
    rewrite (nil_of_no_element (messages_by_chat db' id)); [done|].
    intros [k m] [H1 H2]%elem_of_messages_by_chat. by eapply Hm.
  - unfold getBookmarksForChat.
    rewrite (nil_of_no_element (bookmarks_by_chat db' id)); [done|].
    intros [k b] [H1 H2]%elem_of_bookmarks_by_chat. by eapply Hb.
  - unfold getChat, db'. rewrite deleteChat_chats. apply lookup_delete_eq.
  - intros other Hother.
    assert (HM : ∀ k m, Message.chatId m = other →
              messages db' !! k = Some m ↔ messages db !! k = Some m).
    { intros k m Hc. unfold db'. rewrite deleteChat_messages. split; [tauto|].
      intros H. split; [done|congruence]. }
    assert (HB : ∀ k b, Bookmark.chatId b = other →
              bookmarks db' !! k = Some b ↔ bookmarks db !! k = Some b).
    { intros k b Hc. unfold db'. rewrite deleteChat_bookmarks. split; [tauto|].
      intros H. split; [done|congruence]. }
    split; [|split; [done|split; [done|split]]].
    + unfold getChat, db'. rewrite deleteChat_chats. by apply lookup_delete_ne.
    + unfold getAllMessagesForChat, messages_by_chat. f_equal.
      apply (sorted_by_key_unique (messages db')).
      * apply NoDup_Permutation;
          [apply NoDup_filter, NoDup_map_to_list..|].
        intros [k m]. rewrite !list_elem_of_filter, !elem_of_map_to_list. simpl.
        split; intros [Hc H]; (split; [done|]); by apply (HM k m Hc).
      * intros [k m] [_ H]%list_elem_of_filter. by apply elem_of_map_to_list.
    + unfold getBookmarksForChat, bookmarks_by_chat. f_equal.
      apply (sorted_by_key_unique (bookmarks db')).
      * apply NoDup_Permutation;
          [apply NoDup_filter, NoDup_map_to_list..|].
        intros [k b]. rewrite !list_elem_of_filter, !elem_of_map_to_list. simpl.
        split; intros [Hc H]; (split; [done|]); by apply (HB k b Hc).
      * intros [k b] [_ H]%list_elem_of_filter. by apply elem_of_map_to_list.
Qed.

End DeleteChatFacts.

Section StoreChatFacts.
Import Js Database.

Lemma js_inj s1 s2 : js s1 = js s2 → s1 = s2.
Proof.
  unfold js. intros H.
  assert (Hl : list_ascii_of_string s1 = list_ascii_of_string s2).
  { revert H. generalize (list_ascii_of_string s1) (list_ascii_of_string s2).
    induction l as [|a l IH]; intros [|b l'] H; simpl in *; try done.
    injection H as Hab Hl. f_equal; [|by apply IH].
    rewrite <- (ascii_N_embedding a), <- (ascii_N_embedding b). by rewrite Hab. }
  rewrite <- (string_of_list_ascii_of_string s1),
          <- (string_of_list_ascii_of_string s2). by rewrite Hl.
Qed.

(** Distinct positions give distinct keys. *)
Lemma message_key_inj id i j : message_key id i = message_key id j → i = j.
Proof.
  unfold message_key, dec. intros H.
  apply app_inv_head, app_inv_head, js_inj in H.
  by apply (inj pretty) in H.
Qed.

Lemma put_messages_chats id i rest db :
  chats (put_messages id i rest db) = chats db.
Proof. revert i db. induction rest as [|m rest IH]; intros i db; simpl; [done|]. by rewrite IH. Qed.

Lemma put_messages_bookmarks id i rest db :
  bookmarks (put_messages id i rest db) = bookmarks db.
Proof. revert i db. induction rest as [|m rest IH]; intros i db; simpl; [done|]. by rewrite IH. Qed.

(** The message store after the loop of [storeChat]: under the key of
    position [i + j] the record of the [j]-th message, everything else as
    before. *)
Lemma put_messages_lookup id i rest db k m :
  messages (put_messages id i rest db) !! k = Some m
  ↔ (∃ j msg, rest !! j = Some msg ∧ k = message_key id (i + j)
              ∧ m = message_record id (i + j) msg)
    ∨ ((∀ j, j < length rest → k ≠ message_key id (i + j))
       ∧ messages db !! k = Some m).
Proof.
  revert i db. induction rest as [|a rest IH]; intros i db; simpl.
  - split.
    + intros H. right. split; [intros; lia | done].
    + intros [(j & msg & H & _)|[_ H]]; [done|done].
  - rewrite IH. simpl. split.
    + intros [(j & msg & Hj & -> & ->)|[Hk Hm]].
      * left. exists (S j), msg. by rewrite Nat.add_succ_r.
      * destruct (decide (k = message_key id i)) as [->|Hne].
        -- rewrite lookup_insert_eq in Hm. injection Hm as <-.
           left. exists 0, a. by rewrite Nat.add_0_r.
        -- rewrite lookup_insert_ne in Hm by done.
           right. split; [|done]. intros [|j] Hj.
           ++ by rewrite Nat.add_0_r.
           ++ rewrite Nat.add_succ_r. apply Hk. lia.
    + intros [(j & msg & Hj & -> & ->)|[Hk Hm]].
      * destruct j as [|j]; simpl in Hj.
        -- injection Hj as ->. rewrite Nat.add_0_r. right. split.
           ++ intros j Hj Heq. apply message_key_inj in Heq. lia.
           ++ apply lookup_insert_eq.
        -- left. exists j, msg. by rewrite Nat.add_succ_r.
      * right. split.
        -- intros j Hj. specialize (Hk (S j)). rewrite Nat.add_succ_r in Hk.
           apply Hk. lia.
        -- rewrite lookup_insert_ne; [done|].
           specialize (Hk 0). rewrite Nat.add_0_r in Hk.
           intros Heq. apply Hk; [lia|done].
Qed.

Lemma storeChat_messages_lookup nc nl id name ps msgs raw db k m :
  messages (storeChat nc nl id name ps msgs raw db) !! k = Some m
  ↔ (∃ i msg, msgs !! i = Some msg ∧ k = message_key id i
              ∧ m = message_record id i msg)
    ∨ ((∀ i, i < length msgs → k ≠ message_key id i)
       ∧ messages db !! k = Some m).
Proof. unfold storeChat. by rewrite put_messages_lookup. Qed.

Lemma message_records_lookup id msgs i :
  message_records id msgs !! i = message_record id i <$> msgs !! i.
Proof. apply list_lookup_imap. Qed.

Lemma message_records_dense id msgs : dense (message_records id msgs).
Proof.
  intros i m. rewrite message_records_lookup.
  destruct (msgs !! i); simpl; [|done]. by intros [= <-].
Qed.

Lemma message_records_length id msgs :
  length (message_records id msgs) = length msgs.
Proof. apply length_imap. Qed.

Lemma stored_entries_values id msgs :
  (stored_entries id msgs).*2 = message_records id msgs.
Proof. unfold stored_entries, message_records. by rewrite fmap_imap. Qed.

Lemma stored_entries_NoDup id msgs : NoDup (stored_entries id msgs).
Proof.
  apply NoDup_alt. intros i j [k m]. unfold stored_entries.
  rewrite !list_lookup_imap.
  destruct (msgs !! i), (msgs !! j); simpl; try done.
  intros [= <- <-] [= H _]. symmetry. by apply message_key_inj in H.
Qed.

Lemma storeChat_entries nc nl id name ps msgs raw db :
  fresh db id →
  filter (λ p, Message.chatId p.2 = id)
    (map_to_list (messages (storeChat nc nl id name ps msgs raw db)))
  ≡ₚ stored_entries id msgs.
Proof.
  intros Hfresh. apply NoDup_Permutation.
  - apply NoDup_filter, NoDup_map_to_list.
  - apply stored_entries_NoDup.
  - intros [k m]. rewrite list_elem_of_filter, elem_of_map_to_list.
    rewrite storeChat_messages_lookup. simpl. split.
    + intros [Hc [(i & msg & Hi & -> & ->)|[_ Hm]]].
      * apply (elem_of_lookup_imap_2
                 (λ i msg, (message_key id i, message_record id i msg))
                 msgs msg i Hi).
      * by apply Hfresh in Hm.
    + unfold stored_entries.
      intros (i & msg & [= -> ->] & Hi)%elem_of_lookup_imap_1.
      split; [done|]. left. eauto.
Qed.

Lemma storeChat_chat_messages nc nl id name ps msgs raw db :
  fresh db id →
  chat_messages (storeChat nc nl id name ps msgs raw db) id
  ≡ₚ message_records id msgs.
Proof.
  intros Hfresh. unfold chat_messages.
  rewrite storeChat_entries by done. by rewrite stored_entries_values.
Qed.

End StoreChatFacts.

Section GetMessagesFacts.
Import Js Database.

Lemma MAX_ITERATIONS_ge_2 : 2 ≤ MAX_ITERATIONS.
Proof. apply Nat.leb_le. vm_compute. reflexivity. Qed.

#[local] Opaque MAX_ITERATIONS.

(** The loop of [getMessages] copies the entries under the cursor until
    [limit] or the iteration ceiling is reached. *)
Lemma cursor_loop_spec limit cursor count iterations acc :
  cursor_loop limit cursor count iterations acc
  = acc ++ (take (Nat.min (limit - count) (MAX_ITERATIONS - iterations)) cursor).*2.
Proof.
  revert count iterations acc.
  induction cursor as [|e cursor IH]; intros count iterations acc; simpl.
  - by rewrite take_nil, app_nil_r.
  - destruct (Nat.ltb_spec count limit) as [Hc|Hc];
      destruct (Nat.ltb_spec iterations MAX_ITERATIONS) as [Hi|Hi]; simpl.
    + rewrite IH, <- app_assoc. simpl.
      replace (Nat.min (limit - count) (MAX_ITERATIONS - iterations))
        with (S (Nat.min (limit - S count) (MAX_ITERATIONS - S iterations)))
        by lia.
      done.
    + replace (Nat.min _ _) with 0 by lia. by rewrite app_nil_r.
    + replace (Nat.min _ _) with 0 by lia. by rewrite app_nil_r.
    + replace (Nat.min _ _) with 0 by lia. by rewrite app_nil_r.
Qed.

Lemma filter_values {K V} (P Q : V → Prop)
    `{∀ v, Decision (P v)} `{∀ v, Decision (Q v)} (l : list (K * V)) :
  (filter (λ p, P p.2 ∧ Q p.2) l).*2 = filter Q (filter P l.*2).
Proof.
  induction l as [|[k v] l IH]; [done|].
  rewrite fmap_cons, !filter_cons. simpl.
  destruct (decide (P v)); [destruct (decide (Q v))|].
  - rewrite decide_True by done. rewrite fmap_cons, filter_cons.
    rewrite decide_True by done. by rewrite IH.
  - rewrite decide_False by tauto. rewrite filter_cons.
    by rewrite decide_False by done.
  - by rewrite decide_False by tauto.
Qed.

Lemma chat_messages_values db chatId :
  chat_messages db chatId
  = filter (λ m, Message.chatId m = chatId) (map_to_list (messages db)).*2.
Proof.
  unfold chat_messages.
  induction (map_to_list (messages db)) as [|[k v] l IH]; [done|].
  rewrite fmap_cons, !filter_cons. simpl.
  destruct (decide (Message.chatId v = chatId)); [|done].
  by rewrite fmap_cons, IH.
Qed.

Lemma dense_from_0 recs : dense recs ↔ dense_from 0 recs.
Proof. done. Qed.

Lemma dense_from_cons k a recs :
  dense_from k (a :: recs) →
  Message.messageIndex a = k ∧ dense_from (S k) recs.
Proof.
  intros H. split.
  - rewrite (H 0 a eq_refl). lia.
  - intros i m Hi. rewrite (H (S i) m Hi). lia.
Qed.

Lemma dense_from_drop k n recs :
  dense_from k recs → dense_from (k + n) (drop n recs).
Proof.
  intros H i m. rewrite lookup_drop. intros Hi. rewrite (H _ _ Hi). lia.
Qed.

Lemma dense_from_filter k offset recs :
  dense_from k recs →
  filter (λ m, offset ≤ Message.messageIndex m) recs = drop (offset - k) recs.
Proof.
  revert k. induction recs as [|a recs IH]; intros k H.
  - by rewrite drop_nil.
  - apply dense_from_cons in H as [Ha H].
    destruct (decide (offset ≤ k)) as [Hle|Hgt].
    + rewrite filter_cons_True by lia. rewrite (IH (S k)) by done.
      replace (offset - k) with 0 by lia.
      replace (offset - S k) with 0 by lia. done.
    + rewrite filter_cons_False by lia. rewrite (IH (S k)) by done.
      replace (offset - k) with (S (offset - S k)) by lia. done.
Qed.

#[local] Instance index_le_trans : Transitive index_le.
Proof. intros a b c. unfold index_le. lia. Qed.

Lemma dense_from_sorted k recs : dense_from k recs → Sorted index_le recs.
Proof.
  revert k. induction recs as [|a recs IH]; intros k H; [constructor|].
  apply dense_from_cons in H as [Ha H]. constructor; [by eapply IH|].
  destruct recs as [|b recs]; constructor.
  unfold index_le. rewrite Ha, (H 0 b eq_refl). lia.
Qed.

(** The range of [by-chat-index] from [offset] on is the tail of the
    chat's records from position [offset] on. *)
Lemma messages_by_chat_index_dense db chatId recs offset :
  chat_messages db chatId ≡ₚ recs → dense recs →
  (messages_by_chat_index db chatId offset).*2 = drop offset recs.
Proof.
  intros Hperm Hdense.
  assert (Hp : (messages_by_chat_index db chatId offset).*2 ≡ₚ drop offset recs).
  { unfold messages_by_chat_index. rewrite merge_sort_Permutation.
    pose proof (filter_values (λ m, Message.chatId m = chatId)
                  (λ m, offset ≤ Message.messageIndex m)
                  (map_to_list (messages db))) as Hfv.
    cbv beta in Hfv. rewrite Hfv.
    rewrite <- chat_messages_values, Hperm.
    rewrite (dense_from_filter 0) by done. by rewrite Nat.sub_0_r. }
  apply (Sorted_unique_strong index_le); [|..|done].
  - intros x1 x2 H1 H2 Hle Hge. rewrite Hp in H1.
    apply subseteq_drop, list_elem_of_lookup in H1 as [i Hi].
    apply subseteq_drop, list_elem_of_lookup in H2 as [j Hj].
    pose proof (Hdense _ _ Hi). pose proof (Hdense _ _ Hj).
    unfold index_le in *. assert (i = j) as -> by lia. congruence.
  - apply (Sorted_fmap _ by_index_then_key).
    + intros p q. unfold by_index_then_key, index_le. lia.
    + apply Sorted_merge_sort, _.
  - apply (dense_from_sorted (0 + offset)), dense_from_drop. done.
Qed.

(** [getMessages] on a chat whose records are dense: the page that
    starts at [offset], cut at [limit] and at the iteration ceiling. *)
Lemma getMessages_dense db chatId recs limit offset :
  chat_messages db chatId ≡ₚ recs → dense recs →
  getMessages db chatId limit offset
  = take (Nat.min limit MAX_ITERATIONS) (drop offset recs).
Proof.
  intros Hperm Hdense. unfold getMessages.
  rewrite cursor_loop_spec, !Nat.sub_0_r. simpl.
  rewrite fmap_take. by rewrite (messages_by_chat_index_dense _ _ recs).
Qed.

Lemma dense_from_indexes k recs :
  dense_from k recs → Message.messageIndex <$> recs = seq k (length recs).
Proof.
  revert k. induction recs as [|a recs IH]; intros k H; [done|].
  apply dense_from_cons in H as [Ha H].
  rewrite fmap_cons, Ha, (IH (S k)) by done. done.
Qed.

Lemma dense_from_take k n recs : dense_from k recs → dense_from k (take n recs).
Proof.
  intros H i m Hi. apply lookup_take_Some in Hi as [Hi _]. eauto.
Qed.

(** C4 (as amended).  For a chat whose stored records are [recs], with
    [messageIndex] equal to the position in [recs] (dense indexes 0 to
    N-1), [getMessages chatId limit offset] returns the records of [recs]
    from position [offset] on, at most [limit] of them and never more
    than [MAX_ITERATIONS] (10000): exactly the messages with index from
    [offset] up to, not including, the least of [offset + limit],
    [offset + 10000] and N, by increasing index. *)
Theorem getMessages_page (db : DB) (chatId : str) (recs : list Message.t)
    (limit offset : nat) :
  chat_messages db chatId ≡ₚ recs →
  dense recs →
  getMessages db chatId limit offset
  = take (Nat.min limit MAX_ITERATIONS) (drop offset recs)
  ∧ Message.messageIndex <$> getMessages db chatId limit offset
    = seq offset (Nat.min (Nat.min limit MAX_ITERATIONS) (length recs - offset)).
Proof.
  intros Hperm Hdense. rewrite (getMessages_dense _ _ recs) by done.
  split; [done|].
  rewrite (dense_from_indexes offset).
  - by rewrite length_take, length_drop.
  - apply dense_from_take. apply (dense_from_drop 0 offset). done.
Qed.

End GetMessagesFacts.

Section StorageProperties.
Import Js Database Examples.

#[local] Opaque MAX_ITERATIONS.

Lemma fresh_empty chatId : fresh Database.empty chatId.
Proof. intros k m H. simpl in H. by rewrite lookup_empty in H. Qed.

(** C2 (as amended).  [storeChat] writes one chat record, under the chat
    id, whose [messageCount] is the length of the message list and whose
    [lastMessageAt] is the time stamp of the last message (the reading of
    the clock when the list is empty); it writes, for every position [i]
    of the list, the record with id "<chatId>-<i>" and [messageIndex] [i],
    and touches no other record.  When no message record of that chat id
    was in the store before the call, the chat then owns exactly these
    records: their indexes are 0 to N-1 in input order, the read through
    the index by chat and position returns them in that order, and
    [messageCount] is their number. *)
Theorem storeChat_records (now_created now_last : Z) (id name : str)
    (participants : list str) (msgs : list Parser.ParsedMessage)
    (rawContent : str) (db : DB) :
  let db' := storeChat now_created now_last id name participants msgs rawContent db in
  let chat := chat_record now_created now_last id name participants msgs rawContent in
  chats db' = <[id := chat]> (chats db)
  ∧ Chat.messageCount chat = length msgs
  ∧ Chat.lastMessageAt chat
    = match last msgs with
      | Some m => Parser.timestamp m
      | None => Time now_last
      end
  ∧ bookmarks db' = bookmarks db
  ∧ (∀ k m,
       messages db' !! k = Some m
       ↔ (∃ i msg, msgs !! i = Some msg
                   ∧ k = id ++ js "-" ++ dec i
                   ∧ m = {| Message.id := id ++ js "-" ++ dec i;
                            Message.chatId := id;
                            Message.timestamp := Parser.timestamp msg;
                            Message.sender := Parser.sender msg;
                            Message.content := Parser.content msg;
                            Message.messageIndex := i |})
         ∨ ((∀ i, i < length msgs → k ≠ id ++ js "-" ++ dec i)
            ∧ messages db !! k = Some m))
  ∧ (fresh db id →
       chat_messages db' id ≡ₚ message_records id msgs
       ∧ (messages_by_chat_index db' id 0).*2 = message_records id msgs
       ∧ Message.messageIndex <$> message_records id msgs = seq 0 (length msgs)
       ∧ length (chat_messages db' id) = Chat.messageCount chat).
Proof.
  intros db' chat. repeat split.
  - unfold db', storeChat. by rewrite put_messages_chats.
  - unfold db', storeChat. by rewrite put_messages_bookmarks.
  - intros H. by apply storeChat_messages_lookup in H.
  - intros H. by apply storeChat_messages_lookup.
  - by apply storeChat_chat_messages.
  - rewrite (messages_by_chat_index_dense _ _ (message_records id msgs)).
    + done.
    + by apply storeChat_chat_messages.
    + apply message_records_dense.
  - rewrite (dense_from_indexes 0), message_records_length; [done|].
    apply message_records_dense.
  - unfold db'. rewrite storeChat_chat_messages by done.
    apply message_records_length.
Qed.

(** C2, counterexample.  A chat id that is stored twice, first with two
    messages and then with one: the chat record counts one message, the
    store still holds two message records of the chat, with the indexes
    0 and 1. *)
Lemma storeChat_reused_id :
  let db1 := storeChat 0 0 (js "c") (js "chat") [] [hello; hello] [] Database.empty in
  let db2 := storeChat 1 1 (js "c") (js "chat") [] [hello] [] db1 in
  Chat.messageCount <$> getChat db2 (js "c") = Some 1
  ∧ Message.messageIndex <$> getAllMessagesForChat db2 (js "c") = [0; 1]
  ∧ Message.messageIndex <$> getMessages db2 (js "c") 50 0 = [0; 1].
Proof. vm_compute. repeat split. Qed.

(** The fourth scenario of the specification: three messages stored,
    the page of two from offset one holds the messages 1 and 2. *)
Lemma getMessages_scenario (now_created now_last : Z) (id name : str)
    (participants : list str) (m0 m1 m2 : Parser.ParsedMessage)
    (rawContent : str) (db : DB) :
  fresh db id →
  getMessages
    (storeChat now_created now_last id name participants [m0; m1; m2] rawContent db)
    id 2 1
  = [message_record id 1 m1; message_record id 2 m2].
Proof.
  intros Hfresh.
  rewrite (getMessages_dense _ _ (message_records id [m0; m1; m2])).
  - by rewrite Nat.min_l by apply MAX_ITERATIONS_ge_2.
  - by apply storeChat_chat_messages.
  - apply message_records_dense.
Qed.

(** C4, counterexample.  A chat of 10001 messages, asked for a page of
    10001 from offset 0: every index from 0 to 10000 lies between the
    offset and the offset plus the limit, and the page returned stops
    after 10000 records. *)
Lemma getMessages_ceiling :
  let msgs := replicate (S MAX_ITERATIONS) hello in
  let db := storeChat 0 0 (js "c") (js "chat") [] msgs [] Database.empty in
  let recs := message_records (js "c") msgs in
  chat_messages db (js "c") ≡ₚ recs
  ∧ dense recs
  ∧ length recs = S MAX_ITERATIONS
  ∧ length (getMessages db (js "c") (S MAX_ITERATIONS) 0) = MAX_ITERATIONS
  ∧ getMessages db (js "c") (S MAX_ITERATIONS) 0
    ≠ take (S MAX_ITERATIONS) (drop 0 recs).
Proof.
  intros msgs db recs.
  assert (Hperm : chat_messages db (js "c") ≡ₚ recs).
  { apply storeChat_chat_messages, fresh_empty. }
  assert (Hdense : dense recs) by apply message_records_dense.
  assert (Hlen : length recs = S MAX_ITERATIONS).
  { unfold recs, msgs. by rewrite message_records_length, length_replicate. }
  assert (Hpage : length (getMessages db (js "c") (S MAX_ITERATIONS) 0)
                  = MAX_ITERATIONS).
  { rewrite (getMessages_dense _ _ recs) by done.
    rewrite length_take, length_drop, Hlen. lia. }
  split; [exact Hperm|]. split; [exact Hdense|].
  split; [exact Hlen|]. split; [exact Hpage|].
  intros Heq. apply (f_equal length) in Heq.
  rewrite Hpage, length_take, length_drop, Hlen in Heq. lia.
Qed.

End StorageProperties.

(** ** The store service *)

(** ** Doubles *)

Section DoubleFacts.
Import Js Store.

Lemma shr_1_nonneg mrs : (0 ≤ shr_m mrs)%Z → (0 ≤ shr_m (shr_1 mrs))%Z.
Proof.
  destruct mrs as [m r s]. simpl. intros Hm.
  destruct m as [|p|p]; [done| |lia]. by destruct p.
Qed.

Lemma iter_pos_nonneg p mrs :
  (0 ≤ shr_m mrs)%Z → (0 ≤ shr_m (SpecFloat.iter_pos shr_1 p mrs))%Z.
Proof.
  revert mrs. induction p as [p IH|p IH|]; intros mrs Hm; simpl.
  - apply IH, IH. by apply shr_1_nonneg.
  - by apply IH, IH.
  - by apply shr_1_nonneg.
Qed.

Lemma shr_fexp_nonneg prec emax m e l :
  (0 ≤ m)%Z → (0 ≤ shr_m (shr_fexp prec emax m e l).1)%Z.
Proof.
  intros Hm. unfold shr_fexp, shr.
  assert (H0 : (0 ≤ shr_m (shr_record_of_loc m l))%Z)
    by (by destruct l as [|[]]).
  destruct (fexp prec emax (Zdigits2 m + e) - e)%Z; simpl; [done| |done].
  by apply iter_pos_nonneg.
Qed.

Lemma round_nearest_even_nonneg m l :
  (0 ≤ m)%Z → (0 ≤ round_nearest_even m l)%Z.
Proof.
  intros Hm. destruct l as [|[]]; simpl; try lia.
  destruct (Z.even m); lia.
Qed.

(** Rounding a magnitude never gives NaN. *)
Lemma binary_round_aux_not_nan prec emax sx mx ex lx :
  (0 ≤ mx)%Z → binary_round_aux prec emax sx mx ex lx ≠ S754_nan.
Proof.
  intros Hm. unfold binary_round_aux.
  pose proof (shr_fexp_nonneg prec emax mx ex lx Hm) as H1.
  destruct (shr_fexp prec emax mx ex lx) as [mrs' e']. simpl in H1.
  pose proof (shr_fexp_nonneg prec emax
                (round_nearest_even (shr_m mrs') (loc_of_shr_record mrs')) e'
                loc_Exact (round_nearest_even_nonneg _ _ H1)) as H2.
  destruct (shr_fexp prec emax _ e' loc_Exact) as [mrs'' e'']. simpl in H2.
  destruct (shr_m mrs'') as [|p|p]; [done| |lia].
  by destruct (e'' <=? emax - prec)%Z.
Qed.

Lemma binary_normalize_not_nan prec emax m e szero :
  binary_normalize prec emax m e szero ≠ S754_nan.
Proof.
  destruct m as [|p|p]; simpl; [done|..]; unfold binary_round;
    destruct (shl_align _ _ _); by apply binary_round_aux_not_nan.
Qed.

Lemma float_of_time_not_nan ms : Prim2SF (float_of_time ms) ≠ S754_nan.
Proof.
  unfold float_of_time. destruct (ms <? 0)%Z.
  - rewrite opp_spec, of_uint63_spec.
    pose proof (binary_normalize_not_nan prec emax
                  (Uint63Axioms.to_Z (Uint63.of_Z (- ms))) 0 false) as H.
    by destruct (binary_normalize _ _ _ _ _).
  - rewrite of_uint63_spec. apply binary_normalize_not_nan.
Qed.

Lemma SFdiv_finite_not_nan x sy my ey :
  x ≠ S754_nan → SFdiv prec emax x (S754_finite sy my ey) ≠ S754_nan.
Proof.
  intros Hx. destruct x as [sx|sx| |sx mx ex]; simpl; try done.
  unfold SFdiv_core_binary.
  set (m' := match _ with Z0 => _ | Zpos _ => _ | Zneg _ => _ end).
  assert (Hm' : (0 ≤ m')%Z).
  { unfold m'. destruct (_ - _ - _)%Z; [lia| |lia]. by apply Z.shiftl_nonneg. }
  pose proof (Z.div_pos m' (Z.pos my) Hm' ltac:(lia)) as Hq.
  unfold Z.div in Hq. destruct (Z.div_eucl m' (Z.pos my)) as [q r].
  by apply binary_round_aux_not_nan.
Qed.

Lemma is_nan_false x : Prim2SF x ≠ S754_nan → PrimFloat.is_nan x = false.
Proof.
  intros Hx. unfold PrimFloat.is_nan. rewrite FloatAxioms.eqb_spec.
  unfold SFeqb, SFcompare. destruct (Prim2SF x) as [[]|[]| |[] m e]; try done.
  - rewrite Z.compare_refl, Pos.compare_refl. done.
  - rewrite Z.compare_refl, Pos.compare_refl. done.
Qed.

(** A quotient with numerator zero and a divisor that [Math.max] took
    against 1 is zero. *)
Lemma zero_over_max x :
  Prim2SF x ≠ S754_nan → (0 / Math_max 1 x)%float = 0%float.
Proof.
  intros Hx. unfold Math_max.
  rewrite (is_nan_false x Hx).
  change (PrimFloat.is_nan 1) with false. cbn [orb].
  destruct (1 <? x)%float eqn:E.
  - rewrite <- (SF2Prim_Prim2SF (0 / x)). rewrite div_spec.
    rewrite ltb_spec in E.
    change (Prim2SF 0) with (S754_zero false).
    change (Prim2SF 1) with (S754_finite false 4503599627370496 (-52)) in E.
    unfold SFltb, SFcompare in E.
    destruct (Prim2SF x) as [[]|[]| |[] m e]; try done.
  - destruct (x <? 1)%float; [done|].
    change (get_sign 1) with false. done.
Qed.

(** The number of days from the reading of the clock back to the
    epoch, as [getChatStats] computes it for an empty list, is a
    number. *)
Lemma empty_range_days now :
  Prim2SF ((getTime (Time 0) - getTime (Time now)) / (1000 * 60 * 60 * 24))%float
  ≠ S754_nan.
Proof.
  rewrite div_spec.
  change (Prim2SF (1000 * 60 * 60 * 24)%float)
    with (S754_finite false 5798205849600000 (-26)).
  apply SFdiv_finite_not_nan. rewrite sub_spec.
  change (Prim2SF (getTime (Time 0))) with (S754_zero false).
  pose proof (float_of_time_not_nan now) as H. simpl getTime.
  by destruct (Prim2SF (float_of_time now)) as [[]|[]| |[] m e].
Qed.

End DoubleFacts.

Section StoreFacts.
Import Js Database Store.

#[local] Arguments js : simpl never.

(** *** First revision *)

(** [loadMessages] of [stores.ts] resolves on every path. *)
Lemma loadMessages_resolves chatId forceRefresh fetch s :
  (loadMessages chatId forceRefresh fetch s).2 = Resolved ().
Proof.
  unfold loadMessages. case_bool_decide; [done|].
  by destruct (if forceRefresh then None else messageCache s !! chatId).
Qed.

(** When the fetch is reached and fails, the cache entry is gone, the
    chat is no longer marked as loading, and the published message list
    and the selection are what they were. *)
Lemma loadMessages_failure (chatId : str) (forceRefresh : bool) error s :
  chatId ∉ loadingStates s →
  (if forceRefresh then None else messageCache s !! chatId)
  = @None (list Message.t) →
  let s' := (loadMessages chatId forceRefresh (Rejected error) s).1 in
  messageCache s' !! chatId = None
  ∧ (chatId ∉ loadingStates s')
  ∧ messages s' = messages s
  ∧ currentChatId (appState s') = currentChatId (appState s)
  ∧ isLoading (appState s') = false.
Proof.
  intros Hl Hc. unfold loadMessages.
  rewrite bool_decide_eq_false_2 by done.
  destruct forceRefresh; [|rewrite Hc];
    (split; [apply lookup_delete_eq|]; split; [|done]; simpl;
   intros [_ Hout]%elem_of_difference; apply Hout; by apply elem_of_singleton).
Qed.

(** [switchToChat] of [stores.ts] selects the chat and resolves,
    whatever the load does. *)
Lemma switchToChat_selects chatId fetch s :
  let r := switchToChat chatId fetch s in
  r.2 = Resolved () ∧ currentChatId (appState r.1) = Some chatId.
Proof.
  unfold switchToChat. simpl. split; [apply loadMessages_resolves|].
  unfold loadMessages. simpl. case_bool_decide; simpl; [done|].
  destruct (messageCache s !! chatId); simpl; [done|].
  by destruct fetch.
Qed.

(** *** Second revision *)

Lemma isCircuitBreakerOpen_state now operation s :
  let r := isCircuitBreakerOpen now operation s in
  messageCache r.1 = messageCache s
  ∧ loadingStates r.1 = loadingStates s
  ∧ messages r.1 = messages s
  ∧ appState r.1 = appState s.
Proof.
  unfold isCircuitBreakerOpen.
  destruct (circuitBreaker s !! operation) as [[failures lastFailure]|]; [|done].
  destruct (MAX_FAILURES <=? failures); [|done].
  by destruct (now - lastFailure <? CIRCUIT_BREAKER_TIMEOUT)%Z.
Qed.

(** In the second revision a failed fetch evicts the cache entry and
    the error reaches the caller. *)
Lemma loadMessages_cb_failure now_check now_fail (chatId : str)
    (forceRefresh : bool) error s :
  (isCircuitBreakerOpen now_check (js "loadMessages-" ++ chatId) s).2 = false →
  chatId ∉ loadingStates s →
  (if forceRefresh then None else messageCache s !! chatId)
  = @None (list Message.t) →
  let r := loadMessages_cb now_check now_fail chatId forceRefresh (Rejected error) s in
  r.2 = Rejected error
  ∧ messageCache r.1 !! chatId = None
  ∧ messages r.1 = []
  ∧ (chatId ∉ loadingStates r.1).
Proof.
  intros Hopen Hl Hc. unfold loadMessages_cb.
  pose proof (isCircuitBreakerOpen_state now_check (js "loadMessages-" ++ chatId) s)
    as (Hcache & Hload & _ & _).
  destruct (isCircuitBreakerOpen now_check (js "loadMessages-" ++ chatId) s)
    as [s0 open]. cbn [fst snd] in *. subst open.
  rewrite Hload, Hcache. rewrite bool_decide_eq_false_2 by done.
  destruct forceRefresh; [|rewrite Hc];
    (split; [done|]; split; [apply lookup_delete_eq|];
     split; [done|]; simpl;
 intros [_ Hout]%elem_of_difference; apply Hout; by apply elem_of_singleton).
Qed.

(** The guard of the second revision: switching to the chat that is
    selected, while nothing is loading, changes nothing. *)
Lemma switchToChat_cb_idempotent now_check now_fail chatId fetch s :
  currentChatId (appState s) = Some chatId →
  isLoading (appState s) = false →
  switchToChat_cb now_check now_fail chatId fetch s = (s, Resolved ()).
Proof.
  intros Hc Hl. unfold switchToChat_cb.
  rewrite bool_decide_eq_true_2 by done. by rewrite Hl.
Qed.

(** The rollback of the second revision: when the load rejects, the
    selection is cleared and the error reaches the caller. *)
Lemma switchToChat_cb_rollback now_check now_fail chatId fetch s error :
  let r := switchToChat_cb now_check now_fail chatId fetch s in
  r.2 = Rejected error →
  currentChatId (appState r.1) = None ∧ isLoading (appState r.1) = false.
Proof.
  unfold switchToChat_cb.
  destruct (bool_decide _ && negb _); [done|].
  case_bool_decide; [done|].
  destruct (loadMessages_cb _ _ _ _ _ _) as [s2 [[]|e]]; simpl; [done|].
  intros _. done.
Qed.

(** *** Statistics *)

Lemma chat_messages_nil db chatId :
  chat_messages db chatId = [] → getAllMessagesForChat db chatId = [].
Proof.
  intros H. apply Permutation_nil_r. rewrite <- H.
  apply getAllMessagesForChat_perm.
Qed.

(** C10.  For a chat that owns no message record, [getChatStats]
    resolves; the count is 0, the tally of senders is empty, the average
    per day is 0, and the range runs from the reading of the clock to
    the epoch: its start is after its end whenever the clock is past the
    epoch. *)
Theorem getChatStats_empty_chat (inherited : str → option str) (db : DB)
    (chatId : str) (now : Z) :
  chat_messages db chatId = [] →
  (0 < now)%Z →
  ∃ st,
    getChatStats inherited now (Resolved (getAllMessagesForChat db chatId))
    = Resolved st
    ∧ messageCount st = 0
    ∧ participantStats st = ∅
    ∧ averageMessagesPerDay st = 0%float
    ∧ dateRange st = (Time now, Time 0)
    ∧ date_ltb (dateRange st).2 (dateRange st).1 = true.
Proof.
  intros Hnone Hnow. rewrite (chat_messages_nil _ _ Hnone).
  eexists. split; [reflexivity|]. cbn [foldl length messageCount
    participantStats averageMessagesPerDay dateRange stats startDate endDate].
  split; [done|]. split; [done|]. split.
  - change (Parser.float_of_nat 0) with 0%float.
    apply zero_over_max, empty_range_days.
  - split; [done|]. by apply Z.ltb_lt.
Qed.

End StoreFacts.

(** C7, at a failing input.  In [stores.ts], a forced reload of the chat
    "c" whose fetch times out evicts the stale cache entry and then
    resolves: the caller is not told of the failure.  (The second revision
    rejects with the error on the same input.) *)
Theorem loadMessages_swallows_error :
  let error := Js.js "Message loading timed out" in
  let r := Store.loadMessages (Js.js "c") true (Store.Rejected error) stale_cache in
  Store.messageCache stale_cache !! Js.js "c"
  = Some [Database.message_record (Js.js "c") 0 hello]
  ∧ Store.messageCache r.1 !! Js.js "c" = None
  ∧ r.2 = Store.Resolved ()
  ∧ (Store.loadMessages_cb 0 0 (Js.js "c") true (Store.Rejected error) stale_cache).2
    = Store.Rejected error.
Proof. vm_compute. repeat split. Qed.

(** C8, at failing inputs.  In [stores.ts], switching to the chat "c"
    while the fetch fails resolves and leaves "c" selected, with nothing
    loaded and nothing cached; and switching to "c" when it is already
    selected and nothing is loading runs the load again and replaces the
    published list.  (The second revision rejects and clears the selection
    in the first case, and returns at once in the second.) *)
Theorem switchToChat_no_guard_no_rollback :
  let error := Js.js "Message loading timed out" in
  let loaded := [Database.message_record (Js.js "c") 0 hello] in
  let failed := Store.switchToChat (Js.js "c") (Store.Rejected error) Store.initial in
  let again := Store.switchToChat (Js.js "c") (Store.Resolved loaded) selected_uncached in
  (failed.2 = Store.Resolved ()
   ∧ Store.currentChatId (Store.appState failed.1) = Some (Js.js "c")
   ∧ Store.messages failed.1 = []
   ∧ Store.messageCache failed.1 !! Js.js "c" = None)
  ∧ (Store.currentChatId (Store.appState selected_uncached) = Some (Js.js "c")
     ∧ Store.isLoading (Store.appState selected_uncached) = false
     ∧ (Js.js "c" ∉ Store.loadingStates selected_uncached)
     ∧ Store.messages selected_uncached = []
     ∧ Store.messages again.1 = loaded
     ∧ again.1 ≠ selected_uncached)
  ∧ (let failed_cb := Store.switchToChat_cb 0 0 (Js.js "c") (Store.Rejected error) Store.initial in
     failed_cb.2 = Store.Rejected error
     ∧ Store.currentChatId (Store.appState failed_cb.1) = None)
  ∧ Store.switchToChat_cb 0 0 (Js.js "c") (Store.Resolved loaded) selected_uncached
    = (selected_uncached, Store.Resolved ()).
Proof.
  intros error loaded failed again.
  split; [vm_compute; repeat split|].
  split.
  - split; [reflexivity|]. split; [reflexivity|].
    split; [apply not_elem_of_empty|]. split; [reflexivity|].
    assert (Hm : Store.messages again.1 = loaded) by (vm_compute; reflexivity).
    split; [exact Hm|]. intros Heq. rewrite Heq in Hm. discriminate Hm.
  - split; [vm_compute; repeat split|].
    vm_compute. reflexivity.
Qed.

(** ** The theorems at the data of the scenarios *)

Section Witnesses.
Import Js Regex Parser Database Store Examples MoreExamples.

(** C5 at [padded_chat], on a host in UTC: the loose line, without the
    blanks around it, is appended to Alice's message, which is the only
    message with and without the line. *)
Lemma parse_unrecognized_line_witness :
  (split LF padded_chat = [first_line] ++ padded_line :: []
   ∧ nonblank_lines first_line = filter nonblank ([first_line] ++ [])
   ∧ exec_start MESSAGE_REGEX padded_line = None
   ∧ exec_start SYSTEM_MESSAGE_REGEX padded_line = None)
  ∧ (∃ tail,
       (parse utc_time 0 0 first_line).1 !! 0
       = Some {| Parser.timestamp := Time 1708811760000;
                 Parser.sender := js "Alice";
                 Parser.content := js "Hello there!" ++ tail |}
       ∧ (parse utc_time 0 0 padded_chat).1
         = <[0 := {| Parser.timestamp := Time 1708811760000;
                     Parser.sender := js "Alice";
                     Parser.content :=
                       js "Hello there!" ++ [LF] ++ trim padded_line ++ tail |}]>
             (parse utc_time 0 0 first_line).1
       ∧ Parser.participants (parse utc_time 0 0 padded_chat).2
         = Parser.participants (parse utc_time 0 0 first_line).2
       ∧ Parser.messageCount (parse utc_time 0 0 padded_chat).2
         = Parser.messageCount (parse utc_time 0 0 first_line).2
       ∧ Parser.dateRange (parse utc_time 0 0 padded_chat).2
         = Parser.dateRange (parse utc_time 0 0 first_line).2)
  ∧ (parse utc_time 0 0 padded_chat).1
    = [ {| Parser.timestamp := Time 1708811760000;
           Parser.sender := js "Alice";
           Parser.content := js "Hello there!" ++ [LF] ++ js "second line" |} ].
Proof.
  assert (H1 : split LF padded_chat = [first_line] ++ padded_line :: [])
    by (vm_compute; reflexivity).
  assert (H2 : nonblank_lines first_line = filter nonblank ([first_line] ++ []))
    by (vm_compute; reflexivity).
  assert (H3 : exec_start MESSAGE_REGEX padded_line = None)
    by (vm_compute; reflexivity).
  assert (H4 : exec_start SYSTEM_MESSAGE_REGEX padded_line = None)
    by (vm_compute; reflexivity).
  assert (Hst : after_lines utc_time (filter nonblank [first_line])
                = {| Parser.messages := [];
                     Parser.participantSet := [js "Alice"];
                     Parser.currentMessage :=
                       Some {| Parser.timestamp := Time 1708811760000;
                               Parser.sender := js "Alice";
                               Parser.content := js "Hello there!" |} |})
    by (vm_compute; reflexivity).
  assert (Hnb : bool_decide (nonblank padded_line) = true)
    by (vm_compute; reflexivity).
  split; [auto|]. split; [|vm_compute; reflexivity].
  pose proof (parse_unrecognized_line utc_time 0 0 padded_chat first_line
                [first_line] [] padded_line H1 H2 H3 H4) as H.
  cbv zeta in H. rewrite Hst, Hnb in H. exact H.
Defined.

(** C5, the case that the wording leaves out.  In the text
    [gapped_chat] a line of blanks follows Alice's message.  It matches
    neither pattern and a message is open when it is read, yet nothing is
    appended for it: the result is that of the text without the line, and
    the content has one line feed, not two, before the next line. *)
Lemma parse_blank_line_dropped :
  split LF gapped_chat = [first_line; blank_line; loose_line]
  ∧ exec_start MESSAGE_REGEX blank_line = None
  ∧ exec_start SYSTEM_MESSAGE_REGEX blank_line = None
  ∧ currentMessage (after_lines utc_time [first_line])
    = Some {| Parser.timestamp := Time 1708811760000;
              Parser.sender := js "Alice";
              Parser.content := js "Hello there!" |}
  ∧ parse utc_time 0 0 gapped_chat = parse utc_time 0 0 wrapped_chat
  ∧ Parser.content <$> (parse utc_time 0 0 gapped_chat).1
    = [js "Hello there!" ++ [LF] ++ js "second line"]
  ∧ Parser.content <$> (parse utc_time 0 0 gapped_chat).1
    ≠ [js "Hello there!" ++ [LF] ++ trim blank_line
       ++ [LF] ++ js "second line"].
Proof.
  split; [vm_compute; reflexivity|]. split; [vm_compute; reflexivity|].
  split; [vm_compute; reflexivity|]. split; [vm_compute; reflexivity|].
  split; [vm_compute; reflexivity|]. split; [vm_compute; reflexivity|].
  vm_compute. discriminate.
Qed.

(** C6 at four texts: a blank one; the text of the third scenario, two
    lines of which none matches; a text of four lines of which one
    matches; and the transcript of the first scenario, both lines of
    which match. *)
Lemma validate_verdict_witness :
  (trim (js "  ") = []
   ∧ validate (js "  ")
     = {| isValid := false; errors := [js "Content is empty"] |})
  ∧ (trim junk ≠ []
     ∧ isValid (validate junk) = false
     ∧ errors (validate junk)
       = [ js "Content does not appear to be a WhatsApp chat export";
           js "Only 0% of lines match expected format";
           js "No valid message format found";
           js "Expected format: " ++ [34%N]
           ++ js "MM/DD/YY, HH:MM - Sender: Message" ++ [34%N] ])
  ∧ (trim quarter_chat ≠ []
     ∧ isValid (validate quarter_chat) = false
     ∧ errors (validate quarter_chat)
       = [ js "Content does not appear to be a WhatsApp chat export";
           js "Only 25% of lines match expected format" ])
  ∧ (trim two_line_chat ≠ []
     ∧ isValid (validate two_line_chat) = true
     ∧ errors (validate two_line_chat) = []).
Proof.
  assert (H0 : trim (js "  ") = []) by (vm_compute; reflexivity).
  assert (H1 : trim junk ≠ []) by (vm_compute; discriminate).
  assert (H2 : trim quarter_chat ≠ []) by (vm_compute; discriminate).
  assert (H3 : trim two_line_chat ≠ []) by (vm_compute; discriminate).
  split; [split; [exact H0|exact (proj1 (validate_verdict (js "  ")) H0)]|].
  split; [|split].
  - pose proof (proj2 (validate_verdict junk) H1) as H. cbv zeta in H.
    assert (Ht : length (take 50 (nonblank_lines junk)) = 2)
      by (vm_compute; reflexivity).
    assert (Hv : length (filter (λ line,
                                   is_Some (exec_start MESSAGE_REGEX line)
                                   ∨ is_Some (exec_start SYSTEM_MESSAGE_REGEX line))
                           (take 50 (nonblank_lines junk))) = 0)
      by (vm_compute; reflexivity).
    rewrite Hv, Ht in H. destruct H as (_ & _ & Hiff & Herr).
    split; [exact H1|]. split.
    + destruct (isValid (validate junk)); [|done].
      destruct (proj1 Hiff eq_refl). lia.
    + rewrite Herr. vm_compute. reflexivity.
  - pose proof (proj2 (validate_verdict quarter_chat) H2) as H. cbv zeta in H.
    assert (Ht : length (take 50 (nonblank_lines quarter_chat)) = 4)
      by (vm_compute; reflexivity).
    assert (Hv : length (filter (λ line,
                                   is_Some (exec_start MESSAGE_REGEX line)
                                   ∨ is_Some (exec_start SYSTEM_MESSAGE_REGEX line))
                           (take 50 (nonblank_lines quarter_chat))) = 1)
      by (vm_compute; reflexivity).
    rewrite Hv, Ht in H. destruct H as (_ & _ & Hiff & Herr).
    split; [exact H2|]. split.
    + destruct (isValid (validate quarter_chat)); [|done].
      destruct (proj1 Hiff eq_refl). lia.
    + rewrite Herr. vm_compute. reflexivity.
  - pose proof (proj2 (validate_verdict two_line_chat) H3) as H. cbv zeta in H.
    assert (Ht : length (take 50 (nonblank_lines two_line_chat)) = 2)
      by (vm_compute; reflexivity).
    assert (Hv : length (filter (λ line,
                                   is_Some (exec_start MESSAGE_REGEX line)
                                   ∨ is_Some (exec_start SYSTEM_MESSAGE_REGEX line))
                           (take 50 (nonblank_lines two_line_chat))) = 2)
      by (vm_compute; reflexivity).
    rewrite Hv, Ht in H. destruct H as (_ & _ & Hiff & Herr).
    split; [exact H3|]. split.
    + apply Hiff. lia.
    + rewrite Herr. vm_compute. reflexivity.
Defined.

(** C9 at the first line of the first scenario. *)
Lemma attributed_line_matches_system_witness :
  (Forall (λ c, is_line_terminator c = false) first_line
   ∧ is_Some (exec_start MESSAGE_REGEX first_line))
  ∧ is_Some (exec_start SYSTEM_MESSAGE_REGEX first_line)
  ∧ parse_line utc_time init first_line
    = on_message utc_time init
        [js "2/24/24"; js "21:56"; js "Alice"; js "Hello there!"].
Proof.
  assert (H1 : Forall (λ c, is_line_terminator c = false) first_line).
  { apply Forall_forall. intros c Hc.
    repeat (apply elem_of_cons in Hc as [->|Hc]; [reflexivity|]).
    by apply elem_of_nil in Hc. }
  assert (H2 : exec_start MESSAGE_REGEX first_line
               = Some [js "2/24/24"; js "21:56"; js "Alice"; js "Hello there!"])
    by (vm_compute; reflexivity).
  assert (H3 : is_Some (exec_start MESSAGE_REGEX first_line))
    by (rewrite H2; eauto).
  split; [auto|]. split.
  - exact (proj1 (attributed_line_matches_system utc_time) first_line H1 H3).
  - exact (proj2 (attributed_line_matches_system utc_time) init first_line _ H2).
Defined.

(** C2 at the store of three messages. *)
Lemma storeChat_records_witness :
  fresh Database.empty (js "c")
  ∧ chat_messages three_messages (js "c")
    ≡ₚ message_records (js "c") [hello; hello; hello]
  ∧ (messages_by_chat_index three_messages (js "c") 0).*2
    = message_records (js "c") [hello; hello; hello]
  ∧ Message.messageIndex <$> message_records (js "c") [hello; hello; hello]
    = [0; 1; 2]
  ∧ length (chat_messages three_messages (js "c")) = 3.
Proof.
  split; [apply fresh_empty|].
  pose proof (storeChat_records 0 0 (js "c") (js "chat") [] [hello; hello; hello]
                [] Database.empty) as (_ & _ & _ & _ & _ & H).
  exact (H (fresh_empty (js "c"))).
Defined.

(** C3 at the store of two chats: the chat "c" goes, the chat "d" stays. *)
Lemma deleteChat_cascade_witness :
  js "d" ≠ js "c"
  ∧ getAllMessagesForChat (deleteChat two_chats (js "c")) (js "c") = []
  ∧ getBookmarksForChat (deleteChat two_chats (js "c")) (js "c") = []
  ∧ getChat (deleteChat two_chats (js "c")) (js "d") = getChat two_chats (js "d")
  ∧ getAllMessagesForChat (deleteChat two_chats (js "c")) (js "d")
    = getAllMessagesForChat two_chats (js "d")
  ∧ getBookmarksForChat (deleteChat two_chats (js "c")) (js "d")
    = getBookmarksForChat two_chats (js "d").
Proof.
  assert (Hne : js "d" ≠ js "c") by (vm_compute; discriminate).
  destruct (deleteChat_cascade two_chats (js "c"))
    as (Hm & Hb & _ & _ & _ & Hother).
  destruct (Hother (js "d") Hne) as (Hc & _ & _ & Hms & Hbs).
  auto 10.
Defined.

(** C4 at the fourth scenario: three messages, a page of two from
    offset one. *)
Lemma getMessages_page_witness :
  (chat_messages three_messages (js "c")
     ≡ₚ message_records (js "c") [hello; hello; hello]
   ∧ dense (message_records (js "c") [hello; hello; hello]))
  ∧ getMessages three_messages (js "c") 2 1
    = take (Nat.min 2 MAX_ITERATIONS)
        (drop 1 (message_records (js "c") [hello; hello; hello]))
  ∧ Message.messageIndex <$> getMessages three_messages (js "c") 2 1
    = seq 1 (Nat.min (Nat.min 2 MAX_ITERATIONS)
               (length (message_records (js "c") [hello; hello; hello]) - 1)).
Proof.
  assert (H1 : chat_messages three_messages (js "c")
               ≡ₚ message_records (js "c") [hello; hello; hello])
    by apply storeChat_chat_messages, fresh_empty.
  assert (H2 : dense (message_records (js "c") [hello; hello; hello]))
    by apply message_records_dense.
  split; [auto|].
  exact (getMessages_page three_messages (js "c") _ 2 1 H1 H2).
Defined.

(** C10 at the empty store, one millisecond after the epoch, in V8. *)
Lemma getChatStats_empty_chat_witness :
  (chat_messages Database.empty (js "c") = [] ∧ (0 < 1)%Z)
  ∧ ∃ st,
      getChatStats MoreExamples.v8_inherited 1
        (Resolved (getAllMessagesForChat Database.empty (js "c")))
      = Resolved st
      ∧ messageCount st = 0
      ∧ participantStats st = ∅
      ∧ averageMessagesPerDay st = 0%float
      ∧ dateRange st = (Time 1, Time 0)
      ∧ date_ltb (dateRange st).2 (dateRange st).1 = true.
Proof.
  assert (H1 : chat_messages Database.empty (js "c") = [])
    by (vm_compute; reflexivity).
  assert (H2 : (0 < 1)%Z) by lia.
  split; [auto|].
  exact (getChatStats_empty_chat MoreExamples.v8_inherited Database.empty
           (js "c") 1 H1 H2).
Defined.

End Witnesses.

(* ===================================================================== *)
(** * Further properties *)
(* ===================================================================== *)

(** ** Decimal numerals *)

Section DecimalFacts.
Import Js.

Lemma js_cons c s : js (String c s) = N_of_ascii c :: js s.
Proof. reflexivity. Qed.

Lemma digit_char (d : N) :
  (d < 10)%N →
  N_of_ascii (pretty_N_char d) = (48 + d)%N ∧ is_digit (48 + d)%N = true.
Proof.
  intros Hd.
  assert (d = 0 ∨ d = 1 ∨ d = 2 ∨ d = 3 ∨ d = 4 ∨ d = 5 ∨ d = 6 ∨ d = 7
          ∨ d = 8 ∨ d = 9)%N as H by lia.
  repeat (destruct H as [->|H]; [by vm_compute|]). subst. by vm_compute.
Qed.

Lemma digits_value_app acc l1 l2 :
  Forall (λ c, is_digit c = true) l1 →
  digits_value acc (l1 ++ l2) = digits_value (digits_value acc l1) l2.
Proof.
  intros H. revert acc. induction H as [|c l1 Hc Hl IH]; intros acc; [done|].
  simpl. rewrite Hc. apply IH.
Qed.

(** What [pretty_N_go] puts in front of its accumulator: the decimal
    digits of the number, most significant first. *)
Lemma pretty_N_go_digits (x : N) :
  ∃ l, Forall (λ c, is_digit c = true) l
       ∧ (∀ s, js (pretty_N_go x s) = l ++ js s)
       ∧ (∀ acc, digits_value acc l
                 = (acc * 10 ^ Z.of_nat (length l) + Z.of_N x)%Z)
       ∧ ((0 < x)%N → l ≠ []).
Proof.
  induction (N.lt_wf_0 x) as [x _ IH].
  destruct (decide (x = 0%N)) as [->|Hx].
  - exists []. split; [constructor|]. split; [done|]. split; [|lia].
    intros acc. simpl. lia.
  - assert (0 < x)%N as Hpos by lia.
    destruct (IH (x `div` 10)%N) as (l & Hl & Hs & Hv & _).
    { by apply N.div_lt. }
    assert ((x `mod` 10) < 10)%N as Hd by (by apply N.mod_lt).
    destruct (digit_char _ Hd) as [Hc Hdig].
    exists (l ++ [(48 + x `mod` 10)%N]). split; [|split; [|split]].
    + apply Forall_app. split; [done|]. by constructor.
    + intros s. rewrite pretty_N_go_step by done.
      rewrite Hs, js_cons, Hc, <- app_assoc. done.
    + intros acc. rewrite digits_value_app by done. rewrite Hv. simpl.
      rewrite Hdig. rewrite length_app. simpl.
      rewrite Nat2Z.inj_add, Z.pow_add_r by lia.
      change (10 ^ Z.of_nat 1)%Z with 10%Z.
      pose proof (N.div_mod x 10 ltac:(done)) as Hdm. lia.
    + intros _. by destruct l.
Qed.

(** The decimal numeral of a natural number: digits only, at least one,
    and [digits_value] reads the number back. *)
Lemma dec_digits (n : nat) :
  Forall (λ c, is_digit c = true) (dec n)
  ∧ dec n ≠ []
  ∧ digits_value 0 (dec n) = Z.of_nat n.
Proof.
  unfold dec, pretty, pretty_nat, pretty, pretty_N.
  destruct (decide (N.of_nat n = 0%N)) as [H0|Hn].
  - assert (n = 0) as -> by lia. split; [|split]; [|done|done].
    repeat constructor.
  - destruct (pretty_N_go_digits (N.of_nat n)) as (l & Hl & Hs & Hv & Hne).
    rewrite Hs. change (js "") with (@nil char). rewrite app_nil_r.
    split; [done|]. split; [apply Hne; lia|].
    rewrite Hv. lia.
Qed.

Lemma trimStart_digit c s : is_digit c = true → trimStart (c :: s) = c :: s.
Proof.
  intros Hc. simpl.
  assert (is_space c = false) as ->; [|done].
  unfold is_digit in Hc. apply andb_prop in Hc as [H1 H2].
  apply N.leb_le in H1, H2. unfold is_space, is_line_terminator.
  repeat match goal with
         | |- context [(c =? ?k)%N] => destruct (N.eqb_spec c k); [lia|]
         end.
  destruct (N.leb_spec 8192 c); [lia|]. done.
Qed.

(** [parseInt] reads back what the decimal rendering writes. *)
Lemma parseInt_dec (n : nat) : parseInt (dec n) = Some (Z.of_nat n).
Proof.
  destruct (dec_digits n) as (Hd & Hne & Hv).
  destruct (dec n) as [|c l] eqn:E; [done|].
  apply Forall_cons in Hd as [Hc Hl].
  unfold parseInt. rewrite trimStart_digit by done.
  unfold is_digit in Hc. apply andb_prop in Hc as [H1 H2].
  apply N.leb_le in H1, H2.
  destruct (N.eqb_spec c 45); [lia|]. destruct (N.eqb_spec c 43); [lia|].
  unfold unsigned_value, is_digit.
  rewrite (proj2 (N.leb_le _ _) H1), (proj2 (N.leb_le _ _) H2). simpl.
  f_equal. exact Hv.
Qed.

(** Splitting at a separator that the parts do not contain. *)
Lemma split_app_sep d a b :
  Forall (λ c, (c =? d)%N = false) a →
  split d (a ++ d :: b) = a :: split d b.
Proof.
  induction 1 as [|c a Hc Ha IH]; simpl.
  - by rewrite N.eqb_refl.
  - rewrite Hc, IH. done.
Qed.

Lemma split_no_sep d a :
  Forall (λ c, (c =? d)%N = false) a → split d a = [a].
Proof.
  induction 1 as [|c a Hc Ha IH]; simpl; [done|]. by rewrite Hc, IH.
Qed.

Lemma digits_no_sep d l :
  is_digit d = false →
  Forall (λ c, is_digit c = true) l → Forall (λ c, (c =? d)%N = false) l.
Proof.
  intros Hd H. eapply Forall_impl; [exact H|]. intros c Hc. simpl in Hc.
  destruct (N.eqb_spec c d) as [->|]; [congruence|done].
Qed.

(** [parseInt] on a string of digits, leading zeros included. *)
Lemma parseInt_digits s :
  Forall (λ c, is_digit c = true) s → s ≠ [] →
  parseInt s = Some (digits_value 0 s).
Proof.
  intros Hd Hne. destruct s as [|c l]; [done|].
  apply Forall_cons in Hd as [Hc Hl].
  unfold parseInt. rewrite trimStart_digit by done.
  pose proof Hc as Hc'. unfold is_digit in Hc'.
  apply andb_prop in Hc' as [H1 H2]. apply N.leb_le in H1, H2.
  destruct (N.eqb_spec c 45); [lia|]. destruct (N.eqb_spec c 43); [lia|].
  unfold unsigned_value. by rewrite Hc.
Qed.

Lemma digits_value_zeros z s :
  digits_value 0 (replicate z (ch "0") ++ s) = digits_value 0 s.
Proof. induction z as [|z IH]; [done|]. exact IH. Qed.

(** A numeral padded with zeros: digits only, at least one, and
    [parseInt] reads the number back. *)
Lemma parseInt_numeral width n :
  Forall (λ c, is_digit c = true) (ParserTerms.numeral width n)
  ∧ parseInt (ParserTerms.numeral width n) = Some (Z.of_nat n).
Proof.
  destruct (dec_digits n) as (Hd & Hne & Hv).
  assert (Hall : Forall (λ c, is_digit c = true) (ParserTerms.numeral width n)).
  { unfold ParserTerms.numeral. apply Forall_app. split; [|done].
    by apply Forall_replicate. }
  split; [done|]. rewrite parseInt_digits.
  - unfold ParserTerms.numeral. by rewrite digits_value_zeros, Hv.
  - done.
  - unfold ParserTerms.numeral. by destruct (replicate _ _), (dec n).
Qed.

End DecimalFacts.

(** ** Dates of the transcript *)

Section ParseDateTimeFacts.
Import Js Parser.

Variable local_time : Z -> Z -> Z -> Z -> Z -> Date.

(** X1.  On a date and a time written with decimal numerals, with or
    without zeros in front, [parseDateTime] passes the numbers to the
    [Date] constructor with the month turned into an index and the year
    windowed: a year below 100 counts from 1900 when it is above 50 and
    from 2000 otherwise, any other year is taken as it is.  No field is
    checked against the calendar.  The widths are those that the line
    patterns let through: one or two digits for the month, the day and
    the hours, two to four for the year, two for the minutes. *)
Theorem parseDateTime_numerals (month day year hours minutes : nat)
    (wm wd wy wh : nat) :
  length (ParserTerms.numeral wm month) ≤ 2 →
  length (ParserTerms.numeral wd day) ≤ 2 →
  2 ≤ length (ParserTerms.numeral wy year) ≤ 4 →
  length (ParserTerms.numeral wh hours) ≤ 2 →
  length (ParserTerms.numeral 2 minutes) = 2 →
  parseDateTime local_time
    (ParserTerms.numeral wm month ++ js "/" ++ ParserTerms.numeral wd day
     ++ js "/" ++ ParserTerms.numeral wy year)
    (ParserTerms.numeral wh hours ++ js ":" ++ ParserTerms.numeral 2 minutes)
  = local_time
      (if (year <? 100)%nat
       then (if (50 <? year)%nat
             then 1900 + Z.of_nat year else 2000 + Z.of_nat year)%Z
       else Z.of_nat year)
      (Z.of_nat month - 1)%Z (Z.of_nat day) (Z.of_nat hours) (Z.of_nat minutes).
Proof.
  intros _ _ _ _ _. unfold parseDateTime.
  assert (Hs : ∀ w n, Forall (λ c, (c =? ch "/")%N = false)
                        (ParserTerms.numeral w n)).
  { intros w n. apply digits_no_sep; [done|]. apply parseInt_numeral. }
  assert (Hc : ∀ w n, Forall (λ c, (c =? ch ":")%N = false)
                        (ParserTerms.numeral w n)).
  { intros w n. apply digits_no_sep; [done|]. apply parseInt_numeral. }
  assert (Hp : ∀ w n, parseInt (ParserTerms.numeral w n) = Some (Z.of_nat n)).
  { intros w n. apply parseInt_numeral. }
  change (js "/") with [ch "/"]. change (js ":") with [ch ":"]. simpl app.
  rewrite !split_app_sep, !split_no_sep by done.
  rewrite !fmap_cons, !Hp. simpl.
  assert ((Z.of_nat year <? 100)%Z = (year <? 100)) as ->.
  { destruct (Nat.ltb_spec year 100), (Z.ltb_spec (Z.of_nat year) 100); lia. }
  assert ((50 <? Z.of_nat year)%Z = (50 <? year)) as ->.
  { destruct (Nat.ltb_spec 50 year), (Z.ltb_spec 50 (Z.of_nat year)); lia. }
  done.
Qed.

End ParseDateTimeFacts.

(** ** The loop of the parser *)

Section ParseLoopFacts.
Import Js Regex Parser ParserTerms.

Variable local_time : Z -> Z -> Z -> Z -> Z -> Date.

Lemma test_start_exec r s :
  test_start r s = true ↔ is_Some (exec_start r s).
Proof. unfold test_start. apply bool_decide_eq_true. Qed.

Lemma matches_grammar_false line :
  exec_start MESSAGE_REGEX line = None →
  exec_start SYSTEM_MESSAGE_REGEX line = None →
  matches_grammar line = false.
Proof.
  intros H1 H2. unfold matches_grammar, test_start. rewrite H1, H2.
  rewrite !bool_decide_eq_false_2; [done|by intros []..].
Qed.

Lemma matches_grammar_true line g :
  exec_start MESSAGE_REGEX line = Some g
  ∨ exec_start SYSTEM_MESSAGE_REGEX line = Some g →
  matches_grammar line = true.
Proof.
  unfold matches_grammar, test_start. intros [H|H]; rewrite H.
  - rewrite bool_decide_eq_true_2 by eauto. done.
  - rewrite (bool_decide_eq_true_2 (is_Some (Some g))) by eauto.
    apply orb_true_r.
Qed.

(** One line adds one message when it matches a pattern and none when
    it does not. *)
Lemma parse_line_count st line :
  length (flush (parse_line local_time st line))
  = length (flush st) + (if matches_grammar line then 1 else 0).
Proof.
  unfold parse_line.
  destruct (exec_start MESSAGE_REGEX line) as [g|] eqn:HM.
  - rewrite (matches_grammar_true line g) by auto.
    unfold on_message, flush at 1. simpl. by rewrite length_app.
  - destruct (exec_start SYSTEM_MESSAGE_REGEX line) as [g|] eqn:HS.
    + rewrite (matches_grammar_true line g) by auto.
      unfold on_system, flush at 1. simpl. by rewrite length_app.
    + rewrite matches_grammar_false by done. rewrite Nat.add_0_r.
      unfold on_other.
      destruct (currentMessage st) as [m|] eqn:E; [|done].
      case_bool_decide; [|done].
      unfold flush. simpl. rewrite E. by rewrite !length_app.
Qed.

Lemma parse_lines_count ls st :
  length (flush (fold_left (parse_line local_time) ls st))
  = length (flush st) + length (List.filter matches_grammar ls).
Proof.
  revert st. induction ls as [|line ls IH]; intros st; simpl; [lia|].
  rewrite IH, parse_line_count. destruct (matches_grammar line); simpl; lia.
Qed.

(** X2.  [parse] finds exactly one message for every non-blank line that
    matches one of the two patterns: lines that match neither add to a
    message or are dropped, and no line is counted twice. *)
Theorem parse_message_count (now_start now_end : Z) (text : str) :
  length (parse local_time now_start now_end text).1
  = length (List.filter matches_grammar (nonblank_lines text))
  ∧ messageCount (parse local_time now_start now_end text).2
    = length (List.filter matches_grammar (nonblank_lines text)).
Proof.
  unfold parse. simpl. by rewrite parse_lines_count.
Qed.

Lemma set_add_elem x y l : x ∈ set_add y l ↔ x = y ∨ x ∈ l.
Proof.
  unfold set_add. case_bool_decide as H.
  - split; [auto|]. by intros [->|?].
  - rewrite elem_of_app, list_elem_of_singleton. tauto.
Qed.

Lemma set_add_NoDup y l : NoDup l → NoDup (set_add y l).
Proof.
  intros Hl. unfold set_add. case_bool_decide as H; [done|].
  apply NoDup_app. split; [done|]. split; [|apply NoDup_singleton].
  intros x Hx ->%list_elem_of_singleton. done.
Qed.

Lemma senders_on_other st line : senders (on_other st line) = senders st.
Proof.
  unfold on_other.
  destruct (currentMessage st) as [m|] eqn:E; [|done].
  case_bool_decide; [|done].
  unfold senders, flush. simpl. rewrite E. by rewrite !fmap_app.
Qed.

Lemma parse_line_participants st line :
  participants_ok st → participants_ok (parse_line local_time st line).
Proof.
  intros (Hnd & Hin & Hout). unfold parse_line.
  destruct (exec_start MESSAGE_REGEX line) as [g|].
  - set (s := trim (strip_start TILDE_PREFIX (nth 2 g []))).
    assert (Hs : senders (on_message local_time st g) = senders st ++ [s]).
    { unfold senders, on_message, flush at 1. simpl. by rewrite fmap_app. }
    split; [by apply set_add_NoDup|]. rewrite Hs. simpl. split.
    + intros p [->|Hp]%set_add_elem; apply elem_of_app;
        [right; by left|left; auto].
    + intros x [Hx|Hx]%elem_of_app.
      * destruct (Hout x Hx); [by left|right]. apply set_add_elem. by right.
      * apply list_elem_of_singleton in Hx as ->.
        right. apply set_add_elem. by left.
  - destruct (exec_start SYSTEM_MESSAGE_REGEX line) as [g|].
    + assert (Hs : senders (on_system local_time st g)
                   = senders st ++ [js "System"]).
      { unfold senders, on_system, flush at 1. simpl. by rewrite fmap_app. }
      split; [done|]. rewrite Hs. simpl. split.
      * intros p Hp. apply elem_of_app. left. auto.
      * intros x [Hx|Hx]%elem_of_app; [auto|].
        apply list_elem_of_singleton in Hx as ->. by left.
    + split; [|rewrite senders_on_other; split]; try done.
      all: unfold on_other; destruct (currentMessage st); [|done];
        by case_bool_decide.
Qed.

Lemma parse_lines_participants ls st :
  participants_ok st →
  participants_ok (fold_left (parse_line local_time) ls st).
Proof.
  revert st. induction ls as [|line ls IH]; intros st H; simpl; [done|].
  by apply IH, parse_line_participants.
Qed.

Lemma init_participants : participants_ok init.
Proof.
  split; [constructor|]. split; intros x Hx; by apply elem_of_nil in Hx.
Qed.

(** X3.  The participants that [parse] reports are, without repetition,
    the senders of its messages other than "System": every participant
    sent a message, and every message was sent by a participant or bears
    the sender "System". *)
Theorem parse_participants (now_start now_end : Z) (text : str) :
  let msgs := (parse local_time now_start now_end text).1 in
  let meta := (parse local_time now_start now_end text).2 in
  NoDup (participants meta)
  ∧ (∀ p, p ∈ participants meta
          ↔ p ≠ js "System" ∧ ∃ m, m ∈ msgs ∧ sender m = p).
Proof.
  intros msgs meta.
  destruct (parse_lines_participants (nonblank_lines text) init init_participants)
    as (Hnd & Hin & Hout).
  unfold meta, msgs, parse. simpl. split; [by apply NoDup_filter|].
  intros p. rewrite list_elem_of_filter. split.
  - intros [Hne Hp]. split; [done|].
    apply Hin, list_elem_of_fmap in Hp as (m & -> & Hm). eauto.
  - intros [Hne (m & Hm & <-)]. split; [done|].
    destruct (Hout (sender m)); [|done|done].
    apply list_elem_of_fmap. eauto.
Qed.

(** A text that [validate] accepts has a line that matches a pattern. *)
Lemma validate_valid_count content :
  isValid (validate content) = true →
  validMessageCount (nonblank_lines content) ≠ 0.
Proof.
  unfold validate. case_bool_decide; [done|].
  destruct (length (nonblank_lines content) =? 0); [done|]. simpl.
  intros Hlen%Nat.eqb_eq Hv. rewrite length_app in Hlen.
  unfold format_errors in Hlen. rewrite Hv in Hlen. simpl in Hlen. lia.
Qed.

Lemma filter_firstn_length {A} (f : A → bool) n l :
  length (List.filter f (firstn n l)) ≤ length (List.filter f l).
Proof.
  revert n. induction l as [|a l IH]; intros [|n]; simpl; try lia.
  specialize (IH n). destruct (f a); simpl; lia.
Qed.

(** X4.  A text that [validate] accepts is never parsed to an empty
    chat: [parse] finds at least one message in it. *)
Theorem validate_then_parse (now_start now_end : Z) (content : str) :
  isValid (validate content) = true →
  (parse local_time now_start now_end content).1 ≠ [].
Proof.
  intros Hvalid%validate_valid_count Hnil.
  apply (f_equal length) in Hnil. unfold parse in Hnil. simpl in Hnil.
  rewrite parse_lines_count in Hnil. simpl in Hnil.
  apply Hvalid. unfold validMessageCount.
  rewrite sample_nonblank_lines.
  pose proof (filter_firstn_length matches_grammar 50 (nonblank_lines content)).
  lia.
Qed.

End ParseLoopFacts.

(** ** Keys of the message store *)

Section MessageKeyFacts.
Import Js Database Storage.

Lemma digits_then_dash d1 d2 (x y : str) :
  Forall (λ c, is_digit c = true) d1 →
  Forall (λ c, is_digit c = true) d2 →
  d1 ++ 45%N :: x = d2 ++ 45%N :: y → d1 = d2 ∧ x = y.
Proof.
  intros H1. revert d2. induction H1 as [|c d1 Hc H1 IH]; intros d2 H2 Heq.
  - destruct H2 as [|c' d2 Hc' H2]; simpl in Heq.
    + by injection Heq.
    + injection Heq as <- _. by vm_compute in Hc'.
  - destruct H2 as [|c' d2 Hc' H2]; simpl in Heq.
    + injection Heq as -> _. by vm_compute in Hc.
    + injection Heq as -> Heq. destruct (IH d2 H2 Heq) as [-> ->]. done.
Qed.

(** The key of a message record tells the chat and the position. *)
Lemma message_key_inj_both a i b j :
  message_key a i = message_key b j → a = b ∧ i = j.
Proof.
  unfold message_key. change (js "-") with [45%N]. simpl. intros Heq.
  apply (f_equal (@rev char)) in Heq.
  rewrite !rev_app_distr in Heq. simpl in Heq. rewrite <- !app_assoc in Heq.
  simpl in Heq.
  apply digits_then_dash in Heq as [Hd Ha].
  - apply (f_equal (@rev char)) in Hd, Ha. rewrite !rev_involutive in Hd, Ha.
    split; [done|]. unfold dec in Hd. apply js_inj in Hd.
    by apply (inj pretty) in Hd.
  - apply Forall_rev, dec_digits.
  - apply Forall_rev, dec_digits.
Qed.

Lemma well_keyed_empty : well_keyed Database.empty.
Proof. intros k m H. simpl in H. by rewrite lookup_empty in H. Qed.

Lemma well_keyed_storeChat nc nl id name ps msgs raw db :
  well_keyed db → well_keyed (storeChat nc nl id name ps msgs raw db).
Proof.
  intros Hwk k m [(i & msg & Hi & -> & ->)|[_ Hm]]%storeChat_messages_lookup.
  - done.
  - by apply Hwk.
Qed.

Lemma well_keyed_deleteChat db id :
  well_keyed db → well_keyed (deleteChat db id).
Proof. intros Hwk k m [Hm _]%deleteChat_messages. by apply Hwk. Qed.

(** X5.  The store keeps its message records filed by chat and
    position: the property holds of the empty store and is kept by
    [storeChat] and by [deleteChat], so two records of a store built with
    them never share a chat id and a position. *)
Theorem well_keyed_invariant :
  well_keyed Database.empty
  ∧ (∀ nc nl id name ps msgs raw db,
        well_keyed db → well_keyed (storeChat nc nl id name ps msgs raw db))
  ∧ (∀ db id, well_keyed db → well_keyed (deleteChat db id))
  ∧ (∀ db k1 k2 m1 m2,
        well_keyed db →
        messages db !! k1 = Some m1 → messages db !! k2 = Some m2 →
        Message.chatId m1 = Message.chatId m2 →
        Message.messageIndex m1 = Message.messageIndex m2 →
        k1 = k2 ∧ m1 = m2).
Proof.
  split; [apply well_keyed_empty|].
  split; [apply well_keyed_storeChat|].
  split; [apply well_keyed_deleteChat|].
  intros db k1 k2 m1 m2 Hwk H1 H2 Hc Hi.
  destruct (Hwk _ _ H1) as [-> _]. destruct (Hwk _ _ H2) as [-> _].
  rewrite Hc, Hi in *. split; [done|]. congruence.
Qed.

#[global] Instance by_index_then_key_trans : Transitive by_index_then_key.
Proof.
  intros p q r. unfold by_index_then_key.
  intros [H1|[H1 L1]] [H2|[H2 L2]]; [left; lia..|].
  right. split; [lia|]. by eapply str_leb_trans.
Qed.

(** Two selections from one store with the same entries come in the
    same order, for any total order that tells entries apart by key. *)
Lemma sorted_entries_unique {V} (R : relation (str * V))
    `{!Total R, !Transitive R, ∀ p q, Decision (R p q)}
    (store : gmap str V) (l1 l2 : list (str * V)) :
  (∀ p q, R p q → R q p → p.1 = q.1) →
  l1 ≡ₚ l2 → (∀ p, p ∈ l1 → store !! p.1 = Some p.2) →
  merge_sort R l1 = merge_sort R l2.
Proof.
  intros Hkey Hperm Hstore.
  apply (Sorted_unique_strong R).
  - intros [k1 v1] [k2 v2] H1 H2 Hle Hge.
    rewrite merge_sort_Permutation in H1, H2. rewrite <- Hperm in H2.
    apply Hstore in H1, H2. pose proof (Hkey _ _ Hle Hge) as Hk.
    simpl in *. subst. congruence.
  - by apply Sorted_merge_sort.
  - by apply Sorted_merge_sort.
  - by rewrite !merge_sort_Permutation.
Qed.

Lemma by_index_then_key_keys p q :
  by_index_then_key p q → by_index_then_key q p → p.1 = q.1.
Proof.
  unfold by_index_then_key. intros [?|[? L1]] [?|[? L2]]; try lia.
  by apply str_leb_antisym.
Qed.

Lemma storeChat_other_lookup nc nl id name ps msgs raw db other k m :
  well_keyed db → other ≠ id → Message.chatId m = other →
  messages (storeChat nc nl id name ps msgs raw db) !! k = Some m
  ↔ messages db !! k = Some m.
Proof.
  intros Hwk Hne Hc. rewrite storeChat_messages_lookup. split.
  - intros [(i & msg & _ & _ & ->)|[_ Hm]]; [|done]. simpl in Hc. congruence.
  - intros Hm. right. split; [|done]. intros i _ Heq.
    destruct (Hwk _ _ Hm) as [Hk _]. rewrite Hk in Heq.
    apply message_key_inj_both in Heq as [Heq _]. congruence.
Qed.

(** X6.  Storing a chat does not disturb another chat: in a store whose
    records are filed by chat and position, the message records of every
    other chat id, the full read of them and every page of them are after
    [storeChat] what they were before. *)
Theorem storeChat_other_chats (now_created now_last : Z) (id name : str)
    (participants : list str) (msgs : list Parser.ParsedMessage)
    (rawContent : str) (db : DB) (other : str) :
  well_keyed db →
  other ≠ id →
  let db' := storeChat now_created now_last id name participants msgs rawContent db in
  (∀ k m, Message.chatId m = other →
     messages db' !! k = Some m ↔ messages db !! k = Some m)
  ∧ getAllMessagesForChat db' other = getAllMessagesForChat db other
  ∧ (∀ limit offset,
       getMessages db' other limit offset = getMessages db other limit offset).
Proof.
  intros Hwk Hne db'.
  assert (Hl : ∀ k m, Message.chatId m = other →
             messages db' !! k = Some m ↔ messages db !! k = Some m).
  { intros k m Hc. by apply (storeChat_other_lookup _ _ _ _ _ _ _ _ other). }
  split; [exact Hl|]. split.
  - unfold getAllMessagesForChat, messages_by_chat. f_equal.
    apply (sorted_by_key_unique (messages db')).
    + apply NoDup_Permutation; [apply NoDup_filter, NoDup_map_to_list..|].
      intros [k m]. rewrite !list_elem_of_filter, !elem_of_map_to_list. simpl.
      split; intros [Hc H]; (split; [done|]); by apply (Hl k m Hc).
    + intros [k m] [_ H]%list_elem_of_filter. by apply elem_of_map_to_list.
  - intros limit offset. unfold getMessages, messages_by_chat_index. f_equal.
    apply (sorted_entries_unique _ (messages db')).
    + apply by_index_then_key_keys.
    + apply NoDup_Permutation; [apply NoDup_filter, NoDup_map_to_list..|].
      intros [k m]. rewrite !list_elem_of_filter, !elem_of_map_to_list. simpl.
      split; intros [[Hc Ho] H]; (split; [done|]); by apply (Hl k m Hc).
    + intros [k m] [_ H]%list_elem_of_filter. by apply elem_of_map_to_list.
Qed.

End MessageKeyFacts.

(** ** The order of the full read of a chat *)

Section ReadOrderFacts.
Import Js Database Storage.

Lemma str_leb_app_prefix p a b : str_leb (p ++ a) (p ++ b) = str_leb a b.
Proof.
  induction p as [|x p IH]; simpl; [done|].
  by rewrite N.ltb_irrefl, N.eqb_refl.
Qed.

Lemma dec_small i : i < 10 → dec i = [(48 + N.of_nat i)%N].
Proof.
  intros Hi. do 10 (destruct i as [|i]; [by vm_compute|]). lia.
Qed.

Lemma message_key_le_small id i j :
  i ≤ j → j < 10 → str_leb (message_key id i) (message_key id j) = true.
Proof.
  intros Hij Hj. unfold message_key. rewrite !str_leb_app_prefix.
  rewrite !dec_small by lia. simpl.
  destruct (N.ltb_spec (48 + N.of_nat i) (48 + N.of_nat j)); [done|].
  destruct (N.eqb_spec (48 + N.of_nat i) (48 + N.of_nat j)); [done|lia].
Qed.

Lemma Sorted_lookup_intro {A} (R : relation A) l :
  (∀ i x y, l !! i = Some x → l !! S i = Some y → R x y) → Sorted R l.
Proof.
  induction l as [|a l IH]; intros H; [constructor|]. constructor.
  - apply IH. intros i x y Hx Hy. by apply (H (S i)).
  - destruct l as [|b l]; constructor. by apply (H 0).
Qed.

Lemma StronglySorted_lookup {A} (R : relation A) l i j x y :
  StronglySorted R l → i < j → l !! i = Some x → l !! j = Some y → R x y.
Proof.
  intros Hs. revert i j. induction Hs as [|a l Hs IH Hall]; intros i j Hij Hi Hj.
  - done.
  - destruct j as [|j]; [lia|]. destruct i as [|i]; simpl in *.
    + injection Hi as <-. rewrite Forall_lookup in Hall. by eapply Hall.
    + apply (IH i j); [lia|done..].
Qed.

Lemma stored_entries_lookup id msgs i :
  stored_entries id msgs !! i
  = (λ msg, (message_key id i, message_record id i msg)) <$> msgs !! i.
Proof. unfold stored_entries. apply list_lookup_imap. Qed.

Lemma stored_entries_sorted_small id msgs :
  length msgs ≤ 10 → Sorted by_primary_key (stored_entries id msgs).
Proof.
  intros Hlen. apply Sorted_lookup_intro. intros i x y.
  rewrite !stored_entries_lookup.
  destruct (msgs !! i) eqn:Ei; [|done].
  destruct (msgs !! S i) eqn:Es; [|done]. simpl. intros [= <-] [= <-].
  apply lookup_lt_Some in Es. unfold by_primary_key. simpl.
  apply message_key_le_small; lia.
Qed.

Lemma messages_by_chat_stored nc nl id name ps msgs raw db :
  fresh db id →
  messages_by_chat (storeChat nc nl id name ps msgs raw db) id
  ≡ₚ stored_entries id msgs.
Proof.
  intros Hfresh. unfold messages_by_chat.
  rewrite merge_sort_Permutation. by apply storeChat_entries.
Qed.

(** X7.  For a new chat of at most ten messages, the full read of the
    chat ([getAllMessagesForChat], the list the service loads and shows)
    returns the records in the order of the input. *)
Theorem getAllMessagesForChat_small (now_created now_last : Z) (id name : str)
    (participants : list str) (msgs : list Parser.ParsedMessage)
    (rawContent : str) (db : DB) :
  fresh db id →
  length msgs ≤ 10 →
  getAllMessagesForChat
    (storeChat now_created now_last id name participants msgs rawContent db) id
  = message_records id msgs.
Proof.
  intros Hfresh Hlen. unfold getAllMessagesForChat.
  rewrite <- stored_entries_values. f_equal.
  pose proof (messages_by_chat_stored now_created now_last id name participants
                msgs rawContent db Hfresh) as Hperm.
  apply (Sorted_unique_strong by_primary_key); [| |by apply stored_entries_sorted_small|done].
  - intros [k1 m1] [k2 m2] H1 H2 Hle Hge. rewrite Hperm in H1.
    apply list_elem_of_lookup in H1 as [i Hi], H2 as [j Hj].
    rewrite stored_entries_lookup in Hi, Hj.
    destruct (msgs !! i) eqn:Ei; [|done]. destruct (msgs !! j) eqn:Ej; [|done].
    simpl in Hi, Hj. injection Hi as <- <-. injection Hj as <- <-.
    unfold by_primary_key in Hle, Hge. simpl in Hle, Hge.
    pose proof (str_leb_antisym _ _ Hle Hge) as Hk.
    apply message_key_inj in Hk as ->. congruence.
  - unfold messages_by_chat. apply Sorted_merge_sort, _.
Qed.

(** X8.  For a new chat of more than ten messages, the full read of the
    chat is not in the order of the input: the records come in the order
    of their ids as strings, so the message at position 10 is returned
    before the message at position 2. *)
Theorem getAllMessagesForChat_long (now_created now_last : Z) (id name : str)
    (participants : list str) (msgs : list Parser.ParsedMessage)
    (rawContent : str) (db : DB) (m2 m10 : Parser.ParsedMessage) :
  fresh db id →
  msgs !! 2 = Some m2 →
  msgs !! 10 = Some m10 →
  precedes
    (getAllMessagesForChat
       (storeChat now_created now_last id name participants msgs rawContent db) id)
    (message_record id 10 m10) (message_record id 2 m2).
Proof.
  intros Hfresh H2 H10.
  set (db' := storeChat now_created now_last id name participants msgs rawContent db).
  pose proof (messages_by_chat_stored now_created now_last id name participants
                msgs rawContent db Hfresh) as Hperm.
  fold db' in Hperm.
  assert (Hs : StronglySorted by_primary_key (messages_by_chat db' id)).
  { apply Sorted_StronglySorted; [apply _|].
    unfold messages_by_chat. apply Sorted_merge_sort, _. }
  assert (He2 : (message_key id 2, message_record id 2 m2)
                ∈ messages_by_chat db' id).
  { rewrite Hperm. apply list_elem_of_lookup. exists 2.
    by rewrite stored_entries_lookup, H2. }
  assert (He10 : (message_key id 10, message_record id 10 m10)
                 ∈ messages_by_chat db' id).
  { rewrite Hperm. apply list_elem_of_lookup. exists 10.
    by rewrite stored_entries_lookup, H10. }
  apply list_elem_of_lookup in He2 as [j Hj], He10 as [i Hi].
  assert (Hlt : str_leb (message_key id 2) (message_key id 10) = false).
  { unfold message_key. rewrite !str_leb_app_prefix. by vm_compute. }
  exists i, j. unfold getAllMessagesForChat. rewrite !list_lookup_fmap, Hi, Hj.
  split; [|done].
  destruct (lt_eq_lt_dec i j) as [[?|Heq]|Hgt]; [done|..].
  - subst. rewrite Hi in Hj. injection Hj as Hk _.
    apply message_key_inj in Hk. lia.
  - pose proof (StronglySorted_lookup _ _ _ _ _ _ Hs Hgt Hj Hi) as Hle.
    unfold by_primary_key in Hle. simpl in Hle. congruence.
Qed.

End ReadOrderFacts.

(** ** Listings, bookmarks and search in the storage engine *)

Section ListingFacts.
Import Js Database Storage.

#[global] Instance by_time_then_key_total {V} (time : V → Date) :
  Total (by_time_then_key time).
Proof.
  intros p q. unfold by_time_then_key.
  destruct (Z.lt_trichotomy (time_of (time p.2)) (time_of (time q.2)))
    as [?|[Heq|?]]; [by left; left| |by right; left].
  destruct (str_leb_total p.1 q.1); [left|right]; right; by split.
Qed.

(** A read of a date index and its reversal: the records that have a
    valid date, each once, the latest first. *)
Lemma date_index_listing {V} (time : V → Date) (store : gmap str V) :
  let listing :=
    reverse (merge_sort (by_time_then_key time)
               (filter (λ p, has_time (time p.2)) (map_to_list store))).*2 in
  listing ≡ₚ (filter (λ p, has_time (time p.2)) (map_to_list store)).*2
  ∧ Sorted (λ a b, (time_of (time b) ≤ time_of (time a))%Z) listing.
Proof.
  intros listing. unfold listing. split.
  - by rewrite reverse_Permutation, merge_sort_Permutation.
  - apply (Sorted_reverse (λ a b, (time_of (time a) ≤ time_of (time b))%Z)).
    apply (Sorted_fmap _ (by_time_then_key time)).
    + intros p q. unfold by_time_then_key. lia.
    + apply Sorted_merge_sort, _.
Qed.

(** X9.  [getAllChats] lists every chat whose [lastMessageAt] is a
    valid date, each once, from the latest to the earliest; a chat whose
    [lastMessageAt] is the invalid date is not listed.  [getAllBookmarks]
    does the same with [createdAt]. *)
Theorem listings_latest_first (db : DB) :
  (getAllChats db
     ≡ₚ (filter (λ p, has_time (Chat.lastMessageAt p.2)) (map_to_list (chats db))).*2
   ∧ Sorted (λ a b, (time_of (Chat.lastMessageAt b)
                     ≤ time_of (Chat.lastMessageAt a))%Z) (getAllChats db)
   ∧ ∀ c, c ∈ getAllChats db
          ↔ (∃ k, chats db !! k = Some c) ∧ Chat.lastMessageAt c ≠ InvalidDate)
  ∧ (getAllBookmarks db
       ≡ₚ (filter (λ p, has_time (Bookmark.createdAt p.2))
             (map_to_list (bookmarks db))).*2
     ∧ Sorted (λ a b, (time_of (Bookmark.createdAt b)
                       ≤ time_of (Bookmark.createdAt a))%Z) (getAllBookmarks db)
     ∧ ∀ b, b ∈ getAllBookmarks db
            ↔ (∃ k, bookmarks db !! k = Some b)
              ∧ Bookmark.createdAt b ≠ InvalidDate).
Proof.
  split.
  - destruct (date_index_listing Chat.lastMessageAt (chats db)) as [Hp Hs].
    split; [exact Hp|]. split; [exact Hs|].
    intros c. unfold getAllChats, chats_by_lastMessage. rewrite Hp.
    rewrite list_elem_of_fmap. split.
    + intros ([k c'] & -> & [Ht Hin]%list_elem_of_filter).
      apply elem_of_map_to_list in Hin. eauto.
    + intros [[k Hk] Ht]. exists (k, c). split; [done|].
      apply list_elem_of_filter. split; [done|]. by apply elem_of_map_to_list.
  - destruct (date_index_listing Bookmark.createdAt (bookmarks db)) as [Hp Hs].
    split; [exact Hp|]. split; [exact Hs|].
    intros b. unfold getAllBookmarks, bookmarks_by_createdAt. rewrite Hp.
    rewrite list_elem_of_fmap. split.
    + intros ([k b'] & -> & [Ht Hin]%list_elem_of_filter).
      apply elem_of_map_to_list in Hin. eauto.
    + intros [[k Hk] Ht]. exists (k, b). split; [done|].
      apply list_elem_of_filter. split; [done|]. by apply elem_of_map_to_list.
Qed.

End ListingFacts.

Section BookmarkFacts.
Import Js Database Storage.

Lemma elem_of_bookmarks_by_message db messageId k b :
  (k, b) ∈ bookmarks_by_message db messageId
  ↔ bookmarks db !! k = Some b ∧ Bookmark.messageId b = messageId.
Proof.
  unfold bookmarks_by_message.
  rewrite merge_sort_Permutation, list_elem_of_filter, elem_of_map_to_list.
  simpl. tauto.
Qed.

Lemma getBookmarkByMessageId_Some db messageId b :
  getBookmarkByMessageId db messageId = Some b →
  ∃ k, bookmarks db !! k = Some b ∧ Bookmark.messageId b = messageId.
Proof.
  unfold getBookmarkByMessageId. intros H.
  apply head_Some_elem_of, list_elem_of_fmap in H as ([k b'] & -> & H).
  apply elem_of_bookmarks_by_message in H. eauto.
Qed.

Lemma getBookmarkByMessageId_None db messageId :
  getBookmarkByMessageId db messageId = None
  ↔ ∀ k b, bookmarks db !! k = Some b → Bookmark.messageId b ≠ messageId.
Proof.
  unfold getBookmarkByMessageId. rewrite head_None. split.
  - intros Hnil k b Hk Hm.
    assert (Hin : b ∈ (bookmarks_by_message db messageId).*2).
    { apply list_elem_of_fmap. exists (k, b). split; [done|].
      by apply elem_of_bookmarks_by_message. }
    rewrite Hnil in Hin. by apply elem_of_nil in Hin.
  - intros Hno. apply nil_of_no_element.
    intros b ([k b'] & -> & H)%list_elem_of_fmap.
    apply elem_of_bookmarks_by_message in H as [Hk Hm]. by apply (Hno k b').
Qed.

Lemma isMessageBookmarked_true db messageId :
  isMessageBookmarked db messageId = true
  ↔ ∃ k b, bookmarks db !! k = Some b ∧ Bookmark.messageId b = messageId.
Proof.
  unfold isMessageBookmarked. rewrite bool_decide_eq_true. split.
  - intros [b Hb]. apply getBookmarkByMessageId_Some in Hb as [k ?]. eauto.
  - intros (k & b & Hk & Hm).
    destruct (getBookmarkByMessageId db messageId) eqn:E; [eauto|].
    rewrite getBookmarkByMessageId_None in E. by destruct (E k b).
Qed.

Lemma StronglySorted_filter {A} (R : relation A) (P : A → Prop)
    `{∀ x, Decision (P x)} l :
  StronglySorted R l → StronglySorted R (filter P l).
Proof.
  induction 1 as [|a l Hs IH Hall]; [constructor|].
  rewrite filter_cons. destruct (decide (P a)); [|done].
  constructor; [done|]. apply Forall_forall. intros x [_ Hx]%list_elem_of_filter.
  rewrite Forall_forall in Hall. auto.
Qed.

(** Selecting from a store read in key order is reading the selection
    in key order. *)
Lemma filter_sorted_store {V} (P : str * V → Prop) `{∀ p, Decision (P p)}
    (store : gmap str V) :
  filter P (merge_sort by_primary_key (map_to_list store))
  = merge_sort by_primary_key (filter P (map_to_list store)).
Proof.
  apply (Sorted_unique_strong by_primary_key).
  - intros [k1 v1] [k2 v2] [_ H1]%list_elem_of_filter H2 Hle Hge.
    rewrite merge_sort_Permutation in H1, H2.
    apply list_elem_of_filter in H2 as [_ H2].
    apply elem_of_map_to_list in H1, H2.
    unfold by_primary_key in Hle, Hge. simpl in *.
    assert (k1 = k2) as -> by (by apply str_leb_antisym). congruence.
  - apply StronglySorted_Sorted, StronglySorted_filter.
    apply Sorted_StronglySorted; [apply _|]. apply Sorted_merge_sort, _.
  - apply Sorted_merge_sort, _.
  - by rewrite !merge_sort_Permutation.
Qed.

Lemma scan_bookmarks_head cursor messageId :
  scan_bookmarks cursor messageId
  = head (filter (λ p : str * Bookmark.t, Bookmark.messageId p.2 = messageId)
            cursor).*2.
Proof.
  induction cursor as [|e cursor IH]; [done|]. simpl.
  rewrite filter_cons. case_bool_decide as Hm.
  - by rewrite decide_True.
  - by rewrite decide_False.
Qed.

(** X10.  A message counts as bookmarked exactly when the bookmark store
    holds a record that points at it, and the lookup by message returns
    such a record; the index lookups of the second revision return what
    the scans of the whole store of the first revision return. *)
Theorem bookmark_lookup (db : DB) (messageId : str) :
  (isMessageBookmarked db messageId = true
   ↔ ∃ k b, bookmarks db !! k = Some b ∧ Bookmark.messageId b = messageId)
  ∧ (∀ b, getBookmarkByMessageId db messageId = Some b →
          Bookmark.messageId b = messageId ∧ ∃ k, bookmarks db !! k = Some b)
  ∧ getBookmarkByMessageId_v1 db messageId = getBookmarkByMessageId db messageId
  ∧ isMessageBookmarked_v1 db messageId = isMessageBookmarked db messageId.
Proof.
  assert (Hv : getBookmarkByMessageId_v1 db messageId
               = getBookmarkByMessageId db messageId).
  { unfold getBookmarkByMessageId_v1, getBookmarkByMessageId, all_bookmarks,
      bookmarks_by_message.
    rewrite scan_bookmarks_head. by rewrite filter_sorted_store. }
  split; [apply isMessageBookmarked_true|]. split; [|split; [exact Hv|]].
  - intros b (k & Hk & Hm)%getBookmarkByMessageId_Some. eauto.
  - unfold isMessageBookmarked_v1, isMessageBookmarked.
    fold (getBookmarkByMessageId_v1 db messageId). by rewrite Hv.
Qed.

(** X11.  [addBookmark] files the new record under the id it returns;
    from then on the message counts as bookmarked and the record is among
    the bookmarks of its chat.  The chats, the messages and every bookmark
    under another id are as before (a bookmark that had the same id is
    replaced). *)
Theorem addBookmark_effect (now now_created : Z) (random : str)
    (messageId chatId : str) (note : option str) (db : DB) :
  let db' := (addBookmark now now_created random messageId chatId note db).1 in
  let bookmarkId := (addBookmark now now_created random messageId chatId note db).2 in
  let bookmark :=
    {| Bookmark.id := bookmarkId; Bookmark.messageId := messageId;
       Bookmark.chatId := chatId; Bookmark.createdAt := Time now_created;
       Bookmark.note := note |} in
  bookmarkId = js "bookmark-" ++ dec_int now ++ js "-" ++ random
  ∧ bookmarks db' !! bookmarkId = Some bookmark
  ∧ isMessageBookmarked db' messageId = true
  ∧ bookmark ∈ getBookmarksForChat db' chatId
  ∧ bookmark ∈ getAllBookmarks db'
  ∧ (∀ k, k ≠ bookmarkId → bookmarks db' !! k = bookmarks db !! k)
  ∧ chats db' = chats db
  ∧ messages db' = messages db.
Proof.
  intros db' bookmarkId bookmark.
  assert (Hb : bookmarks db' !! bookmarkId = Some bookmark).
  { unfold db', addBookmark. simpl. apply lookup_insert_eq. }
  split; [done|]. split; [exact Hb|]. split; [|split; [|split]].
  - apply isMessageBookmarked_true. exists bookmarkId, bookmark. done.
  - unfold getBookmarksForChat. apply list_elem_of_fmap.
    exists (bookmarkId, bookmark). split; [done|].
    by apply elem_of_bookmarks_by_chat.
  - unfold getAllBookmarks. rewrite reverse_Permutation.
    apply list_elem_of_fmap. exists (bookmarkId, bookmark). split; [done|].
    unfold bookmarks_by_createdAt. rewrite merge_sort_Permutation.
    apply list_elem_of_filter. split; [done|]. by apply elem_of_map_to_list.
  - split; [|done]. intros k Hk. unfold db', addBookmark. simpl.
    by apply lookup_insert_ne.
Qed.

End BookmarkFacts.

Section SearchFacts.
Import Js Database Storage.

Variable toLowerCase : str → str.

Lemma filter_snd {K V} (P : V → Prop) `{∀ v, Decision (P v)} (l : list (K * V)) :
  (filter (λ p, P p.2) l).*2 = filter P l.*2.
Proof.
  induction l as [|[k v] l IH]; [done|].
  rewrite fmap_cons, !filter_cons. simpl.
  destruct (decide (P v)); [|done]. by rewrite fmap_cons, IH.
Qed.

Lemma filter_bool_comm {A} (f : A → bool) (P : A → Prop)
    `{∀ x, Decision (P x)} l :
  List.filter f (filter P l) = filter P (List.filter f l).
Proof.
  induction l as [|a l IH]; [done|]. rewrite filter_cons. simpl.
  destruct (decide (P a)), (f a) eqn:E; simpl; rewrite ?E, ?filter_cons.
  - rewrite decide_True by done. by rewrite IH.
  - done.
  - by rewrite decide_False.
  - done.
Qed.

Lemma messages_by_chat_all db chatId :
  messages_by_chat db chatId
  = filter (λ p, Message.chatId p.2 = chatId) (all_messages db).
Proof.
  unfold messages_by_chat, all_messages. by rewrite filter_sorted_store.
Qed.

Lemma includes_nil s : includes s [] = true.
Proof. by destruct s. Qed.

Lemma filter_bool_all {A} (f : A → bool) l :
  (∀ x, f x = true) → List.filter f l = l.
Proof.
  intros Hf. induction l as [|a l IH]; [done|]. simpl. by rewrite Hf, IH.
Qed.

(** X12.  A search restricted to a chat returns the results of the
    search of the whole store that belong to the chat, in the same order;
    an empty chat id restricts nothing.  Every result holds the
    lower-cased query in its lower-cased content or sender. *)
Theorem searchMessages_scope (db : DB) (query chatId : str) :
  (chatId ≠ [] →
     searchMessages toLowerCase db query (Some chatId)
     = filter (λ m, Message.chatId m = chatId)
         (searchMessages toLowerCase db query None))
  ∧ searchMessages toLowerCase db query (Some [])
    = searchMessages toLowerCase db query None
  ∧ (∀ m scope, m ∈ searchMessages toLowerCase db query scope →
       (∃ k, messages db !! k = Some m)
       ∧ (includes (toLowerCase (Message.content m)) (toLowerCase query) = true
          ∨ includes (toLowerCase (Message.sender m)) (toLowerCase query) = true)).
Proof.
  split; [|split; [done|]].
  - intros Hne. unfold searchMessages, search_scope.
    rewrite bool_decide_eq_false_2 by done.
    rewrite messages_by_chat_all.
    pose proof (filter_snd (λ m, Message.chatId m = chatId) (all_messages db))
      as Hsnd.
    cbv beta in Hsnd. rewrite Hsnd. apply filter_bool_comm.
  - intros m scope Hm. unfold searchMessages in Hm.
    apply list_elem_of_In, filter_In in Hm as [Hin Hmatch].
    apply list_elem_of_In, list_elem_of_fmap in Hin as ([k m'] & -> & Hin).
    split.
    + exists k. unfold search_scope in Hin.
      assert (Hall : ∀ p, p ∈ all_messages db → messages db !! p.1 = Some p.2).
      { intros p. unfold all_messages. rewrite merge_sort_Permutation.
        destruct p. apply elem_of_map_to_list. }
      destruct scope as [c|]; [|by apply (Hall (k, m'))].
      case_bool_decide; [by apply (Hall (k, m'))|].
      by apply elem_of_messages_by_chat in Hin as [? _].
    + unfold matches_query in Hmatch. by apply orb_prop in Hmatch.
Qed.

(** X13.  The empty query finds everything: with a case mapping that
    leaves the empty string empty, a search for it inside a chat returns
    the full read of the chat, and a search of the whole store returns
    every message record. *)
Theorem searchMessages_empty_query (db : DB) (chatId : str) :
  toLowerCase [] = [] →
  (chatId ≠ [] →
     searchMessages toLowerCase db [] (Some chatId)
     = getAllMessagesForChat db chatId)
  ∧ searchMessages toLowerCase db [] None ≡ₚ (map_to_list (messages db)).*2.
Proof.
  intros Hlow.
  assert (Hall : ∀ l : list Message.t,
            List.filter (λ m, matches_query toLowerCase (toLowerCase [])
                                (Message.content m) (Message.sender m)) l = l).
  { intros l. apply filter_bool_all. intros m. unfold matches_query.
    by rewrite Hlow, includes_nil. }
  split.
  - intros Hne. unfold searchMessages, search_scope.
    rewrite bool_decide_eq_false_2 by done. by rewrite Hall.
  - unfold searchMessages, search_scope. rewrite Hall.
    unfold all_messages. by rewrite merge_sort_Permutation.
Qed.

End SearchFacts.

Section RevisionFacts.
Import Js Database Storage.

#[local] Opaque MAX_ITERATIONS.
#[local] Existing Instance index_le_trans.

Lemma dense_from_filter_le k hi recs :
  dense_from k recs →
  filter (λ m, Message.messageIndex m ≤ hi) recs = take (S hi - k) recs.
Proof.
  revert k. induction recs as [|a recs IH]; intros k H.
  - by rewrite take_nil.
  - apply dense_from_cons in H as [Ha H].
    destruct (decide (k ≤ hi)) as [Hle|Hgt].
    + rewrite filter_cons_True by lia. rewrite (IH (S k)) by done.
      replace (S hi - k) with (S (S hi - S k)) by lia. done.
    + rewrite filter_cons_False by lia. rewrite (IH (S k)) by done.
      replace (S hi - k) with 0 by lia. replace (S hi - S k) with 0 by lia.
      done.
Qed.

Lemma dense_page recs limit offset :
  dense recs → 1 ≤ limit →
  filter (λ m, offset ≤ Message.messageIndex m
               ∧ Message.messageIndex m ≤ offset + limit - 1) recs
  = take limit (drop offset recs).
Proof.
  intros Hd Hl.
  rewrite <- (list_filter_filter (λ m, offset ≤ Message.messageIndex m)
                (λ m, Message.messageIndex m ≤ offset + limit - 1)).
  rewrite (dense_from_filter_le 0) by done.
  rewrite (dense_from_filter 0) by (by apply dense_from_take).
  rewrite Nat.sub_0_r, take_drop_commute. f_equal. f_equal. lia.
Qed.

(** X14.  The two revisions of [getMessages] on a chat with dense
    indexes: with [limit = 0] the first rejects (its key range is empty
    the wrong way round) where the second returns the empty page; with
    [limit] at least 1 the first returns the [limit] records from
    [offset] on, which is the page of the second whenever [limit] does not
    exceed the iteration ceiling. *)
Theorem getMessages_revisions (db : DB) (chatId : str) (recs : list Message.t)
    (limit offset : nat) :
  chat_messages db chatId ≡ₚ recs →
  dense recs →
  (limit = 0 →
     getMessages_v1 db chatId limit offset = Store.Rejected (js "DataError")
     ∧ getMessages db chatId limit offset = [])
  ∧ (1 ≤ limit →
       getMessages_v1 db chatId limit offset
       = Store.Resolved (take limit (drop offset recs))
       ∧ (limit ≤ MAX_ITERATIONS →
            getMessages_v1 db chatId limit offset
            = Store.Resolved (getMessages db chatId limit offset))).
Proof.
  intros Hperm Hdense. split.
  - intros ->. split; [done|].
    rewrite (getMessages_dense _ _ recs) by done. done.
  - intros Hl.
    assert (Hv1 : getMessages_v1 db chatId limit offset
                  = Store.Resolved (take limit (drop offset recs))).
    { unfold getMessages_v1. destruct (Nat.eqb_spec limit 0); [lia|]. f_equal.
      set (l := merge_sort _ _).
      assert (Hp : l.*2 ≡ₚ take limit (drop offset recs)).
      { unfold l. rewrite merge_sort_Permutation.
        pose proof (filter_values (λ m, Message.chatId m = chatId)
                      (λ m, offset ≤ Message.messageIndex m
                            ∧ Message.messageIndex m ≤ offset + limit - 1)
                      (map_to_list (messages db))) as Hfv.
        cbv beta in Hfv. rewrite Hfv.
        rewrite <- chat_messages_values, Hperm. by rewrite dense_page. }
      apply (Sorted_unique_strong index_le); [|..|done].
      - intros x1 x2 H1 H2 Hle Hge. rewrite Hp in H1.
        apply subseteq_take, subseteq_drop, list_elem_of_lookup in H1 as [i Hi].
        apply subseteq_take, subseteq_drop, list_elem_of_lookup in H2 as [j Hj].
        pose proof (Hdense _ _ Hi). pose proof (Hdense _ _ Hj).
        unfold index_le in *. assert (i = j) as -> by lia. congruence.
      - apply (Sorted_fmap _ by_index_then_key).
        + intros p q. unfold by_index_then_key, index_le. lia.
        + apply Sorted_merge_sort, _.
      - apply (dense_from_sorted (0 + offset)), dense_from_take, dense_from_drop.
        done. }
    split; [exact Hv1|]. intros Hmax. rewrite Hv1. f_equal.
    rewrite (getMessages_dense _ _ recs) by done. by rewrite Nat.min_l.
Qed.

End RevisionFacts.

(** ** The store service *)

Section ServiceFacts.
Import Js Store.

#[local] Arguments js : simpl never.

(** X15.  The message cache of [loadMessages].  After a load that
    reached the storage and succeeded, the list is published and cached;
    a later load of the chat without [forceRefresh] does not use the
    storage at all (whatever the fetch would give, the state is the
    same), and a forced one publishes what the storage gives then. *)
Theorem loadMessages_cache (chatId : str) (forceRefresh : bool)
    (messageList : list Database.Message.t) (s : State) :
  chatId ∉ loadingStates s →
  (forceRefresh = true ∨ messageCache s !! chatId = None) →
  let s1 := (loadMessages chatId forceRefresh (Resolved messageList) s).1 in
  messages s1 = messageList
  ∧ messageCache s1 !! chatId = Some messageList
  ∧ (∀ fetch, loadMessages chatId false fetch s1 = (s1, Resolved ()))
  ∧ (∀ later, messages (loadMessages chatId true (Resolved later) s1).1 = later).
Proof.
  intros Hl Hc s1.
  assert (Hs1 : s1 = update_appState (with_isLoading false)
                  (set_loadingStates (λ l, l ∖ {[chatId]})
                     (set_messages messageList
                        (set_messageCache (λ c, <[chatId := messageList]> c)
                           (update_appState (with_isLoading true)
                              (set_loadingStates (λ l, l ∪ {[chatId]}) s)))))).
  { unfold s1, loadMessages. rewrite bool_decide_eq_false_2 by done.
    destruct Hc as [->| ->]; [done|]. by destruct forceRefresh. }
  assert (Hout : chatId ∉ loadingStates s1).
  { rewrite Hs1. simpl. intros [_ Hout]%elem_of_difference.
    apply Hout. by apply elem_of_singleton. }
  assert (Hin : messageCache s1 !! chatId = Some messageList).
  { rewrite Hs1. simpl. apply lookup_insert_eq. }
  split; [by rewrite Hs1|]. split; [exact Hin|]. split.
  - intros fetch. unfold loadMessages.
    rewrite bool_decide_eq_false_2 by done. rewrite Hin.
    f_equal. by rewrite Hs1.
  - intros later. unfold loadMessages.
    by rewrite bool_decide_eq_false_2 by done.
Qed.

Lemma loadMessages_bookmarkCache chatId forceRefresh fetch s :
  bookmarkCache (loadMessages chatId forceRefresh fetch s).1 = bookmarkCache s.
Proof.
  unfold loadMessages. case_bool_decide; [done|].
  destruct (if forceRefresh then None else messageCache s !! chatId); [done|].
  by destruct fetch.
Qed.

Lemma cache_fold (l : list Database.Bookmark.t) (acc : gmap str bool)
    (m : str) v :
  foldl (λ cache b, <[Database.Bookmark.messageId b := true]> cache) acc l !! m
  = Some v →
  (v = true ∧ ∃ b, b ∈ l ∧ Database.Bookmark.messageId b = m)
  ∨ acc !! m = Some v.
Proof.
  revert acc. induction l as [|b l IH]; intros acc; simpl; [by right|].
  intros [[-> (b' & Hin & Hm)]|H]%IH.
  - left. split; [done|]. exists b'. split; [by right|done].
  - destruct (decide (Database.Bookmark.messageId b = m)) as [Heq|Hne].
    + rewrite Heq, lookup_insert_eq in H. injection H as <-.
      left. split; [done|]. exists b. split; [by left|done].
    + rewrite lookup_insert_ne in H by done. by right.
Qed.

Lemma cache_of_hit l (m : str) v :
  Service.cache_of l !! m = Some v →
  v = true ∧ ∃ b, b ∈ l ∧ Database.Bookmark.messageId b = m.
Proof.
  unfold Service.cache_of. intros [H|H]%cache_fold; [done|].
  by rewrite lookup_empty in H.
Qed.

Lemma cache_of_true l b :
  b ∈ l → Service.cache_of l !! Database.Bookmark.messageId b = Some true.
Proof.
  unfold Service.cache_of. generalize (∅ : gmap str bool).
  induction l as [|x l IH] using rev_ind; intros acc Hin.
  - by apply elem_of_nil in Hin.
  - rewrite foldl_snoc. apply elem_of_app in Hin as [Hin|Hin].
    + destruct (decide (Database.Bookmark.messageId x
                        = Database.Bookmark.messageId b)) as [->|Hne].
      * apply lookup_insert_eq.
      * rewrite lookup_insert_ne by done. by apply IH.
    + apply list_elem_of_singleton in Hin as ->. apply lookup_insert_eq.
Qed.

Lemma elem_of_getAllBookmarks db b :
  b ∈ Storage.getAllBookmarks db
  ↔ (∃ k, Database.bookmarks db !! k = Some b)
    ∧ Database.Bookmark.createdAt b ≠ InvalidDate.
Proof.
  unfold Storage.getAllBookmarks, Storage.bookmarks_by_createdAt.
  rewrite reverse_Permutation, merge_sort_Permutation, list_elem_of_fmap.
  split.
  - intros ([k b'] & -> & [Ht Hin]%list_elem_of_filter).
    apply elem_of_map_to_list in Hin. eauto.
  - intros [[k Hk] Ht]. exists (k, b). split; [done|].
    apply list_elem_of_filter. split; [done|]. by apply elem_of_map_to_list.
Qed.

Lemma elem_of_getAllChats db c :
  c ∈ Storage.getAllChats db
  ↔ (∃ k, Database.chats db !! k = Some c)
    ∧ Database.Chat.lastMessageAt c ≠ InvalidDate.
Proof.
  unfold Storage.getAllChats, Storage.chats_by_lastMessage.
  rewrite reverse_Permutation, merge_sort_Permutation, list_elem_of_fmap.
  split.
  - intros ([k c'] & -> & [Ht Hin]%list_elem_of_filter).
    apply elem_of_map_to_list in Hin. eauto.
  - intros [[k Hk] Ht]. exists (k, c). split; [done|].
    apply list_elem_of_filter. split; [done|]. by apply elem_of_map_to_list.
Qed.

(** A cache rebuilt from the listing of the store agrees with it. *)
Lemma cache_of_listing db (m : str) v :
  Service.cache_of (Storage.getAllBookmarks db) !! m = Some v →
  v = Storage.isMessageBookmarked db m.
Proof.
  intros [-> (b & Hin & Hm)]%cache_of_hit. symmetry.
  apply isMessageBookmarked_true.
  apply elem_of_getAllBookmarks in Hin as [[k Hk] _]. eauto.
Qed.

Lemma isMessageBookmarked_ext db db' m :
  Database.bookmarks db' = Database.bookmarks db →
  Storage.isMessageBookmarked db' m = Storage.isMessageBookmarked db m.
Proof.
  intros H. unfold Storage.isMessageBookmarked, Storage.getBookmarkByMessageId,
    Storage.bookmarks_by_message. by rewrite H.
Qed.

(** X16.  The bookmark cache and the storage.  After [toggleBookmark] or
    [deleteChat], all of whose storage calls succeeded, every entry of
    the bookmark cache is what the storage answers, and every bookmark
    listed is cached as [true]; [isMessageBookmarked] and [addChat] keep
    the cache in agreement with the storage, and [isMessageBookmarked]
    then returns the answer of the storage, from the cache or not. *)
Theorem bookmark_cache_coherent :
  (∀ now now_created random messageId chatId note w,
     let w' := Session.toggleBookmark now now_created random messageId chatId
                 note w in
     Session.coherent w'
     ∧ ∀ b, b ∈ Storage.getAllBookmarks (Session.db w') →
            bookmarkCache (Session.service w') !! Database.Bookmark.messageId b
            = Some true)
  ∧ (∀ chatId w,
       let w' := Session.deleteChat chatId w in
       Session.coherent w'
       ∧ ∀ b, b ∈ Storage.getAllBookmarks (Session.db w') →
              bookmarkCache (Session.service w') !! Database.Bookmark.messageId b
              = Some true)
  ∧ (∀ messageId w,
       Session.coherent w →
       Session.coherent (Session.isMessageBookmarked messageId w).1
       ∧ (Session.isMessageBookmarked messageId w).2
         = Resolved (Storage.isMessageBookmarked (Session.db w) messageId))
  ∧ (∀ now now_created now_last random name participants parsedMessages
       rawContent w,
       Session.coherent w →
       Session.coherent
         (Session.addChat now now_created now_last random name participants
            parsedMessages rawContent w).1).
Proof.
  split; [|split; [|split]].
  - intros now now_created random messageId chatId note w w'. split.
    + intros m v. unfold w', Session.toggleBookmark. simpl.
      apply cache_of_listing.
    + intros b Hb. unfold w', Session.toggleBookmark. simpl.
      by apply cache_of_true.
  - intros chatId w w'. split.
    + intros m v. unfold w', Session.deleteChat. simpl.
      apply cache_of_listing.
    + intros b Hb. unfold w', Session.deleteChat. simpl.
      by apply cache_of_true.
  - intros messageId w Hw.
    unfold Session.isMessageBookmarked, Service.isMessageBookmarked.
    destruct (bookmarkCache (Session.service w) !! messageId) as [cached|] eqn:E;
      simpl.
    + split; [exact Hw|]. f_equal. by apply Hw.
    + split; [|done]. intros m v. simpl.
      destruct (decide (m = messageId)) as [->|Hne].
      * rewrite lookup_insert_eq. by intros [= <-].
      * rewrite lookup_insert_ne by done. apply Hw.
  - intros now now_created now_last random name participants parsedMessages
      rawContent w Hw m v.
    unfold Session.addChat, Service.addChat, switchToChat. simpl.
    match goal with
    | |- context [loadMessages ?c ?f ?x ?s] =>
        pose proof (loadMessages_bookmarkCache c f x s) as Hb;
        destruct (loadMessages c f x s) as [s3 r]
    end.
    simpl in *. rewrite Hb. intros Hm.
    rewrite (Hw m v Hm). symmetry. apply isMessageBookmarked_ext.
    unfold Database.storeChat. by rewrite put_messages_bookmarks.
Qed.

Lemma toggled_cases now now_created random messageId chatId note d :
  (∃ k b, Database.bookmarks d !! k = Some b
          ∧ Database.Bookmark.messageId b = messageId
          ∧ Storage.isMessageBookmarked d messageId = true
          ∧ Database.bookmarks
              (Session.toggled now now_created random messageId chatId note d)
            = delete (Database.Bookmark.id b) (Database.bookmarks d))
  ∨ ((∀ k b, Database.bookmarks d !! k = Some b →
             Database.Bookmark.messageId b ≠ messageId)
     ∧ Storage.isMessageBookmarked d messageId = false
     ∧ Database.bookmarks
         (Session.toggled now now_created random messageId chatId note d)
       = <[Storage.bookmark_id now random :=
             {| Database.Bookmark.id := Storage.bookmark_id now random;
                Database.Bookmark.messageId := messageId;
                Database.Bookmark.chatId := chatId;
                Database.Bookmark.createdAt := Time now_created;
                Database.Bookmark.note := note |}]> (Database.bookmarks d)).
Proof.
  unfold Session.toggled, Storage.isMessageBookmarked.
  destruct (Storage.getBookmarkByMessageId d messageId) as [b|] eqn:E.
  - left. destruct (getBookmarkByMessageId_Some _ _ _ E) as (k & Hk & Hm).
    exists k, b. split; [done|]. split; [done|]. split; [|done].
    apply bool_decide_eq_true_2. eauto.
  - right. split; [by apply getBookmarkByMessageId_None|].
    split; [|done]. apply bool_decide_eq_false_2. by intros [? [=]].
Qed.

(** X17.  [toggleBookmark] on the storage.  While every bookmark is
    filed under its id and no message has two, a successful toggle keeps
    it so and flips whether the message counts as bookmarked; when the
    new bookmark id is not in use, no other message changes. *)
Theorem toggleBookmark_flips (now now_created : Z) (random : str)
    (messageId chatId : str) (note : option str) (d : Database.DB) :
  Session.single_bookmarks d →
  let d' := Session.toggled now now_created random messageId chatId note d in
  Session.single_bookmarks d'
  ∧ Storage.isMessageBookmarked d' messageId
    = negb (Storage.isMessageBookmarked d messageId)
  ∧ (Database.bookmarks d !! Storage.bookmark_id now random = None →
     ∀ other, other ≠ messageId →
       Storage.isMessageBookmarked d' other
       = Storage.isMessageBookmarked d other).
Proof.
  intros [Hkey Huniq] d'.
  destruct (toggled_cases now now_created random messageId chatId note d)
    as [(k & b & Hk & Hm & Hwas & Hd')|(Hno & Hwas & Hd')];
    fold d' in Hd'; rewrite Hwas; simpl.
  - rewrite (Hkey k b Hk) in Hd'. split; [|split].
    + split.
      * intros k1 b1. rewrite Hd'. intros [_ H]%lookup_delete_Some. eauto.
      * intros k1 b1 k2 b2. rewrite Hd'.
        intros [_ H1]%lookup_delete_Some [_ H2]%lookup_delete_Some. eauto.
    + apply not_true_is_false. intros (k1 & b1 & H1 & Hm1)%isMessageBookmarked_true.
      rewrite Hd' in H1. apply lookup_delete_Some in H1 as [Hne H1].
      apply Hne. apply (Huniq k b k1 b1); [done|done|congruence].
    + intros _ other Hother. apply eq_true_iff_eq.
      rewrite !isMessageBookmarked_true. rewrite Hd'. split.
      * intros (k1 & b1 & [_ H1]%lookup_delete_Some & Hm1). eauto.
      * intros (k1 & b1 & H1 & Hm1). exists k1, b1. split; [|done].
        apply lookup_delete_Some. split; [|done]. intros <-.
        rewrite Hk in H1. injection H1 as <-. congruence.
  - split; [|split].
    + split.
      * intros k1 b1. rewrite Hd'.
        intros [[<- <-]|[_ H]]%lookup_insert_Some; [done|eauto].
      * intros k1 b1 k2 b2. rewrite Hd'.
        intros [[<- <-]|[Hn1 H1]]%lookup_insert_Some
               [[<- <-]|[Hn2 H2]]%lookup_insert_Some; simpl.
        -- done.
        -- intros Heq. by destruct (Hno k2 b2 H2).
        -- intros Heq. by destruct (Hno k1 b1 H1).
        -- eauto.
    + apply isMessageBookmarked_true. eexists _, _. rewrite Hd'.
      split; [apply lookup_insert_eq|done].
    + intros Hfresh other Hother. apply eq_true_iff_eq.
      rewrite !isMessageBookmarked_true. rewrite Hd'. split.
      * intros (k1 & b1 & [[<- <-]|[_ H]]%lookup_insert_Some & Hm1);
          [simpl in Hm1; congruence|eauto].
      * intros (k1 & b1 & H1 & Hm1). exists k1, b1. split; [|done].
        apply lookup_insert_Some. right. split; [|done]. intros <-.
        by rewrite Hfresh in H1.
Qed.

(** X18.  [deleteChat] of the service.  When the storage refuses the
    delete, the call rejects with that error and only [isLoading] is
    touched.  When the storage has deleted the chat, the call resolves
    whatever the two refreshes do: the entry of the chat in the message
    cache is gone and the other entries stay; when it was the chat on
    display the selection and the message list are cleared, otherwise
    both stay; nothing is loading; the list of chats is the refreshed
    one, or the old one when its refresh failed (the deleted chat can
    then still be listed); the same holds of the bookmarks, whose cache
    is rebuilt from the refreshed list or left empty.  When both
    refreshes succeed on a storage that files every chat under its id,
    the chat is not listed, no listed bookmark belongs to it, and an
    export of it fails with [Chat not found]. *)
Theorem deleteChat_service (chatId : str) (w : Session.World)
    (chatList : outcome (list Database.Chat.t))
    (bookmarkList : outcome (list Database.Bookmark.t)) (error : str) :
  let s := Session.service w in
  let failed := Service.deleteChat chatId (Rejected error) chatList
                  bookmarkList s in
  let r := Service.deleteChat chatId (Resolved ()) chatList bookmarkList s in
  let s' := Session.service (Session.deleteChat chatId w) in
  failed = (update_appState (with_isLoading false) s, Rejected error)
  ∧ (r.2 = Resolved ()
     ∧ messageCache r.1 !! chatId = None
     ∧ (∀ other : str, other ≠ chatId →
          messageCache r.1 !! other = messageCache s !! other)
     ∧ (if bool_decide (currentChatId (appState s) = Some chatId)
        then currentChatId (appState r.1) = None ∧ messages r.1 = []
        else currentChatId (appState r.1) = currentChatId (appState s)
             ∧ messages r.1 = messages s)
     ∧ isLoading (appState r.1) = false
     ∧ chats r.1 = match chatList with
                   | Resolved refreshed => refreshed
                   | Rejected _ => chats s
                   end
     ∧ bookmarks r.1 = match bookmarkList with
                       | Resolved refreshed => refreshed
                       | Rejected _ => bookmarks s
                       end
     ∧ bookmarkCache r.1 = match bookmarkList with
                           | Resolved refreshed => Service.cache_of refreshed
                           | Rejected _ => ∅
                           end)
  ∧ (Session.chats_keyed (Session.db w) →
     (∀ chat, chat ∈ chats s' → Database.Chat.id chat ≠ chatId)
     ∧ (∀ b, b ∈ bookmarks s' → Database.Bookmark.chatId b ≠ chatId)
     ∧ Session.exportChat chatId (Session.deleteChat chatId w)
       = Rejected (js "Chat not found")).
Proof.
  intros s failed r s'. split; [done|]. split.
  - unfold r, Service.deleteChat.
    destruct chatList as [refreshedChats|?];
      destruct bookmarkList as [refreshedBookmarks|?]; simpl; fold s;
      destruct (bool_decide (currentChatId (appState s) = Some chatId)); simpl;
      (split; [done|]); (split; [apply lookup_delete_eq|]);
      (split; [intros other Hother; by apply lookup_delete_ne|]); done.
  - intros Hkey. unfold s', Session.deleteChat. simpl. fold s.
    split; [|split].
    + intros chat Hc.
      apply elem_of_getAllChats in Hc as [[k Hk] _].
      rewrite deleteChat_chats in Hk.
      apply lookup_delete_Some in Hk as [Hne Hk].
      by rewrite (Hkey k chat Hk).
    + intros b Hb.
      apply elem_of_getAllBookmarks in Hb as [[k Hk] _].
      apply deleteChat_bookmarks in Hk. tauto.
    + unfold Session.exportChat, Service.exportChat, Database.getChat. simpl.
      by rewrite deleteChat_chats, lookup_delete_eq.
Qed.

(** X19.  [addChat] of the service.  When the storage refuses to store
    the chat, the call rejects with that error and only [isLoading] is
    touched.  When the chat is stored, the call returns the id
    [chat-<now>-<random>] whatever the refresh of the chat list and the
    load of the messages do: the chat is selected, nothing is loading,
    the list of chats is the refreshed one or the old one; and, with no
    load of the id in flight and no cache entry for it, the messages
    published and cached are those that the load returns, or, when the
    load fails, the message list stays and nothing is cached.  When every
    storage call succeeds and the id owned no record, the messages
    published and cached are the records of the parsed messages (each
    once), the chat is listed when its last time stamp is a valid date,
    and an export gives the raw content back. *)
Theorem addChat_service (now now_created now_last : Z) (random name : str)
    (participants : list str) (parsedMessages : list Parser.ParsedMessage)
    (rawContent : str) (w : Session.World)
    (chatList : outcome (list Database.Chat.t))
    (fetch : outcome (list Database.Message.t)) (error : str) :
  let chatId := Service.chat_id now random in
  let s := Session.service w in
  let failed := Service.addChat now random (Rejected error) chatList fetch s in
  let r := Service.addChat now random (Resolved ()) chatList fetch s in
  let stored := Session.addChat now now_created now_last random name
                  participants parsedMessages rawContent w in
  let s' := Session.service stored.1 in
  failed = (update_appState (with_isLoading false) s, Rejected error)
  ∧ (r.2 = Resolved chatId
     ∧ currentChatId (appState r.1) = Some chatId
     ∧ isLoading (appState r.1) = false
     ∧ chats r.1 = match chatList with
                   | Resolved refreshed => refreshed
                   | Rejected _ => chats s
                   end
     ∧ (chatId ∉ loadingStates s →
        messageCache s !! chatId = None →
        match fetch with
        | Resolved messageList =>
            messages r.1 = messageList
            ∧ messageCache r.1 !! chatId = Some messageList
        | Rejected _ =>
            messages r.1 = messages s ∧ messageCache r.1 !! chatId = None
        end))
  ∧ (Database.fresh (Session.db w) chatId →
     chatId ∉ loadingStates s →
     messageCache s !! chatId = None →
     stored.2 = Resolved chatId
     ∧ messages s' ≡ₚ Database.message_records chatId parsedMessages
     ∧ messageCache s' !! chatId = Some (messages s')
     ∧ (Database.Chat.lastMessageAt
          (Database.chat_record now_created now_last chatId name participants
             parsedMessages rawContent) ≠ InvalidDate →
        Database.chat_record now_created now_last chatId name participants
          parsedMessages rawContent ∈ chats s')
     ∧ Session.exportChat chatId stored.1 = Resolved rawContent).
Proof.
  intros chatId s failed r stored s'. split; [done|]. split.
  - unfold r, Service.addChat, Service.loadChats, switchToChat. fold chatId.
    cbv zeta.
    match goal with
    | |- context [loadMessages chatId false fetch ?s2] =>
        set (s2' := s2);
        assert (Hl2 : loadingStates s2' = loadingStates s)
          by (unfold s2'; by destruct chatList);
        assert (Hc2 : messageCache s2' = messageCache s)
          by (unfold s2'; by destruct chatList);
        assert (Hm2 : messages s2' = messages s)
          by (unfold s2'; by destruct chatList);
        assert (Hch2 : chats s2' = match chatList with
                                   | Resolved refreshed => refreshed
                                   | Rejected _ => chats s
                                   end)
          by (unfold s2'; by destruct chatList);
        assert (Hcur2 : currentChatId (appState s2') = Some chatId)
          by (unfold s2'; by destruct chatList)
    end.
    clearbody s2'. unfold loadMessages. rewrite Hl2, Hc2.
    destruct (bool_decide_reflect (chatId ∈ loadingStates s)) as [Hin|Hout].
    { simpl. split; [done|]. split; [done|]. split; [done|]. split; [done|].
      intros Hno. by destruct Hno. }
    destruct (messageCache s !! chatId) as [cached|] eqn:Hcache.
    { simpl. split; [done|]. split; [done|]. split; [done|]. split; [done|].
      done. }
    destruct fetch as [messageList|?]; simpl;
      (split; [done|]); (split; [done|]); (split; [done|]);
      (split; [done|]); intros _ _.
    + split; [done|]. apply lookup_insert_eq.
    + split; [done|]. rewrite Hc2. apply lookup_delete_eq.
  - intros Hfresh Hload Hcache.
    unfold s', stored, Session.addChat, Service.addChat, switchToChat,
      loadMessages.
    fold chatId. fold s. simpl.
    rewrite bool_decide_eq_false_2 by done. rewrite Hcache. simpl.
    split; [done|]. split; [|split; [|split]].
    + rewrite getAllMessagesForChat_perm. by apply storeChat_chat_messages.
    + apply lookup_insert_eq.
    + intros Hvalid. apply elem_of_getAllChats. split; [|done].
      exists chatId. unfold Database.storeChat.
      rewrite put_messages_chats. simpl. apply lookup_insert_eq.
    + unfold Session.exportChat, Service.exportChat, Database.getChat,
        Database.storeChat. simpl.
      rewrite put_messages_chats. simpl. by rewrite lookup_insert_eq.
Qed.

End ServiceFacts.

(** ** Statistics and the search of the view *)

Section StatsFacts.
Import Js Store.

Variable inherited : str → option str.

(** The loop of [getChatStats] from any pair of valid bounds. *)
Lemma tally_fold (l : list Database.Message.t) (t0 : tally) (a0 b0 : Z) :
  startDate t0 = Time a0 →
  endDate t0 = Time b0 →
  ∃ a b,
    startDate (foldl (tally_message inherited) t0 l) = Time a
    ∧ endDate (foldl (tally_message inherited) t0 l) = Time b
    ∧ (a ≤ a0)%Z ∧ (b0 ≤ b)%Z
    ∧ (∀ m t, m ∈ l → Database.Message.timestamp m = Time t → (a ≤ t ≤ b)%Z)
    ∧ (a = a0 ∨ ∃ m, m ∈ l ∧ Database.Message.timestamp m = Time a)
    ∧ (b = b0 ∨ ∃ m, m ∈ l ∧ Database.Message.timestamp m = Time b).
Proof.
  revert t0 a0 b0. induction l as [|m l IH]; intros t0 a0 b0 Ha Hb.
  - exists a0, b0. simpl. split; [done|]. split; [done|].
    split; [lia|]. split; [lia|]. split; [|split; by left].
    intros m t Hin. by apply elem_of_nil in Hin.
  - simpl.
    assert (H1 : ∃ a1 b1,
               startDate (tally_message inherited t0 m) = Time a1
               ∧ endDate (tally_message inherited t0 m) = Time b1
               ∧ (a1 ≤ a0)%Z ∧ (b0 ≤ b1)%Z
               ∧ (∀ t, Database.Message.timestamp m = Time t → (a1 ≤ t ≤ b1)%Z)
               ∧ (a1 = a0 ∨ Database.Message.timestamp m = Time a1)
               ∧ (b1 = b0 ∨ Database.Message.timestamp m = Time b1)).
    { unfold tally_message. simpl. rewrite Ha, Hb.
      destruct (Database.Message.timestamp m) as [t|]; simpl.
      - destruct (Z.ltb_spec t a0), (Z.ltb_spec b0 t); eexists _, _;
          (split; [reflexivity|]); (split; [reflexivity|]);
          (split; [lia|]); (split; [lia|]);
          (split; [intros ? [= <-]; lia|]); split; auto.
      - exists a0, b0. repeat split; try done; try lia; by left. }
    destruct H1 as (a1 & b1 & Ha1 & Hb1 & Hle1 & Hle2 & Hm & Hora & Horb).
    destruct (IH _ a1 b1 Ha1 Hb1) as (a & b & Hsa & Hsb & Hla & Hlb & Hall & Hxa & Hxb).
    exists a, b. split; [done|]. split; [done|].
    split; [lia|]. split; [lia|]. split; [|split].
    + intros m' t [->|Hin]%elem_of_cons Ht.
      * specialize (Hm t Ht). lia.
      * eauto.
    + destruct Hxa as [->|(m' & Hin & Ht)].
      * destruct Hora as [->|Ht]; [by left|].
        right. exists m. split; [by left|done].
      * right. exists m'. split; [by right|done].
    + destruct Hxb as [->|(m' & Hin & Ht)].
      * destruct Horb as [->|Ht]; [by left|].
        right. exists m. split; [by left|done].
      * right. exists m'. split; [by right|done].
Qed.

(** The tally after a list of messages, key by key. *)
Lemma tally_stats (l : list Database.Message.t) (t0 : tally) (key : str) :
  stats t0 = ∅ →
  let count := length (filter (λ m, Database.Message.sender m = key) l) in
  stats (foldl (tally_message inherited) t0 l) !! key
  = if bool_decide (key = js "__proto__") || (count =? 0) then None
    else match inherited key with
         | None => Some (Count count)
         | Some text => Some (Text (text ++ replicate count (ch "1")))
         end.
Proof.
  intros H0. revert key. induction l as [|m l IH] using rev_ind; intros key.
  - simpl. rewrite H0, lookup_empty. by rewrite orb_true_r.
  - rewrite foldl_snoc, filter_app, length_app. cbv zeta in IH |- *.
    set (t := foldl (tally_message inherited) t0 l) in *.
    unfold tally_message at 1. cbn [stats].
    destruct (decide (Database.Message.sender m = js "__proto__")) as [Hp|Hp].
    + rewrite bool_decide_eq_true_2 by done. rewrite IH.
      destruct (decide (key = js "__proto__")) as [->|Hk].
      * by rewrite !bool_decide_eq_true_2 by done.
      * rewrite filter_cons_False by congruence. simpl.
        by rewrite Nat.add_0_r.
    + rewrite bool_decide_eq_false_2 by done.
      destruct (decide (Database.Message.sender m = key)) as [<-|Hk].
      * rewrite lookup_insert_eq. rewrite filter_cons_True by done.
        rewrite filter_nil. simpl length.
        rewrite bool_decide_eq_false_2 by done. cbn [orb].
        rewrite (proj2 (Nat.eqb_neq _ 0)) by lia.
        unfold bump. rewrite IH.
        rewrite bool_decide_eq_false_2 by done. cbn [orb].
        set (count := length (filter _ l)).
        destruct (Nat.eqb_spec count 0) as [->|Hc].
        -- by destruct (inherited (Database.Message.sender m)).
        -- destruct (inherited (Database.Message.sender m)) as [text|].
           ++ rewrite bool_decide_eq_false_2.
              ** f_equal. f_equal. rewrite <- app_assoc. f_equal.
                 change (js "1") with [ch "1"]. rewrite Nat.add_1_r. simpl.
                 symmetry. apply replicate_cons_app.
              ** destruct count; [done|]. simpl. by destruct text.
           ++ done.
      * rewrite lookup_insert_ne by done. rewrite IH.
        rewrite filter_cons_False by done. simpl. by rewrite Nat.add_0_r.
Qed.

(** X20.  [getChatStats] on any message list the storage returns.  The
    count is the length.  Both ends of the date range are valid dates,
    the start no later than the reading of the clock and the end no
    earlier than the epoch; every valid time stamp of a message lies
    between them; the start is the clock or a time stamp of a message,
    the end the epoch or one; messages whose time stamp is the invalid
    date do not move the range.  The tally holds, for a sender with at
    least one message, the number of its messages; but for a sender
    whose name is that of a property every object inherits it holds a
    text, the inherited value followed by one [1] per message, and for
    the sender [__proto__] it holds nothing. *)
Theorem getChatStats_range (now : Z) (messageList : list Database.Message.t) :
  ∃ st a b,
    getChatStats inherited now (Resolved messageList) = Resolved st
    ∧ messageCount st = length messageList
    ∧ dateRange st = (Time a, Time b)
    ∧ (a ≤ now)%Z ∧ (0 ≤ b)%Z
    ∧ (∀ m t, m ∈ messageList → Database.Message.timestamp m = Time t →
              (a ≤ t ≤ b)%Z)
    ∧ (a = now ∨ ∃ m, m ∈ messageList ∧ Database.Message.timestamp m = Time a)
    ∧ (b = 0%Z ∨ ∃ m, m ∈ messageList ∧ Database.Message.timestamp m = Time b)
    ∧ (∀ sender : str,
         let count :=
           length (filter (λ m, Database.Message.sender m = sender) messageList) in
         participantStats st !! sender
         = if bool_decide (sender = js "__proto__") || (count =? 0) then None
           else match inherited sender with
                | None => Some (Count count)
                | Some text => Some (Text (text ++ replicate count (ch "1")))
                end).
Proof.
  destruct (tally_fold messageList
              {| stats := ∅; startDate := Time now; endDate := Time 0 |}
              now 0 eq_refl eq_refl)
    as (a & b & Ha & Hb & Hla & Hlb & Hall & Hxa & Hxb).
  eexists _, a, b. split; [reflexivity|].
  cbn [messageCount dateRange participantStats].
  split; [done|]. split; [by rewrite Ha, Hb|].
  split; [done|]. split; [done|]. split; [done|]. split; [done|].
  split; [done|].
  intros sender. by apply tally_stats.
Qed.

End StatsFacts.

Section ViewSearchFacts.
Import Js Store.

Variable toLowerCase : str → str.

(** X21.  The search of the view and the search of the storage.  With a
    chat loaded from the storage and a query that is not empty, the
    derived list [filteredMessages] is what [searchMessages] returns for
    the query within that chat; with the empty query it is the whole
    message list.  A search that fails in the storage is an empty result
    for the service. *)
Theorem filteredMessages_is_search (d : Database.DB) (chatId query : str)
    (s : State) :
  chatId ≠ [] →
  messages s = Database.getAllMessagesForChat d chatId →
  (query ≠ [] →
   Service.filteredMessages toLowerCase (Service.setSearchQuery query s)
   = Service.searchMessages
       (Resolved (Storage.searchMessages toLowerCase d query (Some chatId))))
  ∧ Service.filteredMessages toLowerCase (Service.setSearchQuery [] s)
    = Database.getAllMessagesForChat d chatId
  ∧ ∀ error, Service.searchMessages (Rejected error) = [].
Proof.
  intros Hc Hm. split; [|split; [|done]].
  - intros Hq. unfold Service.filteredMessages, Service.setSearchQuery. simpl.
    match goal with
    | |- context [@bool_decide ?P ?I] =>
        destruct (@bool_decide_reflect P I) as [Heq|_]; [by destruct Hq|]
    end.
    rewrite Hm. unfold Storage.searchMessages, Storage.search_scope.
    match goal with
    | |- context [@bool_decide ?P ?I] =>
        destruct (@bool_decide_reflect P I) as [Heq|_]; [by destruct Hc|]
    end.
    done.
  - exact Hm.
Qed.

End ViewSearchFacts.

(** ** The circuit breaker of the second revision *)

Section CircuitBreakerFacts.
Import Js Store.

#[local] Arguments js : simpl never.

(** The number of failures on record for an operation. *)
Lemma breaker_closed now (operation : str) s k t :
  default (0, 0%Z) (circuitBreaker s !! operation) = (k, t) →
  k < MAX_FAILURES →
  isCircuitBreakerOpen now operation s = (s, false).
Proof.
  unfold isCircuitBreakerOpen.
  destruct (circuitBreaker s !! operation) as [[failures lastFailure]|];
    [|done].
  intros Heq Hk. simpl in Heq. injection Heq as -> ->.
  by rewrite (proj2 (Nat.leb_gt MAX_FAILURES k) Hk).
Qed.

Lemma breaker_open now (operation : str) s k t :
  circuitBreaker s !! operation = Some (k, t) →
  MAX_FAILURES ≤ k →
  (now - t < CIRCUIT_BREAKER_TIMEOUT)%Z →
  isCircuitBreakerOpen now operation s = (s, true).
Proof.
  unfold isCircuitBreakerOpen. intros -> Hk Ht.
  rewrite (proj2 (Nat.leb_le MAX_FAILURES k) Hk).
  by rewrite (proj2 (Z.ltb_lt _ _) Ht).
Qed.

Lemma breaker_reset now (operation : str) s k t :
  circuitBreaker s !! operation = Some (k, t) →
  MAX_FAILURES ≤ k →
  (CIRCUIT_BREAKER_TIMEOUT ≤ now - t)%Z →
  isCircuitBreakerOpen now operation s
  = (set_circuitBreaker (λ m, delete operation m) s, false).
Proof.
  unfold isCircuitBreakerOpen. intros -> Hk Ht.
  rewrite (proj2 (Nat.leb_le MAX_FAILURES k) Hk).
  by rewrite (proj2 (Z.ltb_ge _ _) Ht).
Qed.

Lemma recordFailure_lookup now (operation : str) s :
  circuitBreaker (recordFailure now operation s) !! operation
  = Some (S (default (0, 0%Z) (circuitBreaker s !! operation)).1, now).
Proof. unfold recordFailure. simpl. apply lookup_insert_eq. Qed.

(** One failed load while the breaker is closed. *)
Lemma loadMessages_cb_counts now_check now_fail (chatId : str)
    (forceRefresh : bool) error s k t :
  default (0, 0%Z) (circuitBreaker s !! (js "loadMessages-" ++ chatId)) = (k, t) →
  k < MAX_FAILURES →
  chatId ∉ loadingStates s →
  messageCache s !! chatId = None →
  let r := loadMessages_cb now_check now_fail chatId forceRefresh
             (Rejected error) s in
  r.2 = Rejected error
  ∧ circuitBreaker r.1 !! (js "loadMessages-" ++ chatId) = Some (S k, now_fail)
  ∧ (chatId ∉ loadingStates r.1)
  ∧ messageCache r.1 !! chatId = None.
Proof.
  intros Hk Hlt Hl Hc. unfold loadMessages_cb.
  rewrite (breaker_closed now_check _ s k t Hk Hlt).
  rewrite bool_decide_eq_false_2 by done.
  assert (Hmiss : (if forceRefresh then None else messageCache s !! chatId)
                  = @None (list Database.Message.t))
    by (by destruct forceRefresh).
  rewrite Hmiss. split; [done|]. split; [|split].
  - change (circuitBreaker
              (recordFailure now_fail (js "loadMessages-" ++ chatId) s)
            !! (js "loadMessages-" ++ chatId) = Some (S k, now_fail)).
    rewrite recordFailure_lookup. do 3 f_equal. exact (f_equal fst Hk).
  - simpl. intros [_ Hout]%elem_of_difference.
    apply Hout. by apply elem_of_singleton.
  - simpl. apply lookup_delete_eq.
Qed.

(** X22.  The circuit breaker of [loadMessages] in the second revision.
    After three loads of a chat in a row that failed in the storage, a
    further load within 30 seconds of the last failure is refused with
    the breaker's error and without use of the cache or the storage: the
    state stays as it is.  From 30 seconds on the breaker is reset, the
    load goes to the storage again, and a success publishes the list and
    clears the record of failures. *)
Theorem circuit_breaker_trips (chatId : str) (s : State)
    (check1 check2 check3 fail1 fail2 fail3 : Z)
    (force1 force2 force3 : bool) (error1 error2 error3 : str) :
  chatId ∉ loadingStates s →
  messageCache s !! chatId = None →
  circuitBreaker s !! (js "loadMessages-" ++ chatId) = None →
  let failed check fail force error s :=
    (loadMessages_cb check fail chatId force (Rejected error) s).1 in
  let s3 := failed check3 fail3 force3 error3
              (failed check2 fail2 force2 error2
                 (failed check1 fail1 force1 error1 s)) in
  (∀ now now' forceRefresh fetch,
     (now - fail3 < CIRCUIT_BREAKER_TIMEOUT)%Z →
     loadMessages_cb now now' chatId forceRefresh fetch s3
     = (s3, Rejected (js "Circuit breaker is open for loading messages. Please wait and try again.")))
  ∧ (∀ now now' forceRefresh messageList,
       (CIRCUIT_BREAKER_TIMEOUT ≤ now - fail3)%Z →
       let r := loadMessages_cb now now' chatId forceRefresh
                  (Resolved messageList) s3 in
       r.2 = Resolved ()
       ∧ messages r.1 = messageList
       ∧ messageCache r.1 !! chatId = Some messageList
       ∧ circuitBreaker r.1 !! (js "loadMessages-" ++ chatId) = None).
Proof.
  intros Hl Hc Hb failed s3.
  assert (H0 : default (0, 0%Z)
                 (circuitBreaker s !! (js "loadMessages-" ++ chatId))
               = (0, 0%Z)) by (by rewrite Hb).
  set (s1 := failed check1 fail1 force1 error1 s).
  assert (circuitBreaker s1 !! (js "loadMessages-" ++ chatId) = Some (1, fail1)
          ∧ (chatId ∉ loadingStates s1) ∧ messageCache s1 !! chatId = None)
    as (Hb1 & Hl1 & Hc1).
  { apply (loadMessages_cb_counts check1 fail1 chatId force1 error1 s 0 0%Z);
      try done. unfold MAX_FAILURES. lia. }
  assert (H1 : default (0, 0%Z)
                 (circuitBreaker s1 !! (js "loadMessages-" ++ chatId))
               = (1, fail1)) by (by rewrite Hb1).
  set (s2 := failed check2 fail2 force2 error2 s1).
  assert (circuitBreaker s2 !! (js "loadMessages-" ++ chatId) = Some (2, fail2)
          ∧ (chatId ∉ loadingStates s2) ∧ messageCache s2 !! chatId = None)
    as (Hb2 & Hl2 & Hc2).
  { apply (loadMessages_cb_counts check2 fail2 chatId force2 error2 s1 1 fail1);
      try done. unfold MAX_FAILURES. lia. }
  assert (H2 : default (0, 0%Z)
                 (circuitBreaker s2 !! (js "loadMessages-" ++ chatId))
               = (2, fail2)) by (by rewrite Hb2).
  assert (circuitBreaker s3 !! (js "loadMessages-" ++ chatId) = Some (3, fail3)
          ∧ (chatId ∉ loadingStates s3) ∧ messageCache s3 !! chatId = None)
    as (Hb3 & Hl3 & Hc3).
  { apply (loadMessages_cb_counts check3 fail3 chatId force3 error3 s2 2 fail2);
      try done. unfold MAX_FAILURES. lia. }
  clearbody s3. clear failed s1 s2 Hb1 Hl1 Hc1 H1 Hb2 Hl2 Hc2 H2.
  split.
  - intros now now' forceRefresh fetch Hnow. unfold loadMessages_cb.
    by rewrite (breaker_open now _ s3 3 fail3 Hb3 (le_n _) Hnow).
  - intros now now' forceRefresh messageList Hnow. unfold loadMessages_cb.
    rewrite (breaker_reset now _ s3 3 fail3 Hb3 (le_n _) Hnow).
    simpl. rewrite bool_decide_eq_false_2 by done.
    assert (Hmiss : (if forceRefresh then None else messageCache s3 !! chatId)
                    = @None (list Database.Message.t))
      by (by destruct forceRefresh).
    rewrite Hmiss. simpl. split; [done|]. split; [done|].
    split; [apply lookup_insert_eq|]. apply lookup_delete_eq.
Qed.

(** A successful load with the breaker closed, nothing in flight and
    nothing cached. *)
Lemma loadMessages_cb_clean now now' (chatId : str) (forceRefresh : bool)
    (messageList : list Database.Message.t) (s : State) :
  circuitBreaker s !! (js "loadMessages-" ++ chatId) = None →
  chatId ∉ loadingStates s →
  messageCache s !! chatId = None →
  loadMessages_cb now now' chatId forceRefresh (Resolved messageList) s
  = (update_appState (with_isLoading false)
       (set_loadingStates (λ l, l ∖ {[chatId]})
          (recordSuccess (js "loadMessages-" ++ chatId)
             (set_messages messageList
                (set_messageCache (λ c, <[chatId := messageList]> c)
                   (update_appState (with_isLoading true)
                      (set_loadingStates (λ l, l ∪ {[chatId]}) s)))))),
     Resolved ()).
Proof.
  intros Hb Hl Hc. unfold loadMessages_cb.
  assert (H0 : default (0, 0%Z)
                 (circuitBreaker s !! (js "loadMessages-" ++ chatId))
               = (0, 0%Z)) by (by rewrite Hb).
  rewrite (breaker_closed now _ s 0 0%Z H0) by (unfold MAX_FAILURES; lia).
  rewrite bool_decide_eq_false_2 by done.
  assert (Hmiss : (if forceRefresh then None else messageCache s !! chatId)
                  = @None (list Database.Message.t))
    by (by destruct forceRefresh).
  by rewrite Hmiss.
Qed.

Lemma switch_operation_differs (chatId : str) :
  chatId ≠ js "switchToChat-" ++ chatId.
Proof.
  intros H. apply (f_equal length) in H. rewrite length_app in H.
  change (length (js "switchToChat-")) with 13 in H. lia.
Qed.

(** A load that has settled leaves no marker behind. *)
Lemma loadMessages_cb_settled now now' (chatId : str) (forceRefresh : bool)
    fetch (s : State) :
  (∀ operation : str, operation ∉ loadingStates s) →
  ∀ operation : str,
    operation ∉ loadingStates
                  (loadMessages_cb now now' chatId forceRefresh fetch s).1.
Proof.
  intros Hs operation. unfold loadMessages_cb.
  pose proof (isCircuitBreakerOpen_state now (js "loadMessages-" ++ chatId) s)
    as (Hcache & Hload & _ & _).
  destruct (isCircuitBreakerOpen now (js "loadMessages-" ++ chatId) s)
    as [s0 open]. cbn [fst snd] in *.
  assert (Hs0 : ∀ operation : str, operation ∉ loadingStates s0)
    by (intros op; rewrite Hload; apply Hs).
  destruct open; [apply Hs0|].
  destruct (bool_decide (chatId ∈ loadingStates s0)); [apply Hs0|].
  destruct (if forceRefresh then None else messageCache s0 !! chatId);
    [apply Hs0|].
  destruct fetch; simpl;
    intros [[Hin|Hin]%elem_of_union Hout]%elem_of_difference;
    solve [by apply (Hs0 operation) | by destruct Hout].
Qed.

(** X23.  [emergencyReset], called while no other call of the service
    is in flight (a load or a switch that has not settled leaves its
    marker in [loadingStates] and would go on after the reset), reopens
    the service whatever the circuit breaker and the caches hold: the next
    [loadMessages] of any chat goes to the storage and publishes what it
    returns, the next [switchToChat] selects the chat and shows its
    messages, and nothing is left marked as loading.  The lists of chats
    and bookmarks survive the reset; the selection, the message list and
    the bookmark cache do not. *)
Theorem emergencyReset_recovers (innerWidth now now' : Z) (chatId : str)
    (forceRefresh : bool) (messageList : list Database.Message.t) (s : State) :
  (∀ operation : str, operation ∉ loadingStates s) →
  let s0 := Service.emergencyReset innerWidth s in
  let loaded := loadMessages_cb now now' chatId forceRefresh
                  (Resolved messageList) s0 in
  let switched := switchToChat_cb now now' chatId (Resolved messageList) s0 in
  chats s0 = chats s ∧ bookmarks s0 = bookmarks s
  ∧ currentChatId (appState s0) = None ∧ messages s0 = []
  ∧ bookmarkCache s0 = ∅
  ∧ loaded.2 = Resolved () ∧ messages loaded.1 = messageList
  ∧ switched.2 = Resolved ()
  ∧ currentChatId (appState switched.1) = Some chatId
  ∧ messages switched.1 = messageList
  ∧ isLoading (appState switched.1) = false
  ∧ (∀ operation : str, operation ∉ loadingStates switched.1).
Proof.
  intros _ s0 loaded switched.
  split; [done|]. split; [done|]. split; [done|]. split; [done|].
  split; [done|].
  assert (Hloaded : loaded.2 = Resolved () ∧ messages loaded.1 = messageList).
  { unfold loaded. rewrite loadMessages_cb_clean; [done| | |].
    - apply lookup_empty.
    - apply not_elem_of_empty.
    - apply lookup_empty. }
  split; [apply Hloaded|]. split; [apply Hloaded|].
  unfold switched, switchToChat_cb. cbv zeta.
  match goal with
  | |- context [@bool_decide (currentChatId _ = _) ?I] =>
      destruct (@bool_decide_reflect _ I) as [Heq|_]; [discriminate Heq|]
  end.
  cbn [andb].
  match goal with
  | |- context [@bool_decide (_ ∈ _) ?I] =>
      destruct (@bool_decide_reflect _ I) as [Hin|_];
        [by apply elem_of_empty in Hin|]
  end.
  rewrite loadMessages_cb_clean.
  - simpl. split; [done|]. split; [done|]. split; [done|]. split; [done|].
    intros operation [[Hin Hc]%elem_of_difference Hs]%elem_of_difference.
    apply elem_of_union in Hin as [[Hin|Hin]%elem_of_union|Hin].
    + by apply elem_of_empty in Hin.
    + by destruct Hs.
    + by destruct Hc.
  - apply lookup_empty.
  - simpl. intros [Hin|Hin%elem_of_singleton]%elem_of_union.
    + by apply elem_of_empty in Hin.
    + by apply (switch_operation_differs chatId).
  - apply lookup_empty.
Qed.

End CircuitBreakerFacts.

(** ** The further properties at concrete inputs *)

Section MoreWitnesses.
Import Js Regex Parser Database Storage Examples MoreExamples.

#[local] Opaque MAX_ITERATIONS.

(** X1 at the first of January 2005, five past nine, written
    [1/1/05] and [9:05], on a host in UTC. *)
Lemma parseDateTime_numerals_witness :
  (length (ParserTerms.numeral 1 1) ≤ 2
   ∧ length (ParserTerms.numeral 1 1) ≤ 2
   ∧ 2 ≤ length (ParserTerms.numeral 2 5) ≤ 4
   ∧ length (ParserTerms.numeral 1 9) ≤ 2
   ∧ length (ParserTerms.numeral 2 5) = 2)
  ∧ (ParserTerms.numeral 1 1 ++ js "/" ++ ParserTerms.numeral 1 1
     ++ js "/" ++ ParserTerms.numeral 2 5 = js "1/1/05"
     ∧ ParserTerms.numeral 1 9 ++ js ":" ++ ParserTerms.numeral 2 5 = js "9:05")
  ∧ parseDateTime utc_time (js "1/1/05") (js "9:05") = utc_time 2005 0 1 9 5.
Proof.
  assert (H1 : length (ParserTerms.numeral 1 1) ≤ 2) by (vm_compute; lia).
  assert (H2 : 2 ≤ length (ParserTerms.numeral 2 5) ≤ 4) by (vm_compute; lia).
  assert (H3 : length (ParserTerms.numeral 1 9) ≤ 2) by (vm_compute; lia).
  assert (H4 : length (ParserTerms.numeral 2 5) = 2) by (vm_compute; reflexivity).
  split; [auto|]. split; [split; vm_compute; reflexivity|].
  exact (parseDateTime_numerals utc_time 1 1 5 9 5 1 1 2 1 H1 H1 H2 H3 H4).
Defined.

(** X4 at the transcript of the first scenario, on a host in UTC. *)
Lemma validate_then_parse_witness :
  isValid (validate two_line_chat) = true
  ∧ (parse utc_time 0 0 two_line_chat).1 ≠ [].
Proof.
  assert (H : isValid (validate two_line_chat) = true)
    by (vm_compute; reflexivity).
  split; [exact H|].
  exact (validate_then_parse utc_time 0 0 two_line_chat H).
Defined.

Lemma c_is_not_d : js "c" ≠ js "d".
Proof. intros H. vm_compute in H. discriminate H. Qed.

Lemma well_keyed_three_messages : well_keyed three_messages.
Proof. apply well_keyed_storeChat, well_keyed_empty. Qed.

(** X6: storing the chat "d" beside the chat "c" of three messages. *)
Lemma storeChat_other_chats_witness :
  (well_keyed three_messages ∧ js "c" ≠ js "d")
  ∧ let db' := storeChat 0 0 (js "d") (js "other") [] [hello] [] three_messages in
    (∀ k m, Message.chatId m = js "c" →
       messages db' !! k = Some m ↔ messages three_messages !! k = Some m)
    ∧ getAllMessagesForChat db' (js "c")
      = getAllMessagesForChat three_messages (js "c")
    ∧ (∀ limit offset,
         getMessages db' (js "c") limit offset
         = getMessages three_messages (js "c") limit offset).
Proof.
  split; [split; [exact well_keyed_three_messages|exact c_is_not_d]|].
  exact (storeChat_other_chats 0 0 (js "d") (js "other") [] [hello] []
           three_messages (js "c") well_keyed_three_messages c_is_not_d).
Defined.

(** X7 at the chat "c" of three messages. *)
Lemma getAllMessagesForChat_small_witness :
  (fresh Database.empty (js "c") ∧ length [hello; hello; hello] ≤ 10)
  ∧ getAllMessagesForChat three_messages (js "c")
    = message_records (js "c") [hello; hello; hello].
Proof.
  assert (H1 : fresh Database.empty (js "c")) by apply fresh_empty.
  assert (H2 : length [hello; hello; hello] ≤ 10) by (simpl; lia).
  split; [auto|].
  exact (getAllMessagesForChat_small 0 0 (js "c") (js "chat") []
           [hello; hello; hello] [] Database.empty H1 H2).
Defined.

(** X8 at a chat of eleven messages. *)
Lemma getAllMessagesForChat_long_witness :
  (fresh Database.empty (js "c")
   ∧ eleven_messages !! 2 = Some hello
   ∧ eleven_messages !! 10 = Some hello)
  ∧ precedes
      (getAllMessagesForChat
         (storeChat 0 0 (js "c") (js "chat") [] eleven_messages []
            Database.empty) (js "c"))
      (message_record (js "c") 10 hello) (message_record (js "c") 2 hello).
Proof.
  assert (H1 : fresh Database.empty (js "c")) by apply fresh_empty.
  assert (H2 : eleven_messages !! 2 = Some hello) by reflexivity.
  assert (H3 : eleven_messages !! 10 = Some hello) by reflexivity.
  split; [auto|].
  exact (getAllMessagesForChat_long 0 0 (js "c") (js "chat") []
           eleven_messages [] Database.empty hello hello H1 H2 H3).
Defined.

Lemma c_is_nonempty : js "c" ≠ [].
Proof. intros H. vm_compute in H. discriminate H. Qed.

(** X13 at the chat "c" of three messages, with the ASCII case
    mapping. *)
Lemma searchMessages_empty_query_witness :
  ascii_lowercase [] = []
  ∧ (js "c" ≠ [] →
       searchMessages ascii_lowercase three_messages [] (Some (js "c"))
       = getAllMessagesForChat three_messages (js "c"))
  ∧ searchMessages ascii_lowercase three_messages [] None
    ≡ₚ (map_to_list (messages three_messages)).*2.
Proof.
  assert (H : ascii_lowercase [] = []) by reflexivity.
  split; [exact H|].
  exact (searchMessages_empty_query ascii_lowercase three_messages (js "c") H).
Defined.

(** X14 at the chat "c" of three messages: the page of two from offset
    one. *)
Lemma getMessages_revisions_witness :
  (chat_messages three_messages (js "c")
     ≡ₚ message_records (js "c") [hello; hello; hello]
   ∧ dense (message_records (js "c") [hello; hello; hello]))
  ∧ getMessages_v1 three_messages (js "c") 2 1
    = Store.Resolved
        (take 2 (drop 1 (message_records (js "c") [hello; hello; hello]))).
Proof.
  assert (H1 : chat_messages three_messages (js "c")
               ≡ₚ message_records (js "c") [hello; hello; hello])
    by apply storeChat_chat_messages, fresh_empty.
  assert (H2 : dense (message_records (js "c") [hello; hello; hello]))
    by apply message_records_dense.
  split; [auto|].
  refine (proj1 (proj2 (getMessages_revisions three_messages (js "c") _ 2 1
                          H1 H2) _)).
  lia.
Defined.

Lemma not_loading_initially (chatId : str) :
  chatId ∉ Store.loadingStates Store.initial.
Proof. apply not_elem_of_empty. Qed.

(** X15 at the first load of the chat "c". *)
Lemma loadMessages_cache_witness :
  ((js "c" ∉ Store.loadingStates Store.initial)
   ∧ (false = true ∨ Store.messageCache Store.initial !! js "c" = None))
  ∧ let s1 := (Store.loadMessages (js "c") false
                 (Store.Resolved [message_record (js "c") 0 hello])
                 Store.initial).1 in
    Store.messages s1 = [message_record (js "c") 0 hello]
    ∧ Store.messageCache s1 !! js "c" = Some [message_record (js "c") 0 hello]
    ∧ (∀ fetch, Store.loadMessages (js "c") false fetch s1
                = (s1, Store.Resolved ()))
    ∧ (∀ later,
         Store.messages
           (Store.loadMessages (js "c") true (Store.Resolved later) s1).1
         = later).
Proof.
  assert (H1 : js "c" ∉ Store.loadingStates Store.initial)
    by apply not_loading_initially.
  assert (H2 : false = true ∨ Store.messageCache Store.initial !! js "c" = None)
    by (right; apply lookup_empty).
  split; [auto|].
  exact (loadMessages_cache (js "c") false [message_record (js "c") 0 hello]
           Store.initial H1 H2).
Defined.

Lemma single_bookmarks_empty : Session.single_bookmarks Database.empty.
Proof.
  split.
  - intros k b H. simpl in H. by rewrite lookup_empty in H.
  - intros k1 b1 k2 b2 H. simpl in H. by rewrite lookup_empty in H.
Qed.

(** X17 at the first bookmark of an empty store. *)
Lemma toggleBookmark_flips_witness :
  Session.single_bookmarks Database.empty
  ∧ let d' := Session.toggled 5 6 (js "r") (js "c-1") (js "c") None
                Database.empty in
    Session.single_bookmarks d'
    ∧ isMessageBookmarked d' (js "c-1")
      = negb (isMessageBookmarked Database.empty (js "c-1"))
    ∧ (bookmarks Database.empty !! bookmark_id 5 (js "r") = None →
       ∀ other, other ≠ js "c-1" →
         isMessageBookmarked d' other
         = isMessageBookmarked Database.empty other).
Proof.
  split; [exact single_bookmarks_empty|].
  exact (toggleBookmark_flips 5 6 (js "r") (js "c-1") (js "c") None
           Database.empty single_bookmarks_empty).
Defined.

Lemma chats_keyed_three_messages : Session.chats_keyed three_messages.
Proof.
  intros k c. unfold three_messages, storeChat.
  rewrite put_messages_chats. simpl.
  intros [[<- <-]|[_ H]]%lookup_insert_Some; [done|].
  by rewrite lookup_empty in H.
Qed.

(** X18: the chat on display is deleted.  When the refreshes fail the
    call resolves all the same and the chat stays listed; when they
    succeed it is not listed. *)
Lemma deleteChat_service_witness :
  Session.chats_keyed (Session.db listed_c)
  ∧ Database.Chat.id <$> Store.chats (Session.service listed_c) = [js "c"]
  ∧ (let r := Service.deleteChat (js "c") (Store.Resolved ())
                (Store.Rejected (js "offline")) (Store.Rejected (js "offline"))
                (Session.service listed_c) in
     r.2 = Store.Resolved ()
     ∧ Store.chats r.1 = Store.chats (Session.service listed_c)
     ∧ Store.currentChatId (Store.appState r.1) = None
     ∧ Store.messages r.1 = [])
  ∧ (∀ chat,
       chat ∈ Store.chats (Session.service (Session.deleteChat (js "c") listed_c)) →
       Database.Chat.id chat ≠ js "c")
  ∧ Session.exportChat (js "c") (Session.deleteChat (js "c") listed_c)
    = Store.Rejected (js "Chat not found").
Proof.
  split; [exact chats_keyed_three_messages|].
  split; [vm_compute; reflexivity|].
  destruct (deleteChat_service (js "c") listed_c
              (Store.Rejected (js "offline")) (Store.Rejected (js "offline"))
              (js "unused"))
    as (_ & (Hr & _ & _ & Hsel & _ & Hchats & _) & Hok).
  destruct (Hok chats_keyed_three_messages) as (Hlist & _ & Hexp).
  assert (Hcur : bool_decide
                   (Store.currentChatId (Store.appState (Session.service listed_c))
                    = Some (js "c")) = true)
    by (vm_compute; reflexivity).
  rewrite Hcur in Hsel. destruct Hsel as [Hnone Hnil].
  split; [|split; [exact Hlist|exact Hexp]].
  split; [exact Hr|]. split; [exact Hchats|]. split; [exact Hnone|exact Hnil].
Defined.

(** X19: the first chat of a new installation.  When the load of its
    messages fails the call returns the id all the same, with the chat
    selected and nothing shown; when every call succeeds its messages
    are shown. *)
Lemma addChat_service_witness :
  (fresh (Session.db first_run) (Service.chat_id 7 (js "r"))
   ∧ (Service.chat_id 7 (js "r")
      ∉ Store.loadingStates (Session.service first_run))
   ∧ Store.messageCache (Session.service first_run) !! Service.chat_id 7 (js "r")
     = None)
  ∧ (let r := Service.addChat 7 (js "r") (Store.Resolved ())
                (Store.Resolved []) (Store.Rejected (js "timeout"))
                (Session.service first_run) in
     r.2 = Store.Resolved (js "chat-7-r")
     ∧ Store.currentChatId (Store.appState r.1) = Some (js "chat-7-r")
     ∧ Store.messages r.1 = []
     ∧ Store.messageCache r.1 !! js "chat-7-r" = None)
  ∧ let r := Session.addChat 7 8 9 (js "r") (js "chat") [js "Alice"] [hello]
               first_line first_run in
    r.2 = Store.Resolved (js "chat-7-r")
    ∧ Store.messages (Session.service r.1)
      ≡ₚ message_records (js "chat-7-r") [hello]
    ∧ Session.exportChat (js "chat-7-r") r.1 = Store.Resolved first_line.
Proof.
  assert (H1 : fresh (Session.db first_run) (Service.chat_id 7 (js "r")))
    by apply fresh_empty.
  assert (H2 : Service.chat_id 7 (js "r")
               ∉ Store.loadingStates (Session.service first_run))
    by apply not_loading_initially.
  assert (H3 : Store.messageCache (Session.service first_run)
               !! Service.chat_id 7 (js "r") = None)
    by apply lookup_empty.
  split; [auto|].
  destruct (addChat_service 7 8 9 (js "r") (js "chat") [js "Alice"] [hello]
              first_line first_run (Store.Resolved [])
              (Store.Rejected (js "timeout")) (js "unused"))
    as (_ & (Hr & Hc & _ & _ & Hload) & Hok).
  destruct (Hload H2 H3) as [Hm Hcache].
  destruct (Hok H1 H2 H3) as (Hr' & Hm' & _ & _ & He).
  change (js "chat-7-r") with (Service.chat_id 7 (js "r")).
  split; [|split; [exact Hr'|split; [exact Hm'|exact He]]].
  split; [exact Hr|]. split; [exact Hc|]. split; [exact Hm|exact Hcache].
Defined.

(** X21: the chat "c" on display, searched for [hello]. *)
Lemma filteredMessages_is_search_witness :
  (js "c" ≠ []
   ∧ Store.messages showing_c = getAllMessagesForChat three_messages (js "c"))
  ∧ (js "hello" ≠ [] →
     Service.filteredMessages ascii_lowercase
       (Service.setSearchQuery (js "hello") showing_c)
     = Service.searchMessages
         (Store.Resolved
            (searchMessages ascii_lowercase three_messages (js "hello")
               (Some (js "c")))))
  ∧ Service.filteredMessages ascii_lowercase
      (Service.setSearchQuery [] showing_c)
    = getAllMessagesForChat three_messages (js "c")
  ∧ ∀ error, Service.searchMessages (Store.Rejected error) = [].
Proof.
  assert (H2 : Store.messages showing_c
               = getAllMessagesForChat three_messages (js "c")) by reflexivity.
  split; [split; [exact c_is_nonempty|exact H2]|].
  exact (filteredMessages_is_search ascii_lowercase three_messages (js "c")
           (js "hello") showing_c c_is_nonempty H2).
Defined.

(** X22: three failed loads of the chat "c" at 1000, 2000 and 3000
    milliseconds. *)
Lemma circuit_breaker_trips_witness :
  ((js "c" ∉ Store.loadingStates Store.initial)
   ∧ Store.messageCache Store.initial !! js "c" = None
   ∧ Store.circuitBreaker Store.initial !! (js "loadMessages-" ++ js "c") = None)
  ∧ let failed check fail force error s :=
      (Store.loadMessages_cb check fail (js "c") force (Store.Rejected error) s).1 in
    let s3 := failed 3000%Z 3000%Z false (js "timeout")
                (failed 2000%Z 2000%Z false (js "timeout")
                   (failed 1000%Z 1000%Z false (js "timeout") Store.initial)) in
    (∀ now now' forceRefresh fetch,
       (now - 3000 < Store.CIRCUIT_BREAKER_TIMEOUT)%Z →
       Store.loadMessages_cb now now' (js "c") forceRefresh fetch s3
       = (s3, Store.Rejected (js "Circuit breaker is open for loading messages. Please wait and try again.")))
    ∧ (∀ now now' forceRefresh messageList,
         (Store.CIRCUIT_BREAKER_TIMEOUT ≤ now - 3000)%Z →
         let r := Store.loadMessages_cb now now' (js "c") forceRefresh
                    (Store.Resolved messageList) s3 in
         r.2 = Store.Resolved ()
         ∧ Store.messages r.1 = messageList
         ∧ Store.messageCache r.1 !! js "c" = Some messageList
         ∧ Store.circuitBreaker r.1 !! (js "loadMessages-" ++ js "c") = None).
Proof.
  assert (H1 : js "c" ∉ Store.loadingStates Store.initial)
    by apply not_loading_initially.
  assert (H2 : Store.messageCache Store.initial !! js "c" = None)
    by apply lookup_empty.
  assert (H3 : Store.circuitBreaker Store.initial
               !! (js "loadMessages-" ++ js "c") = None)
    by apply lookup_empty.
  split; [auto|].
  exact (circuit_breaker_trips (js "c") Store.initial 1000 2000 3000
           1000 2000 3000 false false false
           (js "timeout") (js "timeout") (js "timeout") H1 H2 H3).
Defined.

Lemma nothing_in_flight_tripped (operation : str) :
  operation ∉ Store.loadingStates tripped.
Proof.
  revert operation. unfold tripped, failed_load.
  do 3 apply loadMessages_cb_settled. apply not_loading_initially.
Qed.

(** X23 at a tripped circuit breaker: one second after the third
    failure a load of the chat "c" is refused; after the reset it goes
    through. *)
Lemma emergencyReset_recovers_witness :
  (∀ operation : str, operation ∉ Store.loadingStates tripped)
  ∧ (Store.loadMessages_cb 4000 4000 (js "c") false
       (Store.Resolved [message_record (js "c") 0 hello]) tripped).2
    = Store.Rejected (js "Circuit breaker is open for loading messages. Please wait and try again.")
  ∧ (let s0 := Service.emergencyReset 1024 tripped in
     let loaded := Store.loadMessages_cb 4000 4000 (js "c") false
                     (Store.Resolved [message_record (js "c") 0 hello]) s0 in
     loaded.2 = Store.Resolved ()
     ∧ Store.messages loaded.1 = [message_record (js "c") 0 hello]).
Proof.
  split; [exact nothing_in_flight_tripped|].
  split; [vm_compute; reflexivity|].
  destruct (emergencyReset_recovers 1024 4000 4000 (js "c") false
              [message_record (js "c") 0 hello] tripped
              nothing_in_flight_tripped)
    as (_ & _ & _ & _ & _ & Hr & Hm & _).
  split; [exact Hr|exact Hm].
Defined.

End MoreWitnesses.
